(** * xiaonet: a computation-graph engine for a small linear classifier

    A shallow embedding of [xiaonet.py]: the layer classes ([Layer], [Input],
    [Hidden], [Softmax], [CrossEntropy]), the scheduler [topological_sort]
    and the driver [train_SGD], with the properties of the engine proved
    about them.

    Modelling conventions.
    - Python objects live in a store: layers are numbered in the order they
      are constructed (a node is its number), numpy arrays are numbered in
      the order they are allocated (a location).  Attributes that hold an
      array hold its location, so two attributes bound to one array alias.
    - A numpy array is its [shape] and its elements, held as a nested list;
      [np.float64] numbers are idealised as real numbers (no rounding, no
      [inf], no [nan]).
    - Exceptions are explicit: a pure numpy operation returns [res], a
      statement returns an [outcome] that carries the store reached.
    - The two [while] loops of [topological_sort] run on fuel; running out
      of it is the outcome [Diverges]. *)

From Stdlib Require Import Reals Lra Lia.
From stdpp Require Import strings gmap list.

(** ** Exceptions and results of pure operations *)

Inductive exn : Type :=
| AttributeError
| TypeError
| IndexError
| ValueError
| KeyError.

Inductive res (A : Type) : Type :=
| Ok (a : A)
| Raise (e : exn).
Arguments Ok {A} a.
Arguments Raise {A} e.

#[global] Instance res_ret : MRet res := fun _ a => Ok a.
#[global] Instance res_bind : MBind res := fun _ _ f m =>
  match m with
  | Ok a => f a
  | Raise e => Raise e
  end.

(** ** numpy arrays *)

Module np.

#[local] Unset Elimination Schemes.
Inductive tree : Type :=
| Leaf (x : R)
| Node (ts : list tree).
#[local] Set Elimination Schemes.

Record ndarray : Type := mk { shape : list nat; elems : tree }.

(** [fits sh t]: the nested list [t] is rectangular, of shape [sh]. *)
Fixpoint fits (sh : list nat) (t : tree) : Prop :=
  match sh with
  | [] => exists x, t = Leaf x
  | d :: sh' => exists ts, t = Node ts /\ length ts = d /\ Forall (fits sh') ts
  end.

Definition wf (a : ndarray) : Prop := fits (shape a) (elems a).

Definition ndim (a : ndarray) : nat := length (shape a).

(** The element at a full index; [0] outside the array. *)
Fixpoint index (t : tree) (idx : list nat) : R :=
  match t with
  | Leaf x => x
  | Node ts =>
      match idx with
      | [] => 0%R
      | i :: idx' =>
          (fix nth_index (ts : list tree) (i : nat) : R :=
             match ts with
             | [] => 0%R
             | t0 :: ts' =>
                 match i with
                 | O => index t0 idx'
                 | S i' => nth_index ts' i'
                 end
             end) ts i
      end
  end.

(** The array of shape [sh] whose element at [idx] is [f idx]. *)
Fixpoint build (sh : list nat) (f : list nat -> R) : tree :=
  match sh with
  | [] => Leaf (f [])
  | d :: sh' => Node (map (fun i => build sh' (fun idx => f (i :: idx))) (seq 0 d))
  end.

Fixpoint flatten (t : tree) : list R :=
  match t with
  | Leaf x => [x]
  | Node ts => concat (map flatten ts)
  end.

Fixpoint tmap (f : R -> R) (t : tree) : tree :=
  match t with
  | Leaf x => Leaf (f x)
  | Node ts => Node (map (tmap f) ts)
  end.

Definition scalar (x : R) : ndarray := mk [] (Leaf x).
Definition vector (v : list R) : ndarray := mk [length v] (Node (map Leaf v)).
Definition matrix (cols : nat) (m : list (list R)) : ndarray :=
  mk [length m; cols] (Node (map (fun r => Node (map Leaf r)) m)).

(** [np.empty(sh)]: an array of shape [sh]; numpy leaves its contents
    unspecified, here every element is [junk]. *)
Definition empty (junk : R) (sh : list nat) : ndarray :=
  mk sh (build sh (fun _ => junk)).

(** [a[i]] for an integer [i >= 0]. *)
Definition getitem (a : ndarray) (i : nat) : res ndarray :=
  match shape a, elems a with
  | _ :: sh, Node ts =>
      match ts !! i with
      | Some t => Ok (mk sh t)
      | None => Raise IndexError
      end
  | _, _ => Raise IndexError
  end.

Definition sum_list (l : list R) : R := foldr Rplus 0%R l.

(** Sum of [g 0 .. g (n-1)]. *)
Definition sum_upto (n : nat) (g : nat -> R) : R := sum_list (map g (seq 0 n)).

(** *** Broadcasting *)

(** Shapes are aligned at their last axis; two extents agree when they are
    equal or one of them is 1. *)
Fixpoint broadcast_rev (r1 r2 : list nat) : option (list nat) :=
  match r1, r2 with
  | [], _ => Some r2
  | _, [] => Some r1
  | d1 :: r1', d2 :: r2' =>
      r ← broadcast_rev r1' r2';
      if decide (d1 = d2) then Some (d1 :: r)
      else if decide (d1 = 1) then Some (d2 :: r)
      else if decide (d2 = 1) then Some (d1 :: r)
      else None
  end.

Definition broadcast_shapes (s1 s2 : list nat) : option (list nat) :=
  reverse <$> broadcast_rev (reverse s1) (reverse s2).

(** The index into an array of shape [s] that an index [idx] of the
    broadcast shape reads: the last [length s] entries, with 0 on the axes
    of extent 1. *)
Definition bcast_idx (s : list nat) (idx : list nat) : list nat :=
  zip_with (fun d i => if decide (d = 1) then 0 else i) s
           (drop (length idx - length s) idx).

Definition bindex (a : ndarray) (idx : list nat) : R :=
  index (elems a) (bcast_idx (shape a) idx).

Definition broadcast_to (a : ndarray) (sh : list nat) : res ndarray :=
  if decide (broadcast_shapes (shape a) sh = Some sh)
  then Ok (mk sh (build sh (bindex a)))
  else Raise ValueError.

Definition binop (op : R -> R -> R) (a b : ndarray) : res ndarray :=
  match broadcast_shapes (shape a) (shape b) with
  | Some sh => Ok (mk sh (build sh (fun idx => op (bindex a idx) (bindex b idx))))
  | None => Raise ValueError
  end.

Definition add := binop Rplus.
Definition subtract := binop Rminus.
Definition multiply := binop Rmult.
Definition divide := binop Rdiv.

Definition unop (f : R -> R) (a : ndarray) : ndarray :=
  mk (shape a) (tmap f (elems a)).

Definition exp := unop Rtrigo_def.exp.
Definition log := unop ln.
Definition negative := unop Ropp.

(** [np.sum(a)]: the sum of all elements. *)
Definition sum (a : ndarray) : ndarray := scalar (sum_list (flatten (elems a))).

(** [np.sum(a, axis=0)]: the sum along the first axis. *)
Definition sum_axis0 (a : ndarray) : res ndarray :=
  match shape a with
  | [] => Raise ValueError
  | d :: sh =>
      Ok (mk sh (build sh (fun idx => sum_upto d (fun i => index (elems a) (i :: idx)))))
  end.

(** [np.mean(a)]: the sum of all elements over their number.  Of an empty
    array numpy returns [nan]; the quotient by 0 written here is some real
    number, so the theorems speak of the mean of arrays that have an
    element only. *)
Definition mean (a : ndarray) : ndarray :=
  scalar (sum_list (flatten (elems a)) / INR (length (flatten (elems a))))%R.

(** [a.T]: the axes reversed. *)
Definition T (a : ndarray) : ndarray :=
  mk (reverse (shape a))
     (build (reverse (shape a)) (fun idx => index (elems a) (reverse idx))).

(** [np.dot(a, b)]: a product when either is a scalar; otherwise the sum of
    products over the last axis of [a] and the second-to-last axis of [b]
    (the only axis of a one-dimensional [b]). *)
Definition dot (a b : ndarray) : res ndarray :=
  match shape a, shape b with
  | [], _ | _, [] => multiply a b
  | _, [k] =>
      if decide (last (shape a) = Some k) then
        let sh := take (length (shape a) - 1) (shape a) in
        Ok (mk sh (build sh (fun idx =>
              sum_upto k (fun j => index (elems a) (idx ++ [j]) * index (elems b) [j])%R)))
      else Raise ValueError
  | _, _ =>
      let nb := length (shape b) - 2 in
      match shape b !! nb with
      | Some k =>
          if decide (last (shape a) = Some k) then
            let na := length (shape a) - 1 in
            let sh := take na (shape a) ++ take nb (shape b) ++ drop (S nb) (shape b) in
            Ok (mk sh (build sh (fun idx =>
                  let ia := take na idx in
                  let kb := take nb (drop na idx) in
                  let m := drop nb (drop na idx) in
                  sum_upto k (fun j => index (elems a) (ia ++ [j])
                                       * index (elems b) (kb ++ j :: m))%R)))
          else Raise ValueError
      | None => Raise ValueError
      end
  end.

(** Leading axes of extent 1 are dropped from a value assigned to a slot
    of lower dimension. *)
Fixpoint squeeze_to (n : nat) (sh : list nat) (t : tree) : list nat * tree :=
  match sh, t with
  | 1 :: sh', Node [t0] =>
      if decide (n < length sh) then squeeze_to n sh' t0 else (sh, t)
  | _, _ => (sh, t)
  end.

(** [a[i] = v]: [v] is broadcast to the shape of the row. *)
Definition setitem (a : ndarray) (i : nat) (v : ndarray) : res ndarray :=
  match shape a, elems a with
  | d :: sh, Node ts =>
      if decide (i < length ts) then
        let '(vs, vt) := squeeze_to (length sh) (shape v) (elems v) in
        r ← broadcast_to (mk vs vt) sh;
        Ok (mk (d :: sh) (Node (<[i := elems r]> ts)))
      else Raise IndexError
  | _, _ => Raise IndexError
  end.

(** [a -= b]: the difference has the shape of [a] or the statement fails. *)
Definition isub (a b : ndarray) : res ndarray :=
  r ← subtract a b;
  if decide (shape r = shape a) then Ok r else Raise ValueError.

End np.

(** ** The store and statements *)

Abbreviation node := nat (only parsing).
Abbreviation loc := nat (only parsing).

(** The classes of the module; [CLayer] is the base class [Layer]. *)
Inductive class : Type :=
| CLayer
| CInput
| CHidden
| CSoftmax
| CCrossEntropy.

#[global] Instance class_eq_dec : EqDecision class.
Proof. solve_decision. Defined.

(** The value of an attribute: [None], an [int], or a reference to an
    array ([np.float64] results are arrays without axes). *)
Inductive pyval : Type :=
| VNone
| VInt (n : nat)
| VArr (l : loc).

(** An instance of [Layer] or of a subclass: the two attributes that wire the
    graph, and the attributes the subclasses add, by name. *)
Record Layer : Type := mkLayer {
  cls : class;
  input_layer : option node;
  outbound_layers : list node;
  attrs : gmap string pyval;
}.

Record state : Type := mkState {
  layers : list Layer;
  arrays : list np.ndarray;
}.

(** What running a statement gives: a value and the store reached, an
    exception and the store reached, or no end. *)
Inductive outcome (A : Type) : Type :=
| Returns (a : A) (s : state)
| Raises (e : exn) (s : state)
| Diverges.
Arguments Returns {A} a s.
Arguments Raises {A} e s.
Arguments Diverges {A}.

Definition M (A : Type) : Type := state -> outcome A.

#[global] Instance M_ret : MRet M := fun _ a s => Returns a s.
#[global] Instance M_bind : MBind M := fun _ _ f m s =>
  match m s with
  | Returns a s' => f a s'
  | Raises e s' => Raises e s'
  | Diverges => Diverges
  end.

Definition raise {A} (e : exn) : M A := fun s => Raises e s.
Definition diverge {A} : M A := fun _ => Diverges.

Definition lift {A} (r : res A) : M A :=
  match r with
  | Ok a => mret a
  | Raise e => raise e
  end.

(** [for x in l: body x] *)
Fixpoint for_each {A} (l : list A) (body : A -> M unit) : M unit :=
  match l with
  | [] => mret tt
  | x :: l' => _ ← body x; for_each l' body
  end.

(** [for i in range(n): body i] *)
Definition for_range (n : nat) (body : nat -> M unit) : M unit :=
  for_each (seq 0 n) body.

(** A loop that carries the local variables [acc]. *)
Fixpoint for_fold {A B} (l : list A) (acc : B) (body : B -> A -> M B) : M B :=
  match l with
  | [] => mret acc
  | x :: l' => acc' ← body acc x; for_fold l' acc' body
  end.

(** *** Objects *)

(** A reference the store does not hold cannot be followed; no Python
    program reaches this, and the statement is reported as a [TypeError]. *)
Definition get_layer (n : node) : M Layer := fun s =>
  match layers s !! n with
  | Some l => Returns l s
  | None => Raises TypeError s
  end.

Definition upd_layer (n : node) (f : Layer -> Layer) : M unit := fun s =>
  match layers s !! n with
  | Some l => Returns tt (mkState (<[n := f l]> (layers s)) (arrays s))
  | None => Raises TypeError s
  end.

(** [obj.name] *)
Definition getattr (n : node) (name : string) : M pyval :=
  l ← get_layer n;
  match attrs l !! name with
  | Some v => mret v
  | None => raise AttributeError
  end.

(** [obj.name = v] *)
Definition setattr (n : node) (name : string) (v : pyval) : M unit :=
  upd_layer n (fun l =>
    mkLayer (cls l) (input_layer l) (outbound_layers l) (<[name := v]> (attrs l))).

(** An attribute read where an array is needed. *)
Definition get_arr (n : node) (name : string) : M loc :=
  v ← getattr n name;
  match v with
  | VArr l => mret l
  | _ => raise TypeError
  end.

(** An attribute read where an [int] is needed. *)
Definition get_int (n : node) (name : string) : M nat :=
  v ← getattr n name;
  match v with
  | VInt k => mret k
  | _ => raise TypeError
  end.

(** [obj.name] of an optional object: [None] has no attributes. *)
Definition getattr_of (o : option node) (name : string) : M pyval :=
  match o with
  | Some n => getattr n name
  | None => raise AttributeError
  end.

(** A new instance of [c], before its [__init__] runs. *)
Definition new (c : class) : M node := fun s =>
  Returns (length (layers s))
          (mkState (layers s ++ [mkLayer c None [] ∅]) (arrays s)).

(** *** Arrays *)

Definition load (l : loc) : M np.ndarray := fun s =>
  match arrays s !! l with
  | Some a => Returns a s
  | None => Raises TypeError s
  end.

Definition store (l : loc) (a : np.ndarray) : M unit := fun s =>
  match arrays s !! l with
  | Some _ => Returns tt (mkState (layers s) (<[l := a]> (arrays s)))
  | None => Raises TypeError s
  end.

Definition alloc (a : np.ndarray) : M loc := fun s =>
  Returns (length (arrays s)) (mkState (layers s) (arrays s ++ [a])).

(** [v[i]] as a value *)
Definition subscript (v : pyval) (i : nat) : M np.ndarray :=
  match v with
  | VArr l => a ← load l; lift (np.getitem a i)
  | _ => raise TypeError
  end.

(** [v[i] = x] *)
Definition assign_item (v : pyval) (i : nat) (x : np.ndarray) : M unit :=
  match v with
  | VArr l => a ← load l; a' ← lift (np.setitem a i x); store l a'
  | _ => raise TypeError
  end.

(** [range(v)] for the value of an attribute *)
Definition as_int (v : pyval) : M nat :=
  match v with
  | VInt k => mret k
  | _ => raise TypeError
  end.

(** [v.shape] *)
Definition shape_of (v : pyval) : M (list nat) :=
  match v with
  | VArr l => a ← load l; mret (np.shape a)
  | _ => raise AttributeError
  end.

(** [t[k]] for a tuple or a list *)
Definition item {A} (t : list A) (k : nat) : M A :=
  match t !! k with
  | Some x => mret x
  | None => raise IndexError
  end.

(** [t[-1]] *)
Definition item_last {A} (t : list A) : M A :=
  match last t with
  | Some x => mret x
  | None => raise IndexError
  end.

(** ** The layer classes *)

Module Layer.

(** [Layer.__init__(self, input_layer=None)]; [pred] is the argument
    [input_layer]. *)
Definition __init__ (self : node) (pred : option node) : M unit :=
  _ ← upd_layer self (fun l => mkLayer (cls l) pred [] (attrs l));
  match pred with
  | Some p =>
      upd_layer p (fun l =>
        mkLayer (cls l) (input_layer l) (outbound_layers l ++ [self]) (attrs l))
  | None => mret tt
  end.

(** [forward] and [backward] of the base class take no [self]: calling
    them on an instance fails before their body runs. *)
Definition forward (self : node) : M unit := raise TypeError.
Definition backward (self : node) : M unit := raise TypeError.

End Layer.

(** [np.empty((d1, .., dk))] bound to a new array *)
Definition np_empty (junk : R) (sh : list nat) : M pyval :=
  l ← alloc (np.empty junk sh); mret (VArr l).

(** [obj.input_layer.name] *)
Definition getattr_input (self : node) (name : string) : M pyval :=
  l ← get_layer self; getattr_of (input_layer l) name.

Module Input.

Definition __init__ (junk : R) (self : node) (weights bias : pyval) : M unit :=
  _ ← Layer.__init__ self None;
  _ ← setattr self "X" VNone;
  _ ← setattr self "W" weights;
  _ ← setattr self "biases" bias;
  sh ← getattr self "W" ≫= shape_of;
  d ← item_last sh; _ ← setattr self "num_neurons" (VInt d);
  sh ← getattr self "W" ≫= shape_of;
  d ← item sh 0; _ ← setattr self "num_images" (VInt d);
  sh ← getattr self "W" ≫= shape_of;
  d ← item sh 1; _ ← setattr self "num_features" (VInt d);
  ni ← getattr self "num_images" ≫= as_int;
  nf ← getattr self "num_features" ≫= as_int;
  a ← np_empty junk [ni; nf]; _ ← setattr self "W_gradients" a;
  ni ← getattr self "num_images" ≫= as_int;
  a ← np_empty junk [ni]; _ ← setattr self "b_gradients" a;
  ni ← getattr self "num_images" ≫= as_int;
  nf ← getattr self "num_features" ≫= as_int;
  a ← np_empty junk [ni; nf]; _ ← setattr self "gradients" a;
  ni ← getattr self "num_images" ≫= as_int;
  nn ← getattr self "num_neurons" ≫= as_int;
  a ← np_empty junk [ni; nn]; setattr self "value" a.

Definition _set (self : node) (images : pyval) : M unit :=
  setattr self "X" images.

(** [np.dot(self.X[i], self.W[i]) + self.biases[i]] *)
Definition row (self : node) (i : nat) : M np.ndarray :=
  xi ← getattr self "X" ≫= (fun v => subscript v i);
  wi ← getattr self "W" ≫= (fun v => subscript v i);
  h ← lift (np.dot xi wi);
  bi ← getattr self "biases" ≫= (fun v => subscript v i);
  lift (np.add h bi).

(** One turn of the loop of [forward]: the right-hand side, then the
    assignment to [self.value[i]]. *)
Definition forward_body (self : node) (i : nat) : M unit :=
  r ← row self i;
  v ← getattr self "value";
  assign_item v i r.

Definition forward (self : node) : M unit :=
  n ← getattr self "num_images" ≫= as_int;
  for_range n (forward_body self).

(** One turn of the loop of [backward]. *)
Definition backward_body (self : node) (i : nat) : M unit :=
  wi ← getattr self "W" ≫= (fun v => subscript v i);
  gi ← getattr self "input_gradients" ≫= (fun v => subscript v i);
  r ← lift (np.dot wi gi);
  v ← getattr self "W_gradients";
  _ ← assign_item v i r;
  gi ← getattr self "input_gradients" ≫= (fun v => subscript v i);
  bi ← getattr self "biases" ≫= (fun v => subscript v i);
  r ← lift (np.dot gi bi);
  v ← getattr self "b_gradients";
  _ ← assign_item v i r;
  wg ← getattr self "W_gradients" ≫= (fun v => subscript v i);
  bg ← getattr self "b_gradients" ≫= (fun v => subscript v i);
  r ← lift (np.multiply wg bg);
  v ← getattr self "gradients";
  assign_item v i r.

Definition backward (self : node) : M unit :=
  l ← get_layer self;
  succ ← item (outbound_layers l) 0;
  g ← getattr succ "gradients";
  _ ← setattr self "input_gradients" g;
  n ← getattr self "num_images" ≫= as_int;
  for_range n (backward_body self).

End Input.

Module Hidden.

Definition __init__ (junk : R) (self : node) (pred : option node)
    (weights bias : pyval) : M unit :=
  _ ← Layer.__init__ self pred;
  _ ← setattr self "X" VNone;
  _ ← setattr self "W" weights;
  _ ← setattr self "biases" bias;
  sh ← getattr self "W" ≫= shape_of;
  d ← item_last sh; _ ← setattr self "num_classes" (VInt d);
  v ← getattr_input self "num_images"; _ ← setattr self "num_images" v;
  ni ← getattr self "num_images" ≫= as_int;
  nc ← getattr self "num_classes" ≫= as_int;
  a ← np_empty junk [ni; nc]; _ ← setattr self "value" a;
  ni ← getattr self "num_images" ≫= as_int;
  nn ← getattr_input self "num_neurons" ≫= as_int;
  a ← np_empty junk [ni; nn]; _ ← setattr self "W_gradients" a;
  ni ← getattr self "num_images" ≫= as_int;
  a ← np_empty junk [ni]; _ ← setattr self "b_gradients" a;
  ni ← getattr self "num_images" ≫= as_int;
  nn ← getattr_input self "num_neurons" ≫= as_int;
  a ← np_empty junk [ni; nn]; setattr self "gradients" a.

(** The loops of [forward] and [backward] are those of [Input]. *)
Definition forward (self : node) : M unit :=
  v ← getattr_input self "value";
  _ ← setattr self "X" v;
  n ← getattr self "num_images" ≫= as_int;
  for_range n (Input.forward_body self).

Definition backward (self : node) : M unit :=
  l ← get_layer self;
  succ ← item (outbound_layers l) 0;
  g ← getattr succ "gradients";
  _ ← setattr self "input_gradients" g;
  n ← getattr self "num_images" ≫= as_int;
  for_range n (Input.backward_body self).

End Hidden.

Module Softmax.

Definition __init__ (junk : R) (self : node) (pred : option node) : M unit :=
  _ ← Layer.__init__ self pred;
  v ← getattr_input self "num_classes"; _ ← setattr self "num_classes" v;
  v ← getattr_input self "num_images"; _ ← setattr self "num_images" v;
  ni ← getattr self "num_images" ≫= as_int;
  nc ← getattr self "num_classes" ≫= as_int;
  a ← np_empty junk [ni; nc]; _ ← setattr self "value" a;
  ni ← getattr self "num_images" ≫= as_int;
  nc ← getattr self "num_classes" ≫= as_int;
  a ← np_empty junk [ni; nc]; setattr self "gradients" a.

(** [np.exp(x) / np.sum(np.exp(x), axis=0)] *)
Definition _softmax (x : np.ndarray) : res np.ndarray :=
  s ← np.sum_axis0 (np.exp x);
  np.divide (np.exp x) s.

(** [self._softmax(input_value[i])] *)
Definition row (input_value : pyval) (i : nat) : M np.ndarray :=
  xi ← subscript input_value i;
  lift (_softmax xi).

Definition forward_body (self : node) (input_value : pyval) (i : nat) : M unit :=
  r ← row input_value i;
  v ← getattr self "value";
  assign_item v i r.

Definition forward (self : node) : M unit :=
  input_value ← getattr_input self "value";
  n ← getattr self "num_images" ≫= as_int;
  for_range n (forward_body self input_value).

Definition backward_body (self : node) (i : nat) : M unit :=
  vi ← getattr self "value" ≫= (fun v => subscript v i);
  v ← getattr self "gradients";
  assign_item v i (np.T vi).

Definition backward (self : node) : M unit :=
  n ← getattr self "num_images" ≫= as_int;
  for_range n (backward_body self).

End Softmax.

Module CrossEntropy.

Definition __init__ (junk : R) (self : node) (pred : option node) : M unit :=
  _ ← Layer.__init__ self pred;
  _ ← setattr self "ideal_output" VNone;
  v ← getattr_input self "num_classes"; _ ← setattr self "num_classes" v;
  v ← getattr_input self "num_images"; _ ← setattr self "num_images" v;
  ni ← getattr self "num_images" ≫= as_int;
  a ← np_empty junk [ni]; setattr self "tmp_value" a.

(** [-np.sum(np.multiply(self.ideal_output[i], np.log(self.softmax[i])))] *)
Definition row (self : node) (i : nat) : M np.ndarray :=
  yi ← getattr self "ideal_output" ≫= (fun v => subscript v i);
  pi ← getattr self "softmax" ≫= (fun v => subscript v i);
  m ← lift (np.multiply yi (np.log pi));
  mret (np.negative (np.sum m)).

Definition forward_body (self : node) (i : nat) : M unit :=
  r ← row self i;
  v ← getattr self "tmp_value";
  assign_item v i r.

Definition forward (self : node) : M unit :=
  v ← getattr_input self "value";
  _ ← setattr self "softmax" v;
  n ← getattr self "num_images" ≫= as_int;
  _ ← for_range n (forward_body self);
  t ← getattr self "tmp_value";
  match t with
  | VArr l =>
      a ← load l;
      r ← alloc (np.mean a);
      setattr self "value" (VArr r)
  | _ => raise TypeError
  end.

Definition backward (self : node) : M unit :=
  setattr self "gradient" VNone.

End CrossEntropy.

(** [n.forward()] and [n.backward()]: the method of the class of [n]. *)
Definition forward (n : node) : M unit :=
  l ← get_layer n;
  match cls l with
  | CLayer => Layer.forward n
  | CInput => Input.forward n
  | CHidden => Hidden.forward n
  | CSoftmax => Softmax.forward n
  | CCrossEntropy => CrossEntropy.forward n
  end.

Definition backward (n : node) : M unit :=
  l ← get_layer n;
  match cls l with
  | CLayer => Layer.backward n
  | CInput => Input.backward n
  | CHidden => Hidden.backward n
  | CSoftmax => Softmax.backward n
  | CCrossEntropy => CrossEntropy.backward n
  end.

(** ** The scheduler *)

(** The dictionary [G]: for each node the sets ['in'] and ['out']. *)
Abbreviation graph := (gmap nat (gset nat * gset nat)) (only parsing).

(** [if n not in G: G[n] = {'in': set(), 'out': set()}] *)
Definition ensure (n : node) (G : graph) : graph :=
  match G !! n with
  | Some _ => G
  | None => <[n := (∅, ∅)]> G
  end.

(** [G[n]['out'].add(m)] *)
Definition add_out (n m : node) (G : graph) : res graph :=
  match G !! n with
  | Some (i, o) => Ok (<[n := (i, o ∪ {[m]})]> G)
  | None => Raise KeyError
  end.

(** [G[m]['in'].add(n)] *)
Definition add_in (m n : node) (G : graph) : res graph :=
  match G !! m with
  | Some (i, o) => Ok (<[m := (i ∪ {[n]}, o)]> G)
  | None => Raise KeyError
  end.

(** [G[n]['out'].remove(m)]: removing an absent element is a [KeyError]. *)
Definition remove_out (n m : node) (G : graph) : res graph :=
  match G !! n with
  | Some (i, o) =>
      if decide (m ∈ o) then Ok (<[n := (i, o ∖ {[m]})]> G) else Raise KeyError
  | None => Raise KeyError
  end.

(** [G[m]['in'].remove(n)] *)
Definition remove_in (m n : node) (G : graph) : res graph :=
  match G !! m with
  | Some (i, o) =>
      if decide (n ∈ i) then Ok (<[m := (i ∖ {[n]}, o)]> G) else Raise KeyError
  | None => Raise KeyError
  end.

(** [G[m]['in']] *)
Definition in_of (m : node) (G : graph) : res (gset nat) :=
  match G !! m with
  | Some (i, _) => Ok i
  | None => Raise KeyError
  end.

(** [feed_dict[n]] for a dictionary held as the list of its items. *)
Definition dict_get (feed_dict : list (nat * pyval)) (n : node) : res pyval :=
  match list_find (fun kv => kv.1 = n) feed_dict with
  | Some (_, (_, v)) => Ok v
  | None => Raise KeyError
  end.

(** The first loop of [topological_sort]: [layers] is the queue. *)
Fixpoint build_graph (fuel : nat) (layers : list nat) (G : graph) : M graph :=
  match layers with
  | [] => mret G
  | n :: layers =>
      match fuel with
      | O => diverge
      | S fuel =>
          let G := ensure n G in
          l ← get_layer n;
          '(G, layers) ← for_fold (outbound_layers l) (G, layers)
            (fun '(G, layers) m =>
               let G := ensure m G in
               G ← lift (add_out n m G);
               G ← lift (add_in m n G);
               mret (G, layers ++ [m]));
          build_graph fuel layers G
      end
  end.

Section Scheduler.

(** [S.pop()] removes an arbitrary element: [choose k] decides which one
    the [k]-th call removes, as a position among the elements. *)
Variable choose : nat -> nat.

Definition pop (k : nat) (S : gset nat) : res (nat * gset nat) :=
  match elements S !! (choose k `mod` length (elements S)) with
  | Some n => Ok (n, S ∖ {[n]})
  | None => Raise KeyError
  end.

(** The second loop of [topological_sort]. *)
Fixpoint order (fuel : nat) (feed_dict : list (nat * pyval)) (ideal_output : pyval)
    (S : gset nat) (L : list nat) (G : graph) : M (list nat) :=
  if decide (size S = 0) then mret L
  else
    match fuel with
    | O => diverge
    | Datatypes.S fuel =>
        '(n, S) ← lift (pop (length L) S);
        l ← get_layer n;
        _ ← (if decide (cls l = CInput)
             then v ← lift (dict_get feed_dict n); Input._set n v
             else mret tt);
        _ ← (if decide (cls l = CCrossEntropy)
             then _ ← setattr n "ideal_output" ideal_output;
                  setattr n "n_inputs" (VInt 1)
             else mret tt);
        let L := L ++ [n] in
        l ← get_layer n;
        '(S, G) ← for_fold (outbound_layers l) (S, G)
          (fun '(S, G) m =>
             G ← lift (remove_out n m G);
             G ← lift (remove_in m n G);
             i ← lift (in_of m G);
             if decide (size i = 0) then mret (S ∪ {[m]}, G) else mret (S, G));
        order fuel feed_dict ideal_output S L G
    end.

Definition topological_sort (fuel : nat) (feed_dict : list (nat * pyval))
    (ideal_output : pyval) : M (list nat) :=
  let input_layers := feed_dict.*1 in
  G ← build_graph fuel input_layers ∅;
  order fuel feed_dict ideal_output (list_to_set input_layers) [] G.

(** ** The training driver *)

(** One turn of the update loop of [train_SGD]. *)
Definition update (trainables partials : list pyval) (learning_rate : R)
    (n : nat) : M unit :=
  st ← item trainables n ≫= shape_of;
  sp ← item partials n ≫= shape_of;
  if decide (st = sp) then
    t ← item trainables n;
    p ← item partials n;
    match t, p with
    | VArr lt, VArr lp =>
        ap ← load lp;
        d ← lift (np.multiply (np.scalar learning_rate) ap);
        at_ ← load lt;
        r ← lift (np.isub at_ d);
        store lt r
    | _, _ => raise TypeError
    end
  else mret tt.

Definition train_SGD (fuel : nat) (feed_dict : list (nat * pyval))
    (ideal_output : pyval) (trainables : list pyval) (learning_rate : R) : M pyval :=
  sorted_layers ← topological_sort fuel feed_dict ideal_output;
  let reversed_layers := reverse sorted_layers in
  _ ← for_each sorted_layers forward;
  _ ← for_each reversed_layers backward;
  let layers := take (length sorted_layers - 2) sorted_layers in
  partials ← for_fold layers [] (fun acc layer =>
                wg ← getattr layer "W_gradients";
                bg ← getattr layer "b_gradients";
                mret (acc ++ [wg; bg]));
  _ ← for_range (length trainables) (update trainables partials learning_rate);
  n ← item_last sorted_layers;
  getattr n "value".

End Scheduler.

(** * Specification vocabulary *)

(** ** The graph held in the store *)

(** What a layer contributes to the graph: its class and its two wiring
    attributes. *)
Definition skeleton (l : Layer) : class * option nat * list nat :=
  (cls l, input_layer l, outbound_layers l).

Definition wiring (s : state) : list (class * option nat * list nat) :=
  skeleton <$> layers s.

(** [m] is listed in [n.outbound_layers]. *)
Definition edge (s : state) (n m : nat) : Prop :=
  exists l, layers s !! n = Some l /\ m ∈ outbound_layers l.

(** [m.input_layer] is [p]. *)
Definition pred_of (s : state) (m p : nat) : Prop :=
  exists l, layers s !! m = Some l /\ input_layer l = Some p.

Definition class_of (s : state) (n : nat) (c : class) : Prop :=
  exists l, layers s !! n = Some l /\ cls l = c.

(** [n.outbound_layers], empty for a reference the store does not hold. *)
Definition succs (s : state) (n : nat) : list nat :=
  match layers s !! n with
  | Some l => outbound_layers l
  | None => []
  end.

(** The store reached by a statement that ends. *)
Definition final {A} (o : outcome A) : option state :=
  match o with
  | Returns _ s => Some s
  | Raises _ s => Some s
  | Diverges => None
  end.

(** A statement leaves the wiring of the store [s] as it is, whether it
    returns or raises. *)
Definition keeps_wiring_at {A} (m : M A) (s : state) : Prop :=
  forall s', final (m s) = Some s' -> wiring s' = wiring s.

Definition keeps_wiring {A} (m : M A) : Prop :=
  forall s, keeps_wiring_at m s.

(** The stores a program reaches by creating arrays and constructing layers:
    each constructor is called on an existing layer or on [None], and may
    raise part way. *)
Inductive constructed : state -> Prop :=
| constructed_empty :
    constructed (mkState [] [])
| constructed_arrays s A :
    constructed s -> constructed (mkState (layers s) A)
| constructed_Layer s pred s' :
    constructed s ->
    (forall p, pred = Some p -> p < length (layers s)) ->
    final ((self ← new CLayer; Layer.__init__ self pred) s) = Some s' ->
    constructed s'
| constructed_Input s junk w b s' :
    constructed s ->
    final ((self ← new CInput; Input.__init__ junk self w b) s) = Some s' ->
    constructed s'
| constructed_Hidden s junk pred w b s' :
    constructed s ->
    (forall p, pred = Some p -> p < length (layers s)) ->
    final ((self ← new CHidden; Hidden.__init__ junk self pred w b) s) = Some s' ->
    constructed s'
| constructed_Softmax s junk pred s' :
    constructed s ->
    (forall p, pred = Some p -> p < length (layers s)) ->
    final ((self ← new CSoftmax; Softmax.__init__ junk self pred) s) = Some s' ->
    constructed s'
| constructed_CrossEntropy s junk pred s' :
    constructed s ->
    (forall p, pred = Some p -> p < length (layers s)) ->
    final ((self ← new CCrossEntropy; CrossEntropy.__init__ junk self pred) s) = Some s' ->
    constructed s'.

(** The wiring that construction leaves: predecessor and successor agree, a
    predecessor is older than its successors, no successor is listed twice,
    and an [Input] has no predecessor. *)
Record wired (s : state) : Prop := mkWired {
  wired_pred : forall m p, pred_of s m p -> p < m /\ edge s p m;
  wired_succ : forall p m, edge s p m -> pred_of s m p;
  wired_nodup : forall n l, layers s !! n = Some l -> NoDup (outbound_layers l);
  wired_input : forall n, class_of s n CInput -> forall p, ~ pred_of s n p;
}.

(** The nodes [topological_sort] is to order: the keys of [feed_dict] and
    what follows them along [outbound_layers]. *)
Inductive reachable (s : state) (entries : list nat) : nat -> Prop :=
| reachable_entry n :
    n ∈ entries -> reachable s entries n
| reachable_step n m :
    reachable s entries n -> edge s n m -> reachable s entries m.

(** [p] stands before [m] in the list [L]. *)
Definition precedes (L : list nat) (p m : nat) : Prop :=
  exists i j, L !! i = Some p /\ L !! j = Some m /\ i < j.

(** A cycle can be reached from [n]. *)
Definition reaches_cycle (s : state) (n : nat) : Prop :=
  exists c, rtc (edge s) n c /\ tc (edge s) c c.

(** Every reference to a layer is held by the store. *)
Definition closed (s : state) : Prop :=
  forall n m, edge s n m -> m < length (layers s).

(** The wiring after [new c] and [Layer.__init__]. *)
Definition wire_new (w : list (class * option nat * list nat)) (c : class)
    (pred : option nat) : list (class * option nat * list nat) :=
  let w1 := w ++ [(c, pred, [])] in
  match pred with
  | Some p =>
      match w1 !! p with
      | Some (cp, ip, op) => <[p := (cp, ip, op ++ [length w])]> w1
      | None => w1
      end
  | None => w1
  end.

(** ** The dictionary [G] of the scheduler *)

(** [G[k]['in']] and [G[k]['out']], empty when [k] is not a key. *)
Definition g_in (G : gmap nat (gset nat * gset nat)) (k : nat) : gset nat :=
  default ∅ (fst <$> G !! k).
Definition g_out (G : gmap nat (gset nat * gset nat)) (k : nat) : gset nat :=
  default ∅ (snd <$> G !! k).

(** A bound on the turns of the first loop: the queue [q] of nodes below [N]
    weighs the sum of [(N+1)^(N-n)] over its nodes [n]. *)
Definition weight (N : nat) (q : list nat) : nat :=
  sum_list_with (fun n => S N ^ (N - n)) q.

(** [G] holds every edge that leaves [n]. *)
Definition expanded (s : state) (G : gmap nat (gset nat * gset nat)) (n : nat) : Prop :=
  forall m, edge s n m -> m ∈ dom G /\ m ∈ g_out G n /\ n ∈ g_in G m.

(** What holds at each turn of the first loop, with queue [q]. *)
Record bfs_inv (s : state) (entries q : list nat)
    (G : gmap nat (gset nat * gset nat)) : Prop := mkBfsInv {
  bfs_queue : forall n, n ∈ q -> reachable s entries n;
  bfs_dom : forall n, n ∈ dom G -> reachable s entries n;
  bfs_out : forall n m, m ∈ g_out G n -> edge s n m;
  bfs_in : forall n p, p ∈ g_in G n -> edge s p n;
  bfs_pending : forall n, n ∈ entries \/ n ∈ dom G ->
                          n ∈ q \/ (n ∈ dom G /\ expanded s G n);
  bfs_origin : forall n, n ∈ q \/ n ∈ dom G ->
                         n ∈ entries \/ exists p, p ∈ g_in G n;
}.

(** What the first loop leaves in [G]: the reachable nodes with their
    successors and their predecessor. *)
Record graph_built (s : state) (entries : list nat)
    (G : gmap nat (gset nat * gset nat)) : Prop := mkGraphBuilt {
  built_dom : forall n, n ∈ dom G <-> reachable s entries n;
  built_out : forall n m, m ∈ g_out G n <-> reachable s entries n /\ edge s n m;
  built_in : forall n p, p ∈ g_in G n <-> reachable s entries n /\ pred_of s n p;
}.

(** What holds at each turn of the second loop, with ready set [S], order
    [L] so far and dictionary [G]. *)
Record ord_inv (s : state) (entries : list nat) (S : gset nat) (L : list nat)
    (G : gmap nat (gset nat * gset nat)) : Prop := mkOrdInv {
  ord_nodup : NoDup L;
  ord_fresh : forall n, n ∈ S -> n ∉ L;
  ord_reach : forall n, n ∈ S \/ n ∈ L -> reachable s entries n;
  ord_entries : forall e, e ∈ entries -> e ∈ L \/ e ∈ S;
  ord_succ : forall n m, n ∈ L -> edge s n m -> m ∈ L \/ m ∈ S;
  ord_ready : forall m p, m ∈ S -> pred_of s m p -> p ∈ L;
  ord_before : forall m p, m ∈ L -> pred_of s m p -> precedes L p m;
  ord_graph : forall n, reachable s entries n -> n ∉ L ->
      n ∈ dom G /\ g_out G n = list_to_set (succs s n) /\
      forall p, p ∈ g_in G n <-> pred_of s n p /\ p ∉ L;
  ord_waiting : forall m, reachable s entries m -> m ∉ L -> m ∉ S ->
      exists p, pred_of s m p /\ p ∉ L;
}.

(** The order [topological_sort] is to return. *)
Definition topological (s : state) (entries L : list nat) : Prop :=
  NoDup L /\
  (forall n, n ∈ L <-> reachable s entries n) /\
  (forall m p, m ∈ L -> pred_of s m p -> precedes L p m).

(** ** Arrays *)

(** [idx] is an index into an array of shape [sh]. *)
Definition in_range (sh idx : list nat) : Prop := Forall2 lt idx sh.

(** The element of [a] at the index [idx]. *)
Definition at_ (a : np.ndarray) (idx : list nat) : R := np.index (np.elems a) idx.

(** ** Loops that fill the rows of one array *)

(** The stores that differ from [s0] at most in the array at [o]. *)
Definition agree (o : nat) (s0 st : state) : Prop :=
  layers st = layers s0 /\
  length (arrays st) = length (arrays s0) /\
  forall l, l ≠ o -> arrays st !! l = arrays s0 !! l.

(** The store [st] with the array at [o] replaced. *)
Definition set_array (st : state) (o : nat) (a : np.ndarray) : state :=
  mkState (layers st) (<[o := a]> (arrays st)).

(** An expression that changes no store and whose result, a value or an
    exception, does not depend on the array at [o]. *)
Definition reader {A} (o : nat) (s0 : state) (c : M A) : Prop :=
  exists r : res A, forall st, agree o s0 st -> c st = lift r st.

(** [for i in rows: a[i] = rd i], as a function of the array. *)
Fixpoint run_rows (rd : nat -> res np.ndarray) (a : np.ndarray) (rows : list nat)
    : res np.ndarray :=
  match rows with
  | [] => Ok a
  | i :: rows => r ← rd i; a' ← np.setitem a i r; run_rows rd a' rows
  end.

(** The array an attribute is bound to. *)
Definition array_of (s : state) (n : nat) (name : string) : option np.ndarray :=
  l ← layers s !! n;
  v ← attrs l !! name;
  match v with
  | VArr o => arrays s !! o
  | _ => None
  end.

(** The value of an attribute. *)
Definition attr_of (s : state) (n : nat) (name : string) : option pyval :=
  l ← layers s !! n; attrs l !! name.

(** The result of an expression, without the store. *)
Definition result {A} (o : outcome A) : res A :=
  match o with
  | Returns a _ => Ok a
  | Raises e _ => Raise e
  | Diverges => Raise TypeError
  end.

(** The layer [l], and the store [st], after [n.name = v]. *)
Definition with_attr (l : Layer) (name : string) (v : pyval) : Layer :=
  mkLayer (cls l) (input_layer l) (outbound_layers l) (<[name := v]> (attrs l)).

Definition set_attr (st : state) (n : nat) (name : string) (v : pyval) : state :=
  match layers st !! n with
  | Some l => mkState (<[n := with_attr l name v]> (layers st)) (arrays st)
  | None => st
  end.

(** [n.input_layer]. *)
Definition input_of (s : state) (n : nat) : option nat :=
  l ← layers s !! n; input_layer l.

(** The store after [CrossEntropy.forward]: [tmp_value] filled, its mean in a
    new array, bound to [value]. *)
Definition CrossEntropy_done (st1 : state) (self o : nat) (a1 : np.ndarray) : state :=
  set_attr (mkState (layers st1) (<[o := a1]> (arrays st1) ++ [np.mean a1]))
           self "value" (VArr (length (arrays st1))).

(** The attribute [name] of the layer [n] is bound to an array, whose
    contents are [a], of shape [sh]. *)
Definition array_at (s : state) (n : nat) (name : string) (a : np.ndarray)
    (sh : list nat) : Prop :=
  exists l, attr_of s n name = Some (VArr l) /\ arrays s !! l = Some a /\
            np.shape a = sh /\ np.wf a.

(** ** The backward pass of the affine layers *)

Section backward_vocabulary.
Context (self wl bl gl wgl bgl ol n f k : nat) (W B Gin : np.ndarray).

(** The store during the loop: the attributes bound, the inputs as they
    were, the three outputs of their shapes. *)
Record bound (s : state) (Wg Bg Go : np.ndarray) : Prop := mkBound {
  bound_W : attr_of s self "W" = Some (VArr wl);
  bound_b : attr_of s self "biases" = Some (VArr bl);
  bound_g : attr_of s self "input_gradients" = Some (VArr gl);
  bound_Wg : attr_of s self "W_gradients" = Some (VArr wgl);
  bound_bg : attr_of s self "b_gradients" = Some (VArr bgl);
  bound_o : attr_of s self "gradients" = Some (VArr ol);
  bound_Wa : arrays s !! wl = Some W;
  bound_ba : arrays s !! bl = Some B;
  bound_ga : arrays s !! gl = Some Gin;
  bound_Wga : arrays s !! wgl = Some Wg;
  bound_bga : arrays s !! bgl = Some Bg;
  bound_oa : arrays s !! ol = Some Go;
  bound_Wgs : np.shape Wg = [n; f];
  bound_bgs : np.shape Bg = [n];
  bound_os : np.shape Go = [n; f];
  bound_Wgw : np.wf Wg;
  bound_bgw : np.wf Bg;
  bound_ow : np.wf Go;
}.

(** Row [i] holds the three gradients of the sample [i]. *)
Definition row_done (Wg Bg Go : np.ndarray) (i : nat) : Prop :=
  (forall a, a < f ->
     at_ Wg [i; a] = np.sum_upto k (fun c => at_ W [i; a; c] * at_ Gin [i; c])%R) /\
  at_ Bg [i] = np.sum_upto k (fun c => at_ Gin [i; c] * at_ B [i; c])%R /\
  (forall a, a < f -> at_ Go [i; a] = (at_ Wg [i; a] * at_ Bg [i])%R).

End backward_vocabulary.

(** ** Running [forward] again *)

(** The layer [self] is set up for [forward], and the buffer its loop
    writes is none of the arrays the loop reads. *)
Inductive separated (st : state) (self : nat) : Prop :=
  | separated_Input n o a :
      class_of st self CInput ->
      attr_of st self "num_images" = Some (VInt n) ->
      attr_of st self "value" = Some (VArr o) -> arrays st !! o = Some a ->
      attr_of st self "X" ≠ Some (VArr o) ->
      attr_of st self "W" ≠ Some (VArr o) ->
      attr_of st self "biases" ≠ Some (VArr o) ->
      separated st self
  | separated_Hidden p v n o a :
      class_of st self CHidden ->
      input_of st self = Some p -> attr_of st p "value" = Some v ->
      attr_of st self "num_images" = Some (VInt n) ->
      attr_of st self "value" = Some (VArr o) -> arrays st !! o = Some a ->
      v ≠ VArr o ->
      attr_of st self "W" ≠ Some (VArr o) ->
      attr_of st self "biases" ≠ Some (VArr o) ->
      separated st self
  | separated_Softmax p v n o a :
      class_of st self CSoftmax ->
      input_of st self = Some p -> attr_of st p "value" = Some v ->
      attr_of st self "num_images" = Some (VInt n) ->
      attr_of st self "value" = Some (VArr o) -> arrays st !! o = Some a ->
      v ≠ VArr o ->
      separated st self
  | separated_CrossEntropy p v n o a :
      class_of st self CCrossEntropy ->
      input_of st self = Some p -> p ≠ self -> attr_of st p "value" = Some v ->
      attr_of st self "num_images" = Some (VInt n) ->
      attr_of st self "tmp_value" = Some (VArr o) -> arrays st !! o = Some a ->
      v ≠ VArr o ->
      attr_of st self "ideal_output" ≠ Some (VArr o) ->
      separated st self.

(** ** Example networks *)

(** The store a statement leaves. *)
Definition after {A} (m : M A) (s : state) : state :=
  match m s with
  | Returns _ s' => s'
  | Raises _ s' => s'
  | Diverges => s
  end.

Definition ex_tensor (r c : nat) (m : list (list (list R))) : np.ndarray :=
  np.mk [length m; r; c]
        (np.Node (map (fun x => np.Node (map (fun y => np.Node (map np.Leaf y)) x)) m)).

(** The arrays of the caller: a batch [X] of one sample with two features,
    weights and biases for an [Input] and a [Hidden] layer of two neurons
    each, and the ideal output [Y]. *)
Definition ex_arrays (X : np.ndarray) (b2 : list R) : list np.ndarray :=
  [ X;
    ex_tensor 2 2 [[[1; 0]; [0; 1]]];
    np.matrix 2 [[0; 0]];
    ex_tensor 2 2 [[[0; 0]; [0; 0]]];
    np.matrix 2 [b2];
    np.matrix 2 [[1; 0]] ]%R.

(** [inp = Input(W1, b1); hid = Hidden(inp, W2, b2); sm = Softmax(hid);
    ce = CrossEntropy(sm)] *)
Definition ex_construct : M unit :=
  inp ← new CInput; _ ← Input.__init__ 0 inp (VArr 1) (VArr 2);
  hid ← new CHidden; _ ← Hidden.__init__ 0 hid (Some inp) (VArr 3) (VArr 4);
  sm ← new CSoftmax; _ ← Softmax.__init__ 0 sm (Some hid);
  ce ← new CCrossEntropy; CrossEntropy.__init__ 0 ce (Some sm).

(** [inp = Input(W1, b1); hid = Hidden(inp, W2, b2); ce = CrossEntropy(hid)] *)
Definition ex_construct_loss : M unit :=
  inp ← new CInput; _ ← Input.__init__ 0 inp (VArr 1) (VArr 2);
  hid ← new CHidden; _ ← Hidden.__init__ 0 hid (Some inp) (VArr 3) (VArr 4);
  ce ← new CCrossEntropy; CrossEntropy.__init__ 0 ce (Some hid).

Definition ex_choose : nat -> nat := fun _ => 0.
Definition ex_feed : list (nat * pyval) := [(0, VArr 0)].

(** The four layers, with the affine output [[0, 0]]. *)
Definition ex_net : state :=
  after ex_construct (mkState [] (ex_arrays (np.matrix 2 [[1; 2]]) [0; 0]))%R.
Definition ex_sorted : state :=
  after (topological_sort ex_choose 4 ex_feed (VArr 5)) ex_net.
Definition ex_f1 : state := after (forward 0) ex_sorted.
Definition ex_f2 : state := after (forward 1) ex_f1.
Definition ex_f3 : state := after (forward 2) ex_f2.
Definition ex_f4 : state := after (forward 3) ex_f3.
Definition ex_b3 : state := after (backward 3) ex_f4.
Definition ex_b2 : state := after (backward 2) ex_b3.

(** Three layers, with the affine output [[1/2, 1/2]] fed to the loss. *)
Definition ex_loss : state :=
  after (_ ← ex_construct_loss;
         _ ← topological_sort ex_choose 3 ex_feed (VArr 5);
         _ ← forward 0; forward 1)
        (mkState [] (ex_arrays (np.matrix 2 [[1; 2]]) [1 / 2; 1 / 2]))%R.


(** Two layers that list each other in [outbound_layers]. *)
Definition ex_cycle : state :=
  mkState [mkLayer CInput None [1] ∅; mkLayer CHidden (Some 0) [0] ∅] [].

(** An array to update and a gradient of its shape. *)
Definition ex_update : state :=
  mkState [] [np.vector [1; 2]; np.vector [10; 20]]%R.

(** The array at the location [l] of the store [s]. *)
Definition ex_at (s : state) (l : nat) : np.ndarray :=
  default (np.scalar 0) (arrays s !! l).


(** ** The store while a constructor runs *)

(** The store with one more array. *)
Definition with_array (st : state) (a : np.ndarray) : state :=
  mkState (layers st) (arrays st ++ [a]).

(** The store after [new c] and [Layer.__init__] with the predecessor
    [pred]: the new layer is the last, and the last in the
    [outbound_layers] of [pred]. *)
Definition wired_in (s : state) (c : class) (pred : option nat) : state :=
  let self := length (layers s) in
  let ls := layers s ++ [mkLayer c pred [] ∅] in
  mkState
    (match pred with
     | Some p =>
         match ls !! p with
         | Some l =>
             <[p := mkLayer (cls l) (input_layer l) (outbound_layers l ++ [self])
                            (attrs l)]> ls
         | None => ls
         end
     | None => ls
     end)
    (arrays s).

(** The arrays of the caller before any layer is built. *)
Definition ex_user : state :=
  mkState [] (ex_arrays (np.matrix 2 [[1; 2]]) [0; 0])%R.

(** The example while it is built: after [Input], [Hidden] and [Softmax]. *)
Definition ex_input : state :=
  after (self ← new CInput; Input.__init__ 0 self (VArr 1) (VArr 2)) ex_user.
Definition ex_hidden : state :=
  after (self ← new CHidden; Hidden.__init__ 0 self (Some 0) (VArr 3) (VArr 4)) ex_input.
Definition ex_softmax : state :=
  after (self ← new CSoftmax; Softmax.__init__ 0 self (Some 1)) ex_hidden.

(** ** What [topological_sort] leaves alone *)

(** The attributes of a layer but those [topological_sort] may bind: [X]
    of an [Input] layer, [ideal_output] and [n_inputs] of a [CrossEntropy]
    layer. *)
Definition scrub (l : Layer) : gmap string pyval :=
  match cls l with
  | CInput => delete "X" (attrs l)
  | CCrossEntropy => delete "n_inputs" (delete "ideal_output" (attrs l))
  | _ => attrs l
  end.

(** The store but those attributes: every array, and of every layer the
    class, the wiring and the other attributes. *)
Definition outside_injection (s : state)
    : list np.ndarray * list (class * option nat * list nat * gmap string pyval) :=
  (arrays s, (fun l => (skeleton l, scrub l)) <$> layers s).

(** A statement run from [s] leaves the part [part] of the store as it is,
    whether it returns or raises. *)
Definition kept_at {T A} (part : state -> T) (m : M A) (s : state) : Prop :=
  forall s', final (m s) = Some s' -> part s' = part s.

(** The layer [n] holds what the scheduler injects: the batch fed to it if
    it is an [Input] layer, the ideal output if it is a [CrossEntropy]
    layer. *)
Definition injected (feed_dict : list (nat * pyval)) (ideal_output : pyval)
    (st : state) (n : nat) : Prop :=
  forall l, layers st !! n = Some l ->
    (cls l = CInput ->
     exists v, dict_get feed_dict n = Ok v /\ attrs l !! "X" = Some v) /\
    (cls l = CCrossEntropy ->
     attrs l !! "ideal_output" = Some ideal_output /\
     attrs l !! "n_inputs" = Some (VInt 1)).

(** ** Graphs in which a layer is listed by several layers *)

(** No layer can be reached from itself along [outbound_layers]. *)
Definition acyclic (s : state) : Prop :=
  forall n, ~ tc (edge s) n n.

(** No layer lists a layer twice. *)
Definition listed_once (s : state) : Prop :=
  forall n l, layers s !! n = Some l -> NoDup (outbound_layers l).

(** No layer the entries lead to lists an [Input]. *)
Definition inputs_unlisted (s : state) (entries : list nat) : Prop :=
  forall p n, reachable s entries p -> edge s p n -> ~ class_of s n CInput.

(** [l] is a walk along [outbound_layers] that leaves [n]. *)
Fixpoint walk (s : state) (n : nat) (l : list nat) : Prop :=
  match l with
  | [] => True
  | m :: l => edge s n m /\ walk s m l
  end.

(** The number of walks of fewer than [k] edges that leave [n]. *)
Fixpoint walks (s : state) (k n : nat) : nat :=
  match k with
  | 0 => 0
  | S k => S (sum_list_with (walks s k) (succs s n))
  end.

(** The turns the first loop of [topological_sort] spends on a queue entry
    [n]: the loop has no test for a node seen before, so that it takes [n]
    and then the successors of [n], one turn for each walk that leaves [n].
    Without a cycle no walk has more edges than the store has layers. *)
Definition visits (s : state) (n : nat) : nat :=
  walks s (S (length (layers s))) n.

(** What the first loop leaves in [G], whatever the number of layers that
    list a layer: the reachable nodes, each with the nodes it lists and
    with the reachable nodes that list it. *)
Record graph_linked (s : state) (entries : list nat)
    (G : gmap nat (gset nat * gset nat)) : Prop := mkGraphLinked {
  linked_dom : forall n, n ∈ dom G <-> reachable s entries n;
  linked_out : forall n m, m ∈ g_out G n <-> reachable s entries n /\ edge s n m;
  linked_in : forall n p, p ∈ g_in G n <-> reachable s entries p /\ edge s p n;
}.

(** What holds at each turn of the second loop, with ready set [S], order
    [L] so far and dictionary [G]: [G[n]['in']] holds the reachable nodes
    that list [n] and are not ordered yet, and [n] is ready exactly when
    there is none. *)
Record kahn_inv (s : state) (entries : list nat) (S : gset nat) (L : list nat)
    (G : gmap nat (gset nat * gset nat)) : Prop := mkKahnInv {
  kahn_nodup : NoDup L;
  kahn_fresh : forall n, n ∈ S -> n ∉ L;
  kahn_reach : forall n, n ∈ S \/ n ∈ L -> reachable s entries n;
  kahn_before : forall p m, m ∈ L -> reachable s entries p -> edge s p m ->
      precedes L p m;
  kahn_graph : forall n, reachable s entries n -> n ∉ L ->
      n ∈ dom G /\ g_out G n = list_to_set (succs s n) /\
      forall p, p ∈ g_in G n <-> reachable s entries p /\ edge s p n /\ p ∉ L;
  kahn_ready : forall n, reachable s entries n -> n ∉ L ->
      n ∈ S <-> g_in G n = ∅;
}.

(** The order [topological_sort] is to return on such a graph: every
    reachable node once, before each node it lists. *)
Definition scheduled (s : state) (entries L : list nat) : Prop :=
  NoDup L /\
  (forall n, n ∈ L <-> reachable s entries n) /\
  (forall p m, p ∈ L -> edge s p m -> precedes L p m).

(** A store wired by hand: the [Input] 0 lists the [Hidden] layers 1 and 2,
    and both list the [Softmax] 3, which has 1 as its [input_layer]. *)
Definition ex_diamond : state :=
  mkState [mkLayer CInput None [1; 2] ∅;
           mkLayer CHidden (Some 0) [3] ∅;
           mkLayer CHidden (Some 0) [3] ∅;
           mkLayer CSoftmax (Some 1) [] ∅] [].

(** Two stores wired by hand that [topological_sort] does not order: in
    [ex_listed_input] the [Input] 0 lists the [Input] 1, in
    [ex_listed_twice] the [Input] 0 lists the layer 1 twice. *)
Definition ex_listed_input : state :=
  mkState [mkLayer CInput None [1] ∅; mkLayer CInput None [] ∅] [].

Definition ex_listed_twice : state :=
  mkState [mkLayer CInput None [1; 1] ∅; mkLayer CHidden (Some 0) [] ∅] [].

(** * Statements: how they run *)

Lemma bind_returns {A B} (m : M A) (f : A -> M B) s a s' :
  m s = Returns a s' -> (m ≫= f) s = f a s'.
Proof. intros H. unfold mbind, M_bind. by rewrite H. Qed.

Lemma bind_raises {A B} (m : M A) (f : A -> M B) s e s' :
  m s = Raises e s' -> (m ≫= f) s = Raises e s'.
Proof. intros H. unfold mbind, M_bind. by rewrite H. Qed.

Lemma bind_diverges {A B} (m : M A) (f : A -> M B) s :
  m s = Diverges -> (m ≫= f) s = Diverges.
Proof. intros H. unfold mbind, M_bind. by rewrite H. Qed.

Lemma bind_lift_ok {A B} (a : A) (f : A -> M B) s :
  (lift (Ok a) ≫= f) s = f a s.
Proof. reflexivity. Qed.

Lemma bind_lift_raise {A B} e (f : A -> M B) s :
  (lift (Raise e) ≫= f) s = Raises e s.
Proof. reflexivity. Qed.

Lemma bind_ret {A B} (a : A) (f : A -> M B) s :
  (mret a ≫= f) s = f a s.
Proof. reflexivity. Qed.

Lemma get_layer_returns n s l :
  layers s !! n = Some l -> get_layer n s = Returns l s.
Proof. intros H. unfold get_layer. by rewrite H. Qed.

Lemma getattr_returns n name s l v :
  layers s !! n = Some l -> attrs l !! name = Some v ->
  getattr n name s = Returns v s.
Proof.
  intros Hl Hv. unfold getattr.
  rewrite (bind_returns _ _ _ _ _ (get_layer_returns _ _ _ Hl)).
  by rewrite Hv.
Qed.

(** ** Statements that do not rewire *)

Lemma wiring_lookup s n :
  wiring s !! n = skeleton <$> layers s !! n.
Proof. unfold wiring. apply list_lookup_fmap. Qed.

Lemma wiring_length s : length (wiring s) = length (layers s).
Proof. unfold wiring. apply length_fmap. Qed.

Lemma kw_ret {A} (a : A) : keeps_wiring (mret a).
Proof. intros s s' [= <-]. done. Qed.

Lemma kw_raise {A} e : keeps_wiring (@raise A e).
Proof. intros s s' [= <-]. done. Qed.

Lemma kw_diverge {A} : keeps_wiring (@diverge A).
Proof. intros s s' [=]. Qed.

Lemma kw_lift {A} (r : res A) : keeps_wiring (lift r).
Proof. destruct r; [apply kw_ret | apply kw_raise]. Qed.

Lemma kw_bind {A B} (m : M A) (f : A -> M B) :
  keeps_wiring m -> (forall a, keeps_wiring (f a)) -> keeps_wiring (m ≫= f).
Proof.
  intros Hm Hf s s'. unfold mbind, M_bind.
  specialize (Hm s). unfold keeps_wiring_at in Hm.
  destruct (m s) as [a s1|e s1|]; simpl in *.
  - intros H. rewrite (Hf a s1 s' H). by apply Hm.
  - intros [= <-]. by apply Hm.
  - done.
Qed.

Lemma kw_for_each {A} (l : list A) body :
  (forall x, keeps_wiring (body x)) -> keeps_wiring (for_each l body).
Proof.
  intros Hb. induction l as [|x l IH]; simpl.
  - apply kw_ret.
  - apply kw_bind; [apply Hb | intros _; apply IH].
Qed.

Lemma kw_for_range n body :
  (forall i, keeps_wiring (body i)) -> keeps_wiring (for_range n body).
Proof. apply kw_for_each. Qed.

Lemma kw_for_fold {A B} (l : list A) (acc : B) body :
  (forall b x, keeps_wiring (body b x)) -> keeps_wiring (for_fold l acc body).
Proof.
  intros Hb. revert acc. induction l as [|x l IH]; intros acc; simpl.
  - apply kw_ret.
  - apply kw_bind; [apply Hb | intros b; apply IH].
Qed.

Lemma kw_get_layer n : keeps_wiring (get_layer n).
Proof. intros s s'. unfold get_layer. by destruct (layers s !! n); intros [= <-]. Qed.

Lemma kw_upd_layer n f :
  (forall l, skeleton (f l) = skeleton l) -> keeps_wiring (upd_layer n f).
Proof.
  intros Hf s s'. unfold upd_layer.
  destruct (layers s !! n) as [l|] eqn:Hl; intros [= <-]; [|done].
  unfold wiring; simpl. rewrite list_fmap_insert, Hf.
  apply list_insert_id. by rewrite list_lookup_fmap, Hl.
Qed.

Lemma kw_setattr n name v : keeps_wiring (setattr n name v).
Proof. apply kw_upd_layer. done. Qed.

Lemma kw_getattr n name : keeps_wiring (getattr n name).
Proof.
  apply kw_bind; [apply kw_get_layer|]. intros l.
  destruct (attrs l !! name); [apply kw_ret | apply kw_raise].
Qed.

Lemma kw_getattr_of o name : keeps_wiring (getattr_of o name).
Proof. destruct o; [apply kw_getattr | apply kw_raise]. Qed.

Lemma kw_getattr_input n name : keeps_wiring (getattr_input n name).
Proof. apply kw_bind; [apply kw_get_layer|]. intros l. apply kw_getattr_of. Qed.

Lemma kw_load l : keeps_wiring (load l).
Proof. intros s s'. unfold load. by destruct (arrays s !! l); intros [= <-]. Qed.

Lemma kw_store l a : keeps_wiring (store l a).
Proof. intros s s'. unfold store. by destruct (arrays s !! l); intros [= <-]. Qed.

Lemma kw_alloc a : keeps_wiring (alloc a).
Proof. intros s s' [= <-]. done. Qed.

Lemma kw_as_int v : keeps_wiring (as_int v).
Proof. destruct v; first [apply kw_ret | apply kw_raise]. Qed.

Lemma kw_item {A} (t : list A) k : keeps_wiring (item t k).
Proof. unfold item. destruct (t !! k); [apply kw_ret | apply kw_raise]. Qed.

Lemma kw_item_last {A} (t : list A) : keeps_wiring (item_last t).
Proof. unfold item_last. destruct (last t); [apply kw_ret | apply kw_raise]. Qed.

Lemma kw_subscript v i : keeps_wiring (subscript v i).
Proof.
  destruct v; simpl; try apply kw_raise.
  apply kw_bind; [apply kw_load | intros; apply kw_lift].
Qed.

Lemma kw_assign_item v i x : keeps_wiring (assign_item v i x).
Proof.
  destruct v; simpl; try apply kw_raise.
  apply kw_bind; [apply kw_load | intros].
  apply kw_bind; [apply kw_lift | intros; apply kw_store].
Qed.

Lemma kw_shape_of v : keeps_wiring (shape_of v).
Proof.
  destruct v; simpl; try apply kw_raise.
  apply kw_bind; [apply kw_load | intros; apply kw_ret].
Qed.

Lemma kw_np_empty junk sh : keeps_wiring (np_empty junk sh).
Proof. apply kw_bind; [apply kw_alloc | intros; apply kw_ret]. Qed.

Create HintDb kw.
#[export] Hint Resolve kw_ret kw_raise kw_diverge kw_lift kw_get_layer kw_setattr
  kw_getattr kw_getattr_of kw_getattr_input kw_load kw_store kw_alloc kw_as_int
  kw_item kw_item_last kw_subscript kw_assign_item kw_shape_of kw_np_empty : kw.

(** Splits a statement into its parts, each closed by the hints. *)
Ltac kw_step :=
  first
    [ simple apply @kw_bind; [|intros]
    | simple apply kw_for_range; intros
    | simple apply @kw_for_each; intros
    | simple apply @kw_for_fold; intros
    | solve [auto with kw nocore]
    | match goal with
      | |- keeps_wiring ?t =>
          match t with
          | context [match ?x with _ => _ end] => destruct x
          end
      end ].
Ltac kw := repeat kw_step.

Lemma kw_Input_forward_body n i : keeps_wiring (Input.forward_body n i).
Proof. unfold Input.forward_body, Input.row. kw. Qed.

Lemma kw_Input_backward_body n i : keeps_wiring (Input.backward_body n i).
Proof. unfold Input.backward_body. kw. Qed.

#[export] Hint Resolve kw_Input_forward_body kw_Input_backward_body : kw.

Lemma kw_forward n : keeps_wiring (forward n).
Proof.
  unfold forward. apply kw_bind; [apply kw_get_layer|]. intros l.
  destruct (cls l).
  - apply kw_raise.
  - unfold Input.forward. kw.
  - unfold Hidden.forward. kw.
  - unfold Softmax.forward, Softmax.forward_body, Softmax.row. kw.
  - unfold CrossEntropy.forward, CrossEntropy.forward_body, CrossEntropy.row. kw.
Qed.

Lemma kw_backward n : keeps_wiring (backward n).
Proof.
  unfold backward. apply kw_bind; [apply kw_get_layer|]. intros l.
  destruct (cls l).
  - apply kw_raise.
  - unfold Input.backward. kw.
  - unfold Hidden.backward. kw.
  - unfold Softmax.backward, Softmax.backward_body. kw.
  - unfold CrossEntropy.backward. kw.
Qed.

Lemma kw_build_graph fuel q G : keeps_wiring (build_graph fuel q G).
Proof.
  revert q G. induction fuel as [|fuel IH]; intros [|n q] G; simpl;
    try apply kw_ret; try apply kw_diverge.
  kw.
Qed.

Lemma kw_order choose fuel feed y S L G :
  keeps_wiring (order choose fuel feed y S L G).
Proof.
  revert S L G. induction fuel as [|fuel IH]; intros S L G; simpl.
  - destruct (decide (size S = 0)); [apply kw_ret | apply kw_diverge].
  - destruct (decide (size S = 0)); [apply kw_ret|].
    unfold Input._set. kw.
Qed.

Lemma kw_topological_sort choose fuel feed y :
  keeps_wiring (topological_sort choose fuel feed y).
Proof.
  unfold topological_sort. apply kw_bind; [apply kw_build_graph|].
  intros G. apply kw_order.
Qed.

Lemma kw_update ts ps lr n : keeps_wiring (update ts ps lr n).
Proof. unfold update. kw. Qed.

Lemma kw_train_SGD choose fuel feed y ts lr :
  keeps_wiring (train_SGD choose fuel feed y ts lr).
Proof.
  unfold train_SGD.
  apply kw_bind; [apply kw_topological_sort | intros L].
  apply kw_bind; [apply kw_for_each; intros; apply kw_forward | intros _].
  apply kw_bind; [apply kw_for_each; intros; apply kw_backward | intros _].
  kw. apply kw_update.
Qed.

(** * Construction wires the graph *)

Lemma edge_wiring s n m :
  edge s n m <-> exists c i o, wiring s !! n = Some (c, i, o) /\ m ∈ o.
Proof.
  unfold edge. rewrite wiring_lookup. split.
  - intros (l & Hl & Hm). exists (cls l), (input_layer l), (outbound_layers l).
    by rewrite Hl.
  - intros (c & i & o & H & Hm).
    destruct (layers s !! n) as [l|]; unfold skeleton in *; simplify_eq/=; eauto.
Qed.

Lemma pred_of_wiring s m p :
  pred_of s m p <-> exists c o, wiring s !! m = Some (c, Some p, o).
Proof.
  unfold pred_of. rewrite wiring_lookup. split.
  - intros (l & Hl & Hp). exists (cls l), (outbound_layers l).
    rewrite Hl. simpl. unfold skeleton. by rewrite Hp.
  - intros (c & o & H).
    destruct (layers s !! m) as [l|]; unfold skeleton in *; simplify_eq/=; eauto.
Qed.

Lemma class_of_wiring s n c :
  class_of s n c <-> exists i o, wiring s !! n = Some (c, i, o).
Proof.
  unfold class_of. rewrite wiring_lookup. split.
  - intros (l & Hl & Hc). exists (input_layer l), (outbound_layers l).
    rewrite Hl. simpl. unfold skeleton. by rewrite Hc.
  - intros (i & o & H).
    destruct (layers s !! n) as [l|]; unfold skeleton in *; simplify_eq/=; eauto.
Qed.

Lemma nodup_wiring s :
  (forall n l, layers s !! n = Some l -> NoDup (outbound_layers l)) <->
  (forall n c i o, wiring s !! n = Some (c, i, o) -> NoDup o).
Proof.
  split.
  - intros H n c i o. rewrite wiring_lookup.
    destruct (layers s !! n) as [l|] eqn:Hl; intros; unfold skeleton in *; simplify_eq/=; eauto.
  - intros H n l Hl. apply (H n (cls l) (input_layer l)).
    by rewrite wiring_lookup, Hl.
Qed.

(** Being wired is a property of the wiring alone. *)
Lemma wired_ext s s' : wiring s = wiring s' -> wired s -> wired s'.
Proof.
  intros E [H1 H2 H3 H4]. split.
  - intros m p. rewrite pred_of_wiring, edge_wiring, <- E,
      <- pred_of_wiring, <- edge_wiring. apply H1.
  - intros p m. rewrite pred_of_wiring, edge_wiring, <- E,
      <- pred_of_wiring, <- edge_wiring. apply H2.
  - apply nodup_wiring. rewrite <- E. by apply nodup_wiring.
  - intros n. rewrite class_of_wiring, <- E, <- class_of_wiring.
    intros Hc p. rewrite pred_of_wiring, <- E, <- pred_of_wiring. by apply H4.
Qed.

Lemma wired_allocated s p m : wired s -> edge s p m -> m < length (layers s).
Proof.
  intros Hw He. destruct (wired_succ _ Hw _ _ He) as (l & Hl & _).
  by apply lookup_lt_Some in Hl.
Qed.

Lemma wired_closed s : wired s -> closed s.
Proof. intros Hw n m. by apply wired_allocated. Qed.

Lemma wired_edge_lt s p m : wired s -> edge s p m -> p < m.
Proof.
  intros Hw He. apply (wired_succ _ Hw) in He. by apply (wired_pred _ Hw) in He as [? _].
Qed.

Lemma wired_pred_unique s m p p' :
  pred_of s m p -> pred_of s m p' -> p = p'.
Proof. intros (l & Hl & Hp) (l' & Hl' & Hp'). congruence. Qed.

Lemma new_init_returns c pred s :
  (forall p, pred = Some p -> p < length (layers s)) ->
  exists s1, (new c ≫= fun self => Layer.__init__ self pred) s = Returns tt s1 /\
             wiring s1 = wire_new (wiring s) c pred.
Proof.
  intros Hp. unfold mbind at 1, M_bind at 1, new.
  unfold Layer.__init__, mbind, M_bind, upd_layer. simpl.
  rewrite lookup_app_r, Nat.sub_diag by done. simpl.
  rewrite insert_app_r_alt, Nat.sub_diag by done. simpl.
  unfold wire_new. rewrite wiring_length.
  destruct pred as [p|]; simpl.
  - specialize (Hp p eq_refl).
    destruct (lookup_lt_is_Some_2 (layers s) p Hp) as [lp Hlp].
    rewrite lookup_app_l, Hlp by done.
    eexists; split; [done|]. unfold wiring; simpl.
    rewrite lookup_app_l by (by rewrite length_fmap).
    rewrite list_lookup_fmap, Hlp. simpl.
    by rewrite list_fmap_insert, fmap_app.
  - eexists; split; [done|]. unfold wiring; simpl. by rewrite fmap_app.
Qed.

Lemma final_bind_kw {A B} (m : M A) (f : A -> M B) s a s1 s' :
  m s = Returns a s1 -> keeps_wiring (f a) ->
  final ((m ≫= f) s) = Some s' -> wiring s' = wiring s1.
Proof.
  intros Hm Hf. rewrite (bind_returns _ _ _ _ _ Hm). apply Hf.
Qed.

Section wire_new_facts.
Context (s s1 : state) (c : class) (pred : option nat).
Hypothesis Hw : wired s.
Hypothesis Hp : forall p, pred = Some p -> p < length (layers s).
Hypothesis E : wiring s1 = wire_new (wiring s) c pred.

Let N := length (layers s).

Lemma wire_new_lookup n :
  wiring s1 !! n =
    if decide (n = N) then Some (c, pred, [])
    else match wiring s !! n with
         | Some (cn, i, o) =>
             Some (cn, i, if decide (pred = Some n) then o ++ [N] else o)
         | None => None
         end.
Proof.
  rewrite E. unfold wire_new. subst N. rewrite <- (wiring_length s).
  set (w := wiring s).
  assert (Hw1 : forall k, (w ++ [(c, pred, [])]) !! k =
            if decide (k = length w) then Some (c, pred, []) else w !! k).
  { intros k. case_decide as Hk.
    - subst. by rewrite lookup_app_r, Nat.sub_diag.
    - destruct (decide (k < length w)).
      + by rewrite lookup_app_l.
      + rewrite !lookup_ge_None_2; [done|lia|rewrite length_app; simpl; lia]. }
  destruct pred as [p|].
  - assert (p < length w) by (unfold w; rewrite wiring_length; auto).
    rewrite (Hw1 p). rewrite decide_False by lia.
    destruct (w !! p) as [[[cp ip] op]|] eqn:Hwp.
    2:{ apply lookup_ge_None in Hwp. lia. }
    destruct (decide (n = p)) as [->|Hn].
    + rewrite list_lookup_insert_eq by (rewrite length_app; simpl; lia).
      rewrite decide_False by lia. rewrite Hwp. by rewrite decide_True.
    + rewrite list_lookup_insert_ne by done. rewrite Hw1.
      case_decide; [done|].
      destruct (w !! n) as [[[cn i] o]|]; [|done].
      rewrite decide_False; [done|congruence].
  - rewrite Hw1. case_decide; [done|].
    by destruct (w !! n) as [[[cn i] o]|].
Qed.

Lemma wire_new_edge n m :
  edge s1 n m <-> edge s n m \/ (pred = Some n /\ m = N).
Proof.
  rewrite !edge_wiring. setoid_rewrite wire_new_lookup. split.
  - intros (cn & i & o & H & Hm). case_decide; simplify_eq.
    { by apply elem_of_nil in Hm. }
    destruct (wiring s !! n) as [[[cn' i'] o']|] eqn:Hn; simplify_eq.
    case_decide.
    + apply elem_of_app in Hm as [Hm|Hm]; [left; eauto 6|].
      apply list_elem_of_singleton in Hm. by right.
    + left; eauto 6.
  - intros [(cn & i & o & H & Hm)|[-> ->]].
    + assert (n <> N).
      { intros ->. apply lookup_lt_Some in H. rewrite wiring_length in H.
        subst N. lia. }
      rewrite decide_False, H by done.
      do 3 eexists. split; [done|]. case_decide; set_solver.
    + specialize (Hp n eq_refl).
      rewrite decide_False by (subst N; lia).
      destruct (wiring s !! n) as [[[cn i] o]|] eqn:Hn.
      2:{ apply lookup_ge_None in Hn. rewrite wiring_length in Hn. lia. }
      do 3 eexists. split; [done|]. rewrite decide_True by done. set_solver.
Qed.

Lemma wire_new_pred m p :
  pred_of s1 m p <-> pred_of s m p \/ (m = N /\ pred = Some p).
Proof.
  rewrite !pred_of_wiring. setoid_rewrite wire_new_lookup. split.
  - intros (cm & o & H). case_decide; simplify_eq; [by right|].
    destruct (wiring s !! m) as [[[cn' i'] o']|] eqn:Hn; simplify_eq.
    left; eauto.
  - intros [(cm & o & H)|[-> ->]].
    + assert (m <> N).
      { intros ->. apply lookup_lt_Some in H. rewrite wiring_length in H.
        subst N. lia. }
      rewrite decide_False, H by done. eauto.
    + rewrite decide_True by done. eauto.
Qed.

Lemma wire_new_class n c' :
  class_of s1 n c' <-> class_of s n c' \/ (n = N /\ c' = c).
Proof.
  rewrite !class_of_wiring. setoid_rewrite wire_new_lookup. split.
  - intros (i & o & H). case_decide; simplify_eq; [by right|].
    destruct (wiring s !! n) as [[[cn' i'] o']|] eqn:Hn; simplify_eq.
    left; eauto.
  - intros [(i & o & H)|[-> ->]].
    + assert (n <> N).
      { intros ->. apply lookup_lt_Some in H. rewrite wiring_length in H.
        subst N. lia. }
      rewrite decide_False, H by done. eauto.
    + rewrite decide_True by done. eauto.
Qed.

Lemma wire_new_wired : (c = CInput -> pred = None) -> wired s1.
Proof.
  intros Hc. split.
  - intros m p. rewrite wire_new_pred, wire_new_edge.
    intros [H|[-> ->]].
    + apply (wired_pred _ Hw) in H as [? ?]. auto.
    + split; [by apply Hp | by right].
  - intros p m. rewrite wire_new_pred, wire_new_edge.
    intros [H|[-> ->]]; [left; by apply (wired_succ _ Hw) | by right].
  - apply nodup_wiring. intros n cn i o. rewrite wire_new_lookup.
    case_decide; [intros [= <- <- <-]; constructor|].
    destruct (wiring s !! n) as [[[cn' i'] o']|] eqn:Hn; [|done].
    intros [= <- <- <-].
    assert (NoDup o') as Ho'.
    { pose proof (proj1 (nodup_wiring s) (wired_nodup _ Hw)) as Hnd. eauto. }
    case_decide; [|done].
    apply NoDup_app. split_and!; [done| |apply NoDup_singleton].
    intros x Hx ->%list_elem_of_singleton.
    assert (edge s n N) as He by (apply edge_wiring; eauto 6).
    apply (wired_allocated _ _ _ Hw) in He. subst N. lia.
  - intros n. rewrite wire_new_class. intros [Hn|[-> Hcc]] p;
      rewrite wire_new_pred.
    + intros [H|[-> _]]; [by eapply (wired_input _ Hw)|].
      destruct Hn as (l & Hl%lookup_lt_Some & _). subst N. lia.
    + intros [(l & Hl%lookup_lt_Some & _)|[_ H]]; [subst N; lia|].
      by rewrite Hc in H.
Qed.
End wire_new_facts.

Lemma wired_empty A : wired (mkState [] A).
Proof.
  split.
  - by intros m p (l & Hl & _).
  - by intros m p (l & Hl & _).
  - by intros n l Hl.
  - by intros n (l & Hl & _).
Qed.

(** A constructor body after [Layer.__init__] does not rewire. *)
Lemma constructor_wired c pred (rest : nat -> M unit) s s' :
  wired s ->
  (forall p, pred = Some p -> p < length (layers s)) ->
  (c = CInput -> pred = None) ->
  (forall self, keeps_wiring (rest self)) ->
  final ((self ← new c; _ ← Layer.__init__ self pred; rest self) s) = Some s' ->
  wired s'.
Proof.
  intros Hw Hp Hc Hrest.
  destruct (new_init_returns c pred s Hp) as (s1 & Hrun & E).
  unfold mbind at 1, M_bind at 1. unfold mbind at 1, M_bind at 1 in Hrun.
  unfold new in *. simpl in *.
  unfold mbind at 1, M_bind at 1. rewrite Hrun.
  intros Hf. apply Hrest in Hf.
  eapply wired_ext; [symmetry; exact Hf|].
  by eapply wire_new_wired.
Qed.

Lemma constructed_wired s : constructed s -> wired s.
Proof.
  induction 1 as [|s A _ IH|s pred s' _ IH Hp Hf|s junk w b s' _ IH Hf
                 |s junk pred w b s' _ IH Hp Hf|s junk pred s' _ IH Hp Hf
                 |s junk pred s' _ IH Hp Hf].
  - apply wired_empty.
  - by eapply wired_ext; [|exact IH].
  - destruct (new_init_returns CLayer pred s Hp) as (s1 & Hrun & E).
    rewrite Hrun in Hf. simplify_eq/=. by eapply wire_new_wired.
  - unfold Input.__init__ in Hf.
    eapply (constructor_wired CInput None _ s s' IH); [..|exact Hf]; try done.
    intros self. cbv beta. kw.
  - unfold Hidden.__init__ in Hf.
    eapply (constructor_wired CHidden pred _ s s' IH); [..|exact Hf]; try done.
    intros self. cbv beta. kw.
  - unfold Softmax.__init__ in Hf.
    eapply (constructor_wired CSoftmax pred _ s s' IH); [..|exact Hf]; try done.
    intros self. cbv beta. kw.
  - unfold CrossEntropy.__init__ in Hf.
    eapply (constructor_wired CCrossEntropy pred _ s s' IH); [..|exact Hf]; try done.
    intros self. cbv beta. kw.
Qed.

(** * The first loop of [topological_sort] *)

Lemma g_lookup_Some (G : gmap nat (gset nat * gset nat)) k i o :
  G !! k = Some (i, o) -> k ∈ dom G /\ g_in G k = i /\ g_out G k = o.
Proof.
  intros H. unfold g_in, g_out. rewrite H. split; [|done].
  apply elem_of_dom. eauto.
Qed.

Lemma g_lookup_None (G : gmap nat (gset nat * gset nat)) k :
  G !! k = None -> (k ∉ dom G) /\ g_in G k = ∅ /\ g_out G k = ∅.
Proof.
  intros H. unfold g_in, g_out. rewrite H. split; [|done].
  by apply not_elem_of_dom.
Qed.

Lemma g_lookup_dom (G : gmap nat (gset nat * gset nat)) k :
  k ∈ dom G -> G !! k = Some (g_in G k, g_out G k).
Proof.
  intros [[i o] H]%elem_of_dom. unfold g_in, g_out. by rewrite H.
Qed.

Lemma g_insert (G : gmap nat (gset nat * gset nat)) n i o :
  dom (<[n := (i, o)]> G) = dom G ∪ {[n]} /\
  (forall k, g_in (<[n := (i, o)]> G) k = if decide (k = n) then i else g_in G k) /\
  (forall k, g_out (<[n := (i, o)]> G) k = if decide (k = n) then o else g_out G k).
Proof.
  split_and!.
  - rewrite dom_insert_L. set_solver.
  - intros k. unfold g_in. case_decide; simplify_map_eq; done.
  - intros k. unfold g_out. case_decide; simplify_map_eq; done.
Qed.

Lemma ensure_spec n (G : gmap nat (gset nat * gset nat)) :
  dom (ensure n G) = dom G ∪ {[n]} /\
  (forall k, g_in (ensure n G) k = g_in G k) /\
  (forall k, g_out (ensure n G) k = g_out G k).
Proof.
  unfold ensure. destruct (G !! n) as [[i o]|] eqn:Hn.
  - apply g_lookup_Some in Hn as (Hd & _). split; [set_solver + Hd|done].
  - apply g_lookup_None in Hn as (Hd & Hi & Ho).
    destruct (g_insert G n ∅ ∅) as (-> & Hi' & Ho'). split_and!; [done|..].
    + intros k. rewrite Hi'. case_decide; by subst.
    + intros k. rewrite Ho'. case_decide; by subst.
Qed.

(** One turn of the inner loop: the edge from [n] to [m] is recorded. *)
Lemma link_spec n m (G : gmap nat (gset nat * gset nat)) (q : list nat) s :
  n ∈ dom G ->
  exists G',
    (lift (add_out n m (ensure m G)) ≫= fun G0 =>
     lift (add_in m n G0) ≫= fun G1 => mret (G1, q ++ [m])) s
      = Returns (G', q ++ [m]) s /\
    dom G' = dom G ∪ {[m]} /\
    (forall k, g_out G' k = g_out G k ∪ (if decide (k = n) then {[m]} else ∅)) /\
    (forall k, g_in G' k = g_in G k ∪ (if decide (k = m) then {[n]} else ∅)).
Proof.
  intros Hn.
  destruct (ensure_spec m G) as (Hd & Hi & Ho).
  set (G1 := ensure m G) in *.
  assert (n ∈ dom G1) as Hn1 by set_solver + Hn Hd.
  assert (m ∈ dom G1) as Hm1 by set_solver + Hd.
  unfold add_out. rewrite (g_lookup_dom _ _ Hn1).
  set (G2 := <[n := _]> G1).
  destruct (g_insert G1 n (g_in G1 n) (g_out G1 n ∪ {[m]})) as (Hd2 & Hi2 & Ho2).
  fold G2 in Hd2, Hi2, Ho2.
  assert (m ∈ dom G2) as Hm2 by set_solver + Hm1 Hd2.
  rewrite bind_lift_ok.
  unfold add_in. rewrite (g_lookup_dom _ _ Hm2). rewrite bind_lift_ok.
  set (G3 := <[m := _]> G2).
  destruct (g_insert G2 m (g_in G2 m ∪ {[n]}) (g_out G2 m)) as (Hd3 & Hi3 & Ho3).
  fold G3 in Hd3, Hi3, Ho3.
  exists G3. split; [done|]. split_and!.
  - rewrite Hd3, Hd2, Hd. set_solver + Hn.
  - intros k. rewrite Ho3, !Ho2, <- !Ho. clear.
    repeat case_decide; subst; set_solver.
  - intros k. rewrite Hi3, !Hi2, <- !Hi. clear.
    repeat case_decide; subst; set_solver.
Qed.

(** The inner loop over the successors [ms] of [n]. *)
Lemma link_all_spec n ms (G : gmap nat (gset nat * gset nat)) (q : list nat) s :
  n ∈ dom G ->
  exists G',
    for_fold ms (G, q)
      (fun '(G, layers) m =>
         let G := ensure m G in
         G ← lift (add_out n m G);
         G ← lift (add_in m n G);
         mret (G, layers ++ [m])) s
      = Returns (G', q ++ ms) s /\
    dom G' = dom G ∪ list_to_set ms /\
    (forall k, g_out G' k = g_out G k ∪ (if decide (k = n) then list_to_set ms else ∅)) /\
    (forall k, g_in G' k = g_in G k ∪ (if decide (k ∈ ms) then {[n]} else ∅)).
Proof.
  revert G q. induction ms as [|m ms IH]; intros G q Hn; cbn [for_fold].
  - exists G. rewrite app_nil_r. split; [done|]. clear. split_and!.
    + set_solver.
    + intros k. case_decide; set_solver.
    + intros k. case_decide as Hk; [by apply elem_of_nil in Hk|set_solver].
  - destruct (link_spec n m G q s Hn) as (G1 & Hrun & Hd & Ho & Hi).
    erewrite bind_returns by exact Hrun. cbv beta.
    destruct (IH G1 (q ++ [m])) as (G' & Hrun' & Hd' & Ho' & Hi');
      [set_solver + Hn Hd|].
    exists G'. split; [rewrite <- app_assoc in Hrun'; exact Hrun'|]. split_and!.
    + rewrite Hd', Hd. clear. set_solver.
    + intros k. rewrite Ho', Ho. clear. case_decide; set_solver.
    + intros k. rewrite Hi', Hi. clear.
      repeat case_decide; set_solver.
Qed.

(** One turn of the outer loop. *)
Lemma expand_spec s n (q : list nat) (G : gmap nat (gset nat * gset nat)) :
  n < length (layers s) ->
  exists G',
    (forall fuel, build_graph (S fuel) (n :: q) G s
                  = build_graph fuel (q ++ succs s n) G' s) /\
    dom G' = dom G ∪ {[n]} ∪ list_to_set (succs s n) /\
    (forall k, g_out G' k =
       g_out G k ∪ (if decide (k = n) then list_to_set (succs s n) else ∅)) /\
    (forall k, g_in G' k =
       g_in G k ∪ (if decide (k ∈ succs s n) then {[n]} else ∅)).
Proof.
  intros Hn. destruct (lookup_lt_is_Some_2 _ _ Hn) as [l Hl].
  destruct (ensure_spec n G) as (Hd & Hi & Ho).
  destruct (link_all_spec n (outbound_layers l) (ensure n G) q s)
    as (G' & Hrun & Hd' & Ho' & Hi'); [set_solver + Hd|].
  unfold succs. rewrite Hl.
  exists G'. split; [|split_and!].
  - intros fuel. simpl.
    rewrite (bind_returns _ _ _ _ _ (get_layer_returns _ _ _ Hl)).
    by rewrite (bind_returns _ _ _ _ _ Hrun).
  - rewrite Hd', Hd. done.
  - intros k. by rewrite Ho', Ho.
  - intros k. by rewrite Hi', Hi.
Qed.

Lemma edge_succs s n m : edge s n m <-> m ∈ succs s n.
Proof.
  unfold edge, succs. split.
  - intros (l & -> & H). done.
  - destruct (layers s !! n) as [l|]; [eauto|]. by intros ?%elem_of_nil.
Qed.

Lemma bounded_nodup_length (l : list nat) N :
  NoDup l -> (forall x, x ∈ l -> x < N) -> length l <= N.
Proof.
  intros Hnd Hb.
  assert (l ⊆+ seq 0 N) as Hsub.
  { apply NoDup_submseteq; [done|]. intros x Hx. apply elem_of_seq.
    specialize (Hb x Hx). lia. }
  apply submseteq_length in Hsub. by rewrite length_seq in Hsub.
Qed.

Lemma sum_list_with_bound (f : nat -> nat) (l : list nat) b :
  (forall x, x ∈ l -> f x <= b) -> sum_list_with f l <= length l * b.
Proof.
  induction l as [|x l IH]; intros Hb; simpl; [lia|].
  assert (f x <= b) by (apply Hb; left).
  assert (sum_list_with f l <= length l * b) by (apply IH; intros; apply Hb; by right).
  lia.
Qed.

Lemma weight_app N q1 q2 : weight N (q1 ++ q2) = weight N q1 + weight N q2.
Proof. unfold weight. apply sum_list_with_app. Qed.

Lemma weight_succs s n :
  wired s -> n < length (layers s) ->
  weight (length (layers s)) (succs s n)
    < S (length (layers s)) ^ (length (layers s) - n).
Proof.
  intros Hw Hn. set (N := length (layers s)) in *.
  assert (forall m, m ∈ succs s n -> n < m < N) as Hb.
  { intros m Hm%edge_succs. split; [by eapply wired_edge_lt|by eapply wired_allocated]. }
  assert (length (succs s n) <= N) as Hlen.
  { apply bounded_nodup_length; [|intros x Hx; apply Hb in Hx; lia].
    unfold succs. destruct (layers s !! n) as [l|] eqn:Hl; [|constructor].
    by eapply wired_nodup. }
  assert (weight N (succs s n) <= length (succs s n) * S N ^ (N - n - 1)) as Hle.
  { apply sum_list_with_bound. intros m Hm%Hb.
    apply Nat.pow_le_mono_r; lia. }
  replace (N - n) with (S (N - n - 1)) by lia.
  rewrite Nat.pow_succ_r'.
  assert (0 < S N ^ (N - n - 1)) by (apply Nat.neq_0_lt_0, Nat.pow_nonzero; lia).
  nia.
Qed.

Lemma reachable_allocated s entries n :
  wired s -> (forall e, e ∈ entries -> class_of s e CInput) ->
  reachable s entries n -> n < length (layers s).
Proof.
  intros Hw He. induction 1 as [n Hn|n m _ _ Hnm].
  - destruct (He n Hn) as (l & Hl & _). by apply lookup_lt_Some in Hl.
  - by eapply wired_allocated.
Qed.

Lemma bfs_inv_step s entries n q G G' :
  bfs_inv s entries (n :: q) G ->
  dom G' = dom G ∪ {[n]} ∪ list_to_set (succs s n) ->
  (forall k, g_out G' k =
     g_out G k ∪ (if decide (k = n) then list_to_set (succs s n) else ∅)) ->
  (forall k, g_in G' k =
     g_in G k ∪ (if decide (k ∈ succs s n) then {[n]} else ∅)) ->
  bfs_inv s entries (q ++ succs s n) G'.
Proof.
  intros [I1 I2 I3 I4 I5 I6] Hd Ho Hi.
  assert (reachable s entries n) as Hrn by (apply I1; left).
  assert (forall k, expanded s G k -> expanded s G' k) as Hmono.
  { intros k Hk m Hm. destruct (Hk m Hm) as (? & ? & ?).
    rewrite Hd, Ho, Hi. set_solver. }
  split.
  - intros k [Hk|Hk]%elem_of_app; [apply I1; by right|].
    apply edge_succs in Hk. by econstructor.
  - intros k. rewrite Hd, !elem_of_union, elem_of_singleton, elem_of_list_to_set.
    intros [[Hk| ->]|Hk]; [by apply I2|done|].
    apply edge_succs in Hk. by econstructor.
  - intros k m. rewrite Ho, elem_of_union. intros [?|Hm]; [by apply I3|].
    case_decide; [|by apply elem_of_empty in Hm]. subst.
    apply edge_succs. by apply elem_of_list_to_set in Hm.
  - intros k p. rewrite Hi, elem_of_union. intros [?|Hp]; [by apply I4|].
    case_decide; [|by apply elem_of_empty in Hp].
    apply elem_of_singleton in Hp as ->. by apply edge_succs.
  - intros k Hk. destruct (decide (k = n)) as [->|Hkn].
    { right. split; [rewrite Hd; set_solver +|].
      intros m Hm. apply edge_succs in Hm.
      rewrite Hd, Ho, Hi, decide_True by done. rewrite decide_True by done.
      set_solver + Hm. }
    destruct (decide (k ∈ succs s n)) as [Hks|Hks].
    { left. apply elem_of_app. by right. }
    assert (k ∈ entries \/ k ∈ dom G) as Hk'.
    { destruct Hk as [?|Hk]; [by left|right]. rewrite Hd in Hk. set_solver + Hk Hkn Hks. }
    destruct (I5 k Hk') as [Hq|[Hdk Hek]].
    + left. apply elem_of_app. left.
      apply elem_of_cons in Hq as [?|?]; done.
    + right. split; [rewrite Hd; set_solver + Hdk | by apply Hmono].
  - intros k Hk. destruct (decide (k ∈ succs s n)) as [Hks|Hks].
    { right. exists n. rewrite Hi, decide_True by done. set_solver +. }
    assert (k ∈ n :: q \/ k ∈ dom G) as Hk'.
    { destruct Hk as [[?|?]%elem_of_app|Hk]; [left; by right|done|].
      rewrite Hd in Hk.
      apply elem_of_union in Hk as [[?| ->%elem_of_singleton]%elem_of_union|Hk];
        [by right|left; by left|].
      by apply elem_of_list_to_set in Hk. }
    destruct (I6 k Hk') as [?|[p Hp]]; [by left|right].
    exists p. rewrite Hi. set_solver + Hp.
Qed.

Section first_loop.
Context (s : state) (entries : list nat).
Hypothesis Hw : wired s.
Hypothesis Hentries : forall e, e ∈ entries -> class_of s e CInput.

Lemma bfs_inv_init : bfs_inv s entries entries ∅.
Proof.
  split.
  - by constructor.
  - intros n. rewrite dom_empty_L. by intros ?%elem_of_empty.
  - intros n m. unfold g_out. rewrite lookup_empty. by intros ?%elem_of_empty.
  - intros n m. unfold g_in. rewrite lookup_empty. by intros ?%elem_of_empty.
  - intros n [?|H]; [by left|]. rewrite dom_empty_L in H. by apply elem_of_empty in H.
  - intros n [?|H]; [by left|]. rewrite dom_empty_L in H. by apply elem_of_empty in H.
Qed.

Lemma build_graph_terminates fuel q G :
  bfs_inv s entries q G ->
  weight (length (layers s)) q <= fuel ->
  exists G', build_graph fuel q G s = Returns G' s /\ bfs_inv s entries [] G'.
Proof.
  revert q G. induction fuel as [|fuel IH]; intros [|n q] G Hinv Hfuel.
  - by exists G.
  - exfalso. unfold weight in Hfuel. simpl in Hfuel.
    pose proof (Nat.pow_nonzero (S (length (layers s))) (length (layers s) - n)). lia.
  - by exists G.
  - assert (n < length (layers s)) as Hn.
    { eapply reachable_allocated; [done..|]. apply (bfs_queue _ _ _ _ Hinv). left. }
    destruct (expand_spec s n q G Hn) as (G' & Hrun & Hd & Ho & Hi).
    rewrite Hrun. apply IH.
    + by eapply bfs_inv_step.
    + rewrite weight_app. pose proof (weight_succs s n Hw Hn).
      unfold weight in *. simpl in Hfuel. lia.
Qed.

Lemma bfs_inv_final G : bfs_inv s entries [] G -> graph_built s entries G.
Proof.
  intros [I1 I2 I3 I4 I5 I6].
  assert (forall n, n ∈ dom G -> expanded s G n) as Hexp.
  { intros n Hn. destruct (I5 n (or_intror Hn)) as [?%elem_of_nil|[_ ?]]; done. }
  assert (forall n, reachable s entries n -> n ∈ dom G) as Hdom.
  { induction 1 as [n Hn|n m _ IHn Hnm].
    - destruct (I5 n (or_introl Hn)) as [?%elem_of_nil|[? _]]; done.
    - by destruct (Hexp n IHn m Hnm). }
  assert (forall n, g_in G n ≠ ∅ -> n ∈ dom G) as Hin_dom.
  { intros n Hn. apply elem_of_dom. unfold g_in in Hn.
    destruct (G !! n); [eauto|done]. }
  assert (forall n, g_out G n ≠ ∅ -> n ∈ dom G) as Hout_dom.
  { intros n Hn. apply elem_of_dom. unfold g_out in Hn.
    destruct (G !! n); [eauto|done]. }
  split.
  - intros n. split; [apply I2|apply Hdom].
  - intros n m. split.
    + intros Hm. split; [|by apply I3]. apply I2, Hout_dom. set_solver + Hm.
    + intros [Hn Hnm]. by destruct (Hexp n (Hdom n Hn) m Hnm) as (_ & ? & _).
  - intros n p. split.
    + intros Hp. split; [apply I2, Hin_dom; set_solver + Hp|].
      by apply (wired_succ _ Hw), I4.
    + intros [Hn Hnp].
      destruct (I6 n (or_intror (Hdom n Hn))) as [He|[p' Hp']].
      * exfalso. by eapply (wired_input _ Hw), Hnp; apply Hentries.
      * assert (pred_of s n p') by (by apply (wired_succ _ Hw), I4).
        by rewrite (wired_pred_unique _ _ _ _ Hnp H).
Qed.

(** The first loop ends and builds the graph of the reachable nodes. *)
Lemma build_graph_spec fuel :
  weight (length (layers s)) entries <= fuel ->
  exists G, build_graph fuel entries ∅ s = Returns G s /\ graph_built s entries G.
Proof.
  intros Hfuel.
  destruct (build_graph_terminates fuel entries ∅ bfs_inv_init Hfuel) as (G & Hrun & Hinv).
  exists G. split; [done|]. by apply bfs_inv_final.
Qed.
End first_loop.

(** * The second loop of [topological_sort] *)

Lemma pop_spec choose k (S : gset nat) :
  S ≠ ∅ -> exists n, pop choose k S = Ok (n, S ∖ {[n]}) /\ n ∈ S.
Proof.
  intros HS. unfold pop.
  assert (length (elements S) ≠ 0) as Hlen.
  { intros H. apply HS. apply leibniz_equiv, elements_empty_inv.
    by apply nil_length_inv. }
  destruct (lookup_lt_is_Some_2 (elements S)
              (choose k `mod` length (elements S))) as [n Hn].
  { by apply Nat.mod_upper_bound. }
  rewrite Hn. exists n. split; [done|].
  apply elem_of_elements. by eapply list_elem_of_lookup_2.
Qed.

Lemma dict_get_key (feed_dict : list (nat * pyval)) n :
  n ∈ feed_dict.*1 -> exists v, dict_get feed_dict n = Ok v.
Proof.
  intros Hn. unfold dict_get.
  apply list_elem_of_fmap in Hn as ([k v] & Hk & Hkv). simpl in Hk. subst n.
  destruct (list_find (fun kv : nat * pyval => kv.1 = k) feed_dict)
    as [[i [k' v']]|] eqn:Hf; [by eexists|].
  exfalso. eapply list_find_None in Hf.
  rewrite Forall_forall in Hf. by apply (Hf _ Hkv).
Qed.

Lemma wiring_layer st s n l :
  wiring st = wiring s -> layers s !! n = Some l ->
  exists l', layers st !! n = Some l' /\ skeleton l' = skeleton l.
Proof.
  intros E Hl. assert (wiring st !! n = Some (skeleton l)) as H.
  { by rewrite E, wiring_lookup, Hl. }
  rewrite wiring_lookup in H. destruct (layers st !! n) as [l'|]; [|done].
  exists l'. split; [done|]. simpl in H. congruence.
Qed.

Lemma setattr_returns n name v st l :
  layers st !! n = Some l ->
  exists st', setattr n name v st = Returns tt st' /\ wiring st' = wiring st.
Proof.
  intros Hl. unfold setattr, upd_layer. rewrite Hl. eexists. split; [done|].
  apply (kw_setattr n name v st). unfold setattr, upd_layer. by rewrite Hl.
Qed.

(** The injection of the batch and of the labels into the node [n], before
    the rest [K] of the turn. *)
Lemma inject_returns (feed_dict : list (nat * pyval)) (y : pyval) n l st :
  layers st !! n = Some l ->
  (cls l = CInput -> n ∈ feed_dict.*1) ->
  exists st',
    wiring st' = wiring st /\
    forall B (K : M B),
      ((if decide (cls l = CInput)
        then v ← lift (dict_get feed_dict n); Input._set n v
        else mret tt) ≫= fun _ =>
       (if decide (cls l = CCrossEntropy)
        then _ ← setattr n "ideal_output" y; setattr n "n_inputs" (VInt 1)
        else mret tt) ≫= fun _ => K) st = K st'.
Proof.
  intros Hl Hfeed.
  assert (exists st1,
    (if decide (cls l = CInput)
     then v ← lift (dict_get feed_dict n); Input._set n v
     else mret tt) st = Returns tt st1 /\ wiring st1 = wiring st) as (st1 & H1 & E1).
  { case_decide as Hc; [|exists st; split; reflexivity].
    destruct (dict_get_key feed_dict n (Hfeed Hc)) as [v ->].
    rewrite bind_lift_ok. by apply (setattr_returns n "X" v st l). }
  destruct (decide (cls l = CCrossEntropy)) as [Hc|Hc].
  - destruct (wiring_layer st1 st n l E1 Hl) as (l1 & Hl1 & _).
    destruct (setattr_returns n "ideal_output" y st1 l1 Hl1) as (st2 & H2 & E2).
    destruct (wiring_layer st2 st1 n l1 E2 Hl1) as (l2 & Hl2 & _).
    destruct (setattr_returns n "n_inputs" (VInt 1) st2 l2 Hl2) as (st3 & H3 & E3).
    exists st3. split; [congruence|]. intros B K.
    rewrite (bind_returns _ _ _ _ _ H1).
    assert ((setattr n "ideal_output" y ≫= fun _ => setattr n "n_inputs" (VInt 1)) st1
            = Returns tt st3) as H23.
    { by rewrite (bind_returns _ _ _ _ _ H2). }
    by rewrite (bind_returns _ _ _ _ _ H23).
  - exists st1. split; [done|]. intros B K.
    by rewrite (bind_returns _ _ _ _ _ H1).
Qed.

(** One turn of the inner loop: the edge from [n] to [m] is removed, and [m]
    becomes ready when it was its last incoming edge. *)
Lemma unlink_spec n m (G : gmap nat (gset nat * gset nat)) (S : gset nat) st :
  n ∈ dom G -> m ∈ dom G -> m ∈ g_out G n -> n ∈ g_in G m ->
  exists G',
    (lift (remove_out n m G) ≫= fun G0 =>
     lift (remove_in m n G0) ≫= fun G1 =>
     lift (in_of m G1) ≫= fun i =>
     if decide (size i = 0) then mret (S ∪ {[m]}, G1) else mret (S, G1)) st
      = Returns (if decide (g_in G m ∖ {[n]} = ∅) then S ∪ {[m]} else S, G') st /\
    dom G' = dom G /\
    (forall k, g_out G' k = g_out G k ∖ (if decide (k = n) then {[m]} else ∅)) /\
    (forall k, g_in G' k = g_in G k ∖ (if decide (k = m) then {[n]} else ∅)).
Proof.
  intros Hn Hm Hout Hin.
  unfold remove_out. rewrite (g_lookup_dom _ _ Hn), decide_True by done.
  set (G2 := <[n := _]> G).
  destruct (g_insert G n (g_in G n) (g_out G n ∖ {[m]})) as (Hd2 & Hi2 & Ho2).
  fold G2 in Hd2, Hi2, Ho2.
  assert (m ∈ dom G2) as Hm2 by set_solver + Hm Hd2.
  assert (g_in G2 m = g_in G m) as Hi2m.
  { rewrite Hi2. by case_decide; subst. }
  rewrite bind_lift_ok.
  unfold remove_in. rewrite (g_lookup_dom _ _ Hm2), decide_True by (by rewrite Hi2m).
  set (G3 := <[m := _]> G2).
  destruct (g_insert G2 m (g_in G2 m ∖ {[n]}) (g_out G2 m)) as (Hd3 & Hi3 & Ho3).
  fold G3 in Hd3, Hi3, Ho3.
  assert (m ∈ dom G3) as Hm3 by set_solver + Hd3.
  rewrite bind_lift_ok.
  unfold in_of. rewrite (g_lookup_dom _ _ Hm3).
  rewrite bind_lift_ok.
  exists G3. split; [|split_and!].
  - rewrite Hi3, (decide_True (P := m = m)), Hi2m by done.
    destruct (decide (size (g_in G m ∖ {[n]}) = 0)) as [Hs|Hs].
    + apply size_empty_inv in Hs. apply leibniz_equiv in Hs.
      by rewrite decide_True.
    + rewrite decide_False; [done|]. intros E. apply Hs. by rewrite E, size_empty.
  - rewrite Hd3, Hd2. set_solver + Hn Hm.
  - intros k. rewrite Ho3, !Ho2. clear. repeat case_decide; subst; set_solver.
  - intros k. rewrite Hi3, !Hi2. clear. repeat case_decide; subst; set_solver.
Qed.

(** The inner loop over the successors [ms] of [n], each held in [G] with
    [n] as its only incoming edge. *)
Lemma unlink_all_spec n ms (G : gmap nat (gset nat * gset nat)) (S : gset nat) st :
  NoDup ms -> n ∈ dom G ->
  (forall m, m ∈ ms -> m ∈ dom G /\ m ∈ g_out G n /\ g_in G m = {[n]}) ->
  exists G',
    for_fold ms (S, G)
      (fun '(S, G) m =>
         G ← lift (remove_out n m G);
         G ← lift (remove_in m n G);
         i ← lift (in_of m G);
         if decide (size i = 0) then mret (S ∪ {[m]}, G) else mret (S, G)) st
      = Returns (S ∪ list_to_set ms, G') st /\
    dom G' = dom G /\
    (forall k, g_out G' k = g_out G k ∖ (if decide (k = n) then list_to_set ms else ∅)) /\
    (forall k, g_in G' k = if decide (k ∈ ms) then ∅ else g_in G k).
Proof.
  revert G S. induction ms as [|m ms IH]; intros G S Hnd Hn Hms; cbn [for_fold].
  - exists G. split; [|split_and!].
    + f_equal. f_equal. clear. set_solver.
    + done.
    + intros k. clear. case_decide; set_solver.
    + intros k. case_decide as Hk; [by apply elem_of_nil in Hk|done].
  - apply NoDup_cons in Hnd as [Hm Hnd].
    destruct (Hms m) as (Hmd & Hmo & Hmi); [by left|].
    destruct (unlink_spec n m G S st Hn Hmd Hmo) as (G1 & Hrun & Hd & Ho & Hi).
    { rewrite Hmi. clear. set_solver. }
    rewrite decide_True in Hrun by (rewrite Hmi; clear; set_solver).
    erewrite bind_returns by exact Hrun. cbv beta.
    destruct (IH G1 (S ∪ {[m]}) Hnd) as (G' & Hrun' & Hd' & Ho' & Hi').
    { by rewrite Hd. }
    { intros m' Hm'. destruct (Hms m') as (? & ? & ?); [by right|].
      assert (m' ≠ m) by (by intros ->).
      rewrite Hd, Ho, Hi, decide_True, decide_False by done.
      split_and!; [done|set_solver|set_solver]. }
    exists G'. split; [|split_and!].
    + etrans; [exact Hrun'|]. f_equal. f_equal. clear. set_solver.
    + by rewrite Hd', Hd.
    + intros k. rewrite Ho', Ho. clear. case_decide; set_solver.
    + intros k. rewrite Hi', Hi. destruct (decide (k = m)) as [->|Hk].
      * rewrite (decide_True (P := m ∈ m :: ms)) by (by left).
        rewrite Hmi. clear. case_decide; set_solver.
      * assert (k ∈ m :: ms <-> k ∈ ms) as Hiff by (clear -Hk; set_solver).
        clear -Hiff. repeat case_decide; try tauto; set_solver.
Qed.

Lemma precedes_app L p m x : precedes L p m -> precedes (L ++ [x]) p m.
Proof.
  intros (i & j & Hi & Hj & Hij). exists i, j.
  split_and!; [by apply lookup_app_l_Some..|done].
Qed.

Lemma precedes_last (L : list nat) p n : p ∈ L -> precedes (L ++ [n]) p n.
Proof.
  intros (i & Hi)%list_elem_of_lookup. exists i, (length L). split_and!.
  - by apply lookup_app_l_Some.
  - by rewrite lookup_app_r, Nat.sub_diag.
  - by apply lookup_lt_Some in Hi.
Qed.

Lemma precedes_elem (L : list nat) p m : precedes L p m -> p ∈ L.
Proof. intros (i & j & Hi & _). by eapply list_elem_of_lookup_2. Qed.

Section second_loop.
Context (s : state) (entries : list nat).
Hypothesis Hw : wired s.
Hypothesis Hentries : forall e, e ∈ entries -> class_of s e CInput.

Lemma reachable_input_entry n :
  reachable s entries n -> class_of s n CInput -> n ∈ entries.
Proof.
  intros [n' Hn|p m _ Hpm] Hc; [done|]. exfalso.
  eapply (wired_input _ Hw); [exact Hc|]. by apply (wired_succ _ Hw).
Qed.

Lemma ord_inv_init G :
  NoDup entries -> graph_built s entries G ->
  ord_inv s entries (list_to_set entries) [] G.
Proof.
  intros Hnd [B1 B2 B3]. split.
  - constructor.
  - intros n _ ?%elem_of_nil. done.
  - intros n [Hn%elem_of_list_to_set|?%elem_of_nil]; [by constructor|done].
  - intros e He. right. by apply elem_of_list_to_set.
  - intros n m ?%elem_of_nil. done.
  - intros m p Hm%elem_of_list_to_set Hp. exfalso.
    eapply (wired_input _ Hw); [by apply Hentries|exact Hp].
  - intros m p ?%elem_of_nil. done.
  - intros n Hn _. split_and!.
    + by apply B1.
    + apply set_eq. intros m. rewrite B2, elem_of_list_to_set, <- edge_succs. tauto.
    + intros p. rewrite B3. split; [intros [_ ?]; split; [done|]|tauto].
      by intros ?%elem_of_nil.
  - intros m Hm _ Hm'. destruct Hm as [m Hm|p m _ Hpm].
    + exfalso. apply Hm'. by apply elem_of_list_to_set.
    + exists p. split; [by apply (wired_succ _ Hw)|]. by intros ?%elem_of_nil.
Qed.

(** A ready node [n] can be unlinked from each of its successors. *)
Lemma ord_inv_unlinkable S L G n :
  ord_inv s entries S L G -> n ∈ S ->
  n ∈ dom G /\
  forall m, m ∈ succs s n -> m ∈ dom G /\ m ∈ g_out G n /\ g_in G m = {[n]}.
Proof.
  intros [J1 J1b J2 J3 J4 J5a J5b J6 J7] Hn.
  assert (reachable s entries n) as Hrn by (apply J2; by left).
  assert (n ∉ L) as HnL by (by apply J1b).
  destruct (J6 n Hrn HnL) as (Hnd & Hno & Hni).
  split; [done|]. intros m Hm.
  assert (edge s n m) as Hnm by (by apply edge_succs).
  assert (reachable s entries m) as Hrm by (by econstructor).
  assert (pred_of s m n) as Hpm by (by apply (wired_succ _ Hw)).
  assert (m ∉ L) as HmL.
  { intros HmL. apply HnL. eapply precedes_elem. by apply J5b. }
  destruct (J6 m Hrm HmL) as (Hmd & Hmo & Hmi).
  split_and!; [done|rewrite Hno; by apply elem_of_list_to_set|].
  apply set_eq. intros p. rewrite Hmi, elem_of_singleton. split.
  - intros [Hp _]. by eapply wired_pred_unique.
  - by intros ->.
Qed.

Lemma ord_inv_step S L G G' n :
  ord_inv s entries S L G -> n ∈ S ->
  dom G' = dom G ->
  (forall k, g_out G' k =
     g_out G k ∖ (if decide (k = n) then list_to_set (succs s n) else ∅)) ->
  (forall k, g_in G' k = if decide (k ∈ succs s n) then ∅ else g_in G k) ->
  ord_inv s entries (S ∖ {[n]} ∪ list_to_set (succs s n)) (L ++ [n]) G'.
Proof.
  intros [J1 J1b J2 J3 J4 J5a J5b J6 J7] Hn Hd Ho Hi.
  assert (reachable s entries n) as Hrn by (apply J2; by left).
  assert (n ∉ L) as HnL by (by apply J1b).
  assert (forall m, m ∈ succs s n -> m ∉ L /\ m ≠ n /\ pred_of s m n) as Hsucc.
  { intros m Hm%edge_succs.
    assert (pred_of s m n) as Hpm by (by apply (wired_succ _ Hw)).
    split_and!; [|by apply (wired_edge_lt _ _ _ Hw), Nat.lt_neq in Hm|done].
    intros HmL. apply HnL. eapply precedes_elem. by apply J5b. }
  split.
  - apply NoDup_app. split_and!; [done| |apply NoDup_singleton].
    intros x Hx ->%list_elem_of_singleton. done.
  - intros k [[Hk Hkn]%elem_of_difference|Hk%elem_of_list_to_set]%elem_of_union.
    + intros [?| ->%list_elem_of_singleton]%elem_of_app; [by eapply J1b|].
      apply Hkn. by apply elem_of_singleton.
    + destruct (Hsucc k Hk) as (? & ? & _).
      intros [?| ->%list_elem_of_singleton]%elem_of_app; done.
  - intros k [[[Hk _]%elem_of_difference|Hk%elem_of_list_to_set]%elem_of_union|Hk].
    + apply J2. by left.
    + econstructor; [exact Hrn|by apply edge_succs].
    + apply elem_of_app in Hk as [?| ->%list_elem_of_singleton]; [|done].
      apply J2. by right.
  - intros e He. destruct (J3 e He) as [?|HeS].
    + left. apply elem_of_app. by left.
    + destruct (decide (e = n)) as [->|Hen].
      * left. apply elem_of_app. right. by apply list_elem_of_singleton.
      * right. apply elem_of_union. left. apply elem_of_difference.
        split; [done|]. by intros ?%elem_of_singleton.
  - intros k m [Hk| ->%list_elem_of_singleton]%elem_of_app Hkm.
    + destruct (J4 k m Hk Hkm) as [?|HmS].
      * left. apply elem_of_app. by left.
      * destruct (decide (m = n)) as [->|Hmn].
        -- left. apply elem_of_app. right. by apply list_elem_of_singleton.
        -- right. apply elem_of_union. left. apply elem_of_difference.
           split; [done|]. by intros ?%elem_of_singleton.
    + right. apply elem_of_union. right. by apply elem_of_list_to_set, edge_succs.
  - intros m p [[Hm _]%elem_of_difference|Hm%elem_of_list_to_set]%elem_of_union Hp.
    + apply elem_of_app. left. by eapply J5a.
    + destruct (Hsucc m Hm) as (_ & _ & Hp').
      rewrite (wired_pred_unique _ _ _ _ Hp Hp').
      apply elem_of_app. right. by apply list_elem_of_singleton.
  - intros m p [Hm| ->%list_elem_of_singleton]%elem_of_app Hp.
    + apply precedes_app. by apply J5b.
    + apply precedes_last. by eapply J5a.
  - intros k Hk HkL.
    assert (k ∉ L /\ k ≠ n) as [HkL' Hkn].
    { split; intros ?; apply HkL, elem_of_app; [by left|right].
      by apply list_elem_of_singleton. }
    destruct (J6 k Hk HkL') as (Hkd & Hko & Hki).
    split_and!.
    + by rewrite Hd.
    + rewrite Ho, decide_False, Hko by done. clear. set_solver.
    + intros p. rewrite Hi. case_decide as Hks.
      * destruct (Hsucc k Hks) as (_ & _ & Hp'). split; [by intros ?%elem_of_empty|].
        intros [Hp HpL]. exfalso. apply HpL.
        rewrite (wired_pred_unique _ _ _ _ Hp Hp').
        apply elem_of_app. right. by apply list_elem_of_singleton.
      * rewrite Hki. split; intros [Hp HpL]; (split; [done|]).
        -- intros [?| ->%list_elem_of_singleton]%elem_of_app; [done|].
           apply Hks, edge_succs. by apply (wired_pred _ Hw).
        -- intros ?. apply HpL, elem_of_app. by left.
  - intros m Hm HmL HmS.
    assert (m ∉ L /\ m ≠ n) as [HmL' Hmn].
    { split; intros ?; apply HmL, elem_of_app; [by left|right].
      by apply list_elem_of_singleton. }
    assert (m ∉ succs s n) as Hms.
    { intros ?. apply HmS, elem_of_union. right. by apply elem_of_list_to_set. }
    assert (m ∉ S) as HmS'.
    { intros ?. apply HmS, elem_of_union. left. apply elem_of_difference.
      split; [done|]. by intros ?%elem_of_singleton. }
    destruct (J7 m Hm HmL' HmS') as (p & Hp & HpL).
    exists p. split; [done|].
    intros [?| ->%list_elem_of_singleton]%elem_of_app; [done|].
    apply Hms, edge_succs. by apply (wired_pred _ Hw).
Qed.

Lemma ord_inv_final L G :
  ord_inv s entries ∅ L G -> topological s entries L.
Proof.
  intros [J1 J1b J2 J3 J4 J5a J5b J6 J7]. split_and!; [done| |done].
  intros n. split; [intros ?; apply J2; by right|].
  induction 1 as [n Hn|n m _ IHn Hnm].
  - by destruct (J3 n Hn) as [?|?%elem_of_empty].
  - by destruct (J4 n m IHn Hnm) as [?|?%elem_of_empty].
Qed.

Lemma ord_inv_room S L G n :
  ord_inv s entries S L G -> n ∈ S -> length L < length (layers s).
Proof.
  intros Hinv Hn.
  assert (NoDup (n :: L)) as Hnd.
  { constructor; [by eapply ord_fresh|by eapply ord_nodup]. }
  apply bounded_nodup_length with (N := length (layers s)) in Hnd; [simpl in Hnd; lia|].
  intros x Hx. eapply reachable_allocated; [done..|].
  eapply ord_reach; [done|].
  apply elem_of_cons in Hx as [->|?]; [by left|by right].
Qed.
End second_loop.

Section scheduler_correct.
Context (choose : nat -> nat) (s : state)
        (feed_dict : list (nat * pyval)) (ideal_output : pyval).
Hypothesis Hw : wired s.
Hypothesis Hentries : forall e, e ∈ feed_dict.*1 -> class_of s e CInput.

(** The second loop ends within one turn per layer still to order. *)
Lemma order_spec fuel st S L G :
  wiring st = wiring s ->
  ord_inv s feed_dict.*1 S L G ->
  length (layers s) - length L <= fuel ->
  exists L' st',
    order choose fuel feed_dict ideal_output S L G st = Returns L' st' /\
    wiring st' = wiring s /\
    topological s feed_dict.*1 L'.
Proof.
  revert st S L G. induction fuel as [|fuel IH]; intros st S L G E Hinv Hfuel.
  - destruct (decide (S = ∅)) as [->|HS].
    + exists L, st. split_and!; [done|done|by eapply ord_inv_final].
    + exfalso. destruct (pop_spec choose 0 S HS) as (n & _ & Hn).
      pose proof (ord_inv_room s _ Hw Hentries S L G n Hinv Hn). lia.
  - cbn [order]. destruct (decide (size S = 0)) as [HS|HS].
    { apply size_empty_inv, leibniz_equiv in HS. subst S.
      exists L, st. split_and!; [done|done|by eapply ord_inv_final]. }
    assert (S ≠ ∅) as HS' by (intros ->; by rewrite size_empty in HS).
    destruct (pop_spec choose (length L) S HS') as (n & Hpop & Hn).
    rewrite Hpop, bind_lift_ok. cbv beta iota.
    assert (reachable s feed_dict.*1 n) as Hrn.
    { eapply ord_reach; [done|by left]. }
    pose proof (reachable_allocated s _ n Hw Hentries Hrn) as Hnlt.
    destruct (lookup_lt_is_Some_2 _ _ Hnlt) as [l Hl].
    destruct (wiring_layer st s n l E Hl) as (l1 & Hl1 & Hsk1).
    rewrite (bind_returns _ _ _ _ _ (get_layer_returns _ _ _ Hl1)).
    destruct (inject_returns feed_dict ideal_output n l1 st Hl1) as (st' & E' & Hrun).
    { intros Hc. eapply reachable_input_entry; [done..|].
      exists l. split; [done|]. unfold skeleton in Hsk1. congruence. }
    rewrite Hrun. cbv zeta.
    assert (wiring st' = wiring s) as E'' by congruence.
    destruct (wiring_layer st' s n l E'' Hl) as (l2 & Hl2 & Hsk2).
    rewrite (bind_returns _ _ _ _ _ (get_layer_returns _ _ _ Hl2)).
    assert (outbound_layers l2 = succs s n) as ->.
    { unfold succs. rewrite Hl. unfold skeleton in Hsk2. congruence. }
    destruct (ord_inv_unlinkable s _ Hw S L G n Hinv Hn) as (Hnd & Hms).
    destruct (unlink_all_spec n (succs s n) G (S ∖ {[n]}) st')
      as (G' & Hfold & Hd & Ho & Hi); [|done|done|].
    { unfold succs. rewrite Hl. by eapply wired_nodup. }
    erewrite bind_returns by exact Hfold. cbv beta iota.
    apply IH; [done| |].
    + by eapply ord_inv_step.
    + rewrite length_app. simpl. lia.
Qed.

(** [topological_sort] returns, given fuel for both of its loops, and its
    result orders the reachable nodes. *)
Lemma topological_sort_spec fuel :
  NoDup feed_dict.*1 ->
  weight (length (layers s)) feed_dict.*1 <= fuel ->
  length (layers s) <= fuel ->
  exists L s',
    topological_sort choose fuel feed_dict ideal_output s = Returns L s' /\
    wiring s' = wiring s /\
    topological s feed_dict.*1 L.
Proof.
  intros Hnd Hf1 Hf2. unfold topological_sort.
  destruct (build_graph_spec s _ Hw Hentries fuel Hf1) as (G & Hrun & HG).
  rewrite (bind_returns _ _ _ _ _ Hrun).
  apply order_spec; [done| |simpl; lia].
  by apply ord_inv_init.
Qed.
End scheduler_correct.

(** * A cycle: the first loop never ends *)

Lemma reaches_cycle_step s n :
  reaches_cycle s n -> exists m, edge s n m /\ reaches_cycle s m.
Proof.
  intros (c & Hnc & Hcc). apply rtc_inv in Hnc as [->|(m & Hnm & Hmc)].
  - inversion Hcc as [? ? Hxx|? y ? Hxy Hyx]; subst.
    + exists c. split; [done|]. exists c. split; [constructor|done].
    + exists y. split; [done|]. exists c. split; [by apply tc_rtc|done].
  - exists m. split; [done|]. by exists c.
Qed.

Lemma build_graph_diverges s fuel q G :
  closed s ->
  (forall n, n ∈ q -> n < length (layers s)) ->
  (exists n, n ∈ q /\ reaches_cycle s n) ->
  build_graph fuel q G s = Diverges.
Proof.
  intros Hc. revert q G. induction fuel as [|fuel IH]; intros [|n q] G Hq (x & Hx & Hlive).
  - by apply elem_of_nil in Hx.
  - done.
  - by apply elem_of_nil in Hx.
  - assert (n < length (layers s)) as Hn by (apply Hq; left).
    destruct (expand_spec s n q G Hn) as (G' & Hrun & _). rewrite Hrun.
    apply IH.
    + intros m [Hm|Hm]%elem_of_app; [apply Hq; by right|].
      apply edge_succs in Hm. by eapply Hc.
    + apply elem_of_cons in Hx as [->|Hx].
      * destruct (reaches_cycle_step s n Hlive) as (m & Hnm & Hm).
        exists m. split; [|done]. apply elem_of_app. right. by apply edge_succs.
      * exists x. split; [|done]. apply elem_of_app. by left.
Qed.

(** * numpy arrays: shapes and elements *)

#[global] Arguments np.index : simpl never.
#[global] Arguments np.build : simpl never.
#[global] Arguments np.fits : simpl never.

Lemma build_nil f : np.build [] f = np.Leaf (f []).
Proof. reflexivity. Qed.

Lemma build_cons d sh f :
  np.build (d :: sh) f =
    np.Node (map (fun i => np.build sh (fun idx => f (i :: idx))) (seq 0 d)).
Proof. reflexivity. Qed.

Lemma fits_nil t : np.fits [] t <-> exists x, t = np.Leaf x.
Proof. reflexivity. Qed.

Lemma fits_cons d sh t :
  np.fits (d :: sh) t <->
  exists ts, t = np.Node ts /\ length ts = d /\ Forall (np.fits sh) ts.
Proof. reflexivity. Qed.

Lemma index_Leaf x idx : np.index (np.Leaf x) idx = x.
Proof. reflexivity. Qed.

Lemma index_Node ts i idx :
  np.index (np.Node ts) (i :: idx) =
    match ts !! i with
    | Some t => np.index t idx
    | None => 0%R
    end.
Proof.
  unfold np.index at 1. fold np.index.
  revert i. induction ts as [|t ts IH]; intros [|i]; simpl; auto.
Qed.

Lemma fits_build sh f : np.fits sh (np.build sh f).
Proof.
  revert f. induction sh as [|d sh IH]; intros f.
  - apply fits_nil. by eexists.
  - rewrite build_cons. apply fits_cons.
    eexists. split; [done|]. split; [by rewrite length_map, length_seq|].
    apply Forall_forall. intros t (i & -> & _)%list_elem_of_fmap. apply IH.
Qed.

Lemma index_build sh f idx :
  in_range sh idx -> np.index (np.build sh f) idx = f idx.
Proof.
  unfold in_range. intros H. revert f.
  induction H as [|i d idx sh Hi _ IH]; intros f; [done|].
  rewrite build_cons, index_Node.
  change map with (@fmap list _). rewrite list_lookup_fmap, lookup_seq_lt by done.
  simpl. apply IH.
Qed.

Lemma build_ext sh f g :
  (forall idx, in_range sh idx -> f idx = g idx) -> np.build sh f = np.build sh g.
Proof.
  revert f g. induction sh as [|d sh IH]; intros f g H.
  - rewrite !build_nil. f_equal. apply H. constructor.
  - rewrite !build_cons. f_equal. apply list_eq. intros i.
    change map with (@fmap list _). rewrite !list_lookup_fmap.
    destruct (seq 0 d !! i) as [j|] eqn:Hj; [|done]. simpl. f_equal.
    apply lookup_seq in Hj as [-> Hi]. simpl.
    apply IH. intros idx Hidx. apply H. by constructor.
Qed.

Lemma build_index sh t : np.fits sh t -> np.build sh (np.index t) = t.
Proof.
  revert t. induction sh as [|d sh IH]; intros t.
  - by intros [x ->]%fits_nil.
  - intros (ts & -> & Hlen & Hts)%fits_cons. rewrite build_cons.
    f_equal. apply list_eq. intros i.
    change map with (@fmap list _). rewrite list_lookup_fmap.
    destruct (decide (i < d)) as [Hi|Hi].
    + rewrite lookup_seq_lt by done. cbn [fmap option_fmap option_map Nat.add].
      destruct (lookup_lt_is_Some_2 ts i) as [t Ht]; [lia|]. rewrite Ht. f_equal.
      etrans; [|apply (IH t); by eapply Forall_lookup_1].
      apply build_ext. intros idx _. by rewrite index_Node, Ht.
    + rewrite lookup_seq_ge by lia. symmetry. apply lookup_ge_None. lia.
Qed.

Lemma in_range_length sh idx : in_range sh idx -> length idx = length sh.
Proof. apply Forall2_length. Qed.

(** ** Rows *)

Lemma getitem_row a d sh i :
  np.shape a = d :: sh -> np.wf a -> i < d ->
  exists r, np.getitem a i = Ok r /\ np.shape r = sh /\ np.wf r /\
            forall idx, at_ r idx = at_ a (i :: idx).
Proof.
  destruct a as [sa t]. unfold np.wf, np.getitem, at_. simpl. intros -> H Hi.
  destruct H as (ts & -> & Hlen & Hts).
  destruct (lookup_lt_is_Some_2 ts i) as [ti Hti]; [lia|]. rewrite Hti.
  eexists. split; [done|]. simpl. split_and!; [done|by eapply Forall_lookup_1|].
  intros idx. by rewrite index_Node, Hti.
Qed.


Lemma broadcast_rev_refl r : np.broadcast_rev r r = Some r.
Proof.
  induction r as [|d r IH]; [done|]. simpl. rewrite IH. simpl.
  by rewrite decide_True.
Qed.

Lemma broadcast_shapes_refl sh : np.broadcast_shapes sh sh = Some sh.
Proof.
  unfold np.broadcast_shapes. rewrite broadcast_rev_refl. simpl.
  by rewrite reverse_involutive.
Qed.

Lemma bcast_idx_id sh idx : in_range sh idx -> np.bcast_idx sh idx = idx.
Proof.
  intros H. unfold np.bcast_idx.
  rewrite (in_range_length _ _ H), Nat.sub_diag, drop_0.
  induction H as [|i d idx sh Hi _ IH]; [done|]. cbn [zip_with]. rewrite IH. f_equal.
  case_decide; lia.
Qed.

Lemma broadcast_to_same a sh :
  np.shape a = sh -> np.wf a -> np.broadcast_to a sh = Ok a.
Proof.
  destruct a as [sa t]. unfold np.wf, np.broadcast_to, np.bindex. simpl.
  intros -> Ht. rewrite decide_True by apply broadcast_shapes_refl.
  f_equal. f_equal. etrans; [|by apply build_index].
  apply build_ext. intros idx Hidx. by rewrite bcast_idx_id.
Qed.

Lemma squeeze_to_same sh t : np.squeeze_to (length sh) sh t = (sh, t).
Proof.
  destruct sh as [|[|[|d]] sh]; try done.
  destruct t as [x|[|t0 [|t1 ts]]]; try done.
  simpl. rewrite decide_False; [done|lia].
Qed.

(** What [a[i] = v] does to the rows of [a], for any [v] it accepts. *)
Lemma setitem_inv a i v a' :
  np.setitem a i v = Ok a' ->
  exists d sh ts e,
    a = np.mk (d :: sh) (np.Node ts) /\ i < length ts /\
    a' = np.mk (d :: sh) (np.Node (<[i := e]> ts)) /\
    forall d' ts', i < length ts' ->
      np.setitem (np.mk (d' :: sh) (np.Node ts')) i v
        = Ok (np.mk (d' :: sh) (np.Node (<[i := e]> ts'))).
Proof.
  destruct a as [[|d sh] [x|ts]]; unfold np.setitem; simpl; try done.
  case_decide as Hi; [|done].
  destruct (np.squeeze_to (length sh) (np.shape v) (np.elems v)) as [vs vt] eqn:Hsq.
  destruct (np.broadcast_to (np.mk vs vt) sh) as [r|] eqn:Hr; [|done].
  simpl. intros [= <-]. exists d, sh, ts, (np.elems r). split_and!; [done..|].
  intros d' ts' Hi'. rewrite decide_True by done. by rewrite Hsq, Hr.
Qed.

Lemma setitem_row a d sh i v :
  np.shape a = d :: sh -> np.wf a -> i < d -> np.shape v = sh -> np.wf v ->
  exists a', np.setitem a i v = Ok a' /\ np.shape a' = d :: sh /\ np.wf a' /\
             np.getitem a' i = Ok v /\
             forall j, j ≠ i -> np.getitem a' j = np.getitem a j.
Proof.
  destruct a as [sa t]. destruct v as [sv tv].
  unfold np.wf, np.setitem, np.getitem. simpl. intros -> H Hi -> Hv.
  destruct H as (ts & -> & Hlen & Hts).
  rewrite decide_True by lia. rewrite squeeze_to_same.
  rewrite broadcast_to_same by done. simpl.
  eexists. split; [done|]. simpl. split_and!.
  - done.
  - eexists. split; [done|]. split; [by rewrite length_insert|].
    by apply Forall_insert.
  - by rewrite list_lookup_insert_eq by lia.
  - intros j Hj. by rewrite list_lookup_insert_ne.
Qed.

(** ** Products and sums *)

Lemma dot_vector_matrix a b f k :
  np.shape a = [f] -> np.shape b = [f; k] ->
  exists r, np.dot a b = Ok r /\ np.shape r = [k] /\ np.wf r /\
    forall j, j < k ->
      at_ r [j] = np.sum_upto f (fun c => at_ a [c] * at_ b [c; j])%R.
Proof.
  intros Ha Hb. unfold np.dot. rewrite Ha, Hb. simpl.
  rewrite decide_True by done.
  eexists. split; [done|]. simpl. split_and!; [done|apply fits_build|].
  intros j Hj. unfold at_. simpl. rewrite index_build; [done|].
  repeat constructor. done.
Qed.

Lemma dot_matrix_vector a b f k :
  np.shape a = [f; k] -> np.shape b = [k] ->
  exists r, np.dot a b = Ok r /\ np.shape r = [f] /\ np.wf r /\
    forall j, j < f ->
      at_ r [j] = np.sum_upto k (fun c => at_ a [j; c] * at_ b [c])%R.
Proof.
  intros Ha Hb. unfold np.dot. rewrite Ha, Hb. simpl.
  rewrite decide_True by done.
  eexists. split; [done|]. simpl. split_and!; [done|apply fits_build|].
  intros j Hj. unfold at_. simpl. rewrite index_build; [done|].
  repeat constructor. done.
Qed.

Lemma dot_vector_vector a b k :
  np.shape a = [k] -> np.shape b = [k] ->
  exists r, np.dot a b = Ok r /\ np.shape r = [] /\ np.wf r /\
    at_ r [] = np.sum_upto k (fun c => at_ a [c] * at_ b [c])%R.
Proof.
  intros Ha Hb. unfold np.dot. rewrite Ha, Hb. simpl.
  rewrite decide_True by done.
  eexists. split; [done|]. simpl. split_and!; [done|by eexists|done].
Qed.


Lemma binop_same op a b sh :
  np.shape a = sh -> np.shape b = sh ->
  exists r, np.binop op a b = Ok r /\ np.shape r = sh /\ np.wf r /\
    forall idx, in_range sh idx -> at_ r idx = op (at_ a idx) (at_ b idx).
Proof.
  intros Ha Hb. unfold np.binop. rewrite Ha, Hb, broadcast_shapes_refl.
  eexists. split; [done|]. simpl. split_and!; [done|apply fits_build|].
  intros idx Hidx. unfold at_, np.bindex. simpl.
  rewrite index_build by done. by rewrite Ha, Hb, bcast_idx_id.
Qed.

(** A vector and a number: the number is broadcast. *)
Lemma binop_vector_scalar op a b k :
  np.shape a = [k] -> np.shape b = [] -> np.wf b ->
  exists r, np.binop op a b = Ok r /\ np.shape r = [k] /\ np.wf r /\
    forall j, j < k -> at_ r [j] = op (at_ a [j]) (at_ b []).
Proof.
  intros Ha Hb Hwf. unfold np.wf in Hwf. rewrite Hb in Hwf.
  apply fits_nil in Hwf as [x Hx]. unfold np.binop. rewrite Ha, Hb.
  change (np.broadcast_shapes [k] []) with (Some [k]).
  eexists. split; [reflexivity|]. cbn [np.shape np.elems].
  split_and!; [done|apply fits_build|].
  intros j Hj. unfold at_, np.bindex. cbn [np.elems np.shape].
  rewrite index_build by (repeat constructor; done).
  rewrite Ha, Hb, Hx, index_Leaf. unfold np.bcast_idx. simpl.
  case_decide; [|done]. by replace j with 0 by lia.
Qed.

Lemma at_unop f a idx :
  np.wf a -> in_range (np.shape a) idx -> at_ (np.unop f a) idx = f (at_ a idx).
Proof.
  destruct a as [sh t]. unfold np.wf, at_, np.unop. simpl. intros Ht Hidx.
  revert t Ht. unfold in_range in Hidx.
  induction Hidx as [|i d idx sh Hi _ IH]; intros t Ht.
  - by destruct Ht as [x ->].
  - destruct Ht as (ts & -> & Hlen & Hts). cbn [np.tmap].
    rewrite !index_Node, list_lookup_fmap.
    destruct (lookup_lt_is_Some_2 ts i) as [ti Hti]; [lia|]. rewrite Hti. simpl.
    apply IH. by eapply Forall_lookup_1.
Qed.

Lemma wf_unop f a : np.wf a -> np.wf (np.unop f a).
Proof.
  destruct a as [sh t]. unfold np.wf, np.unop. simpl.
  revert t. induction sh as [|d sh IH]; intros t; simpl.
  - intros [x ->]. by eexists.
  - intros (ts & -> & Hlen & Hts). eexists. split; [done|].
    split; [by rewrite length_map|].
    apply Forall_fmap. eapply Forall_impl; [exact Hts|]. intros t. apply IH.
Qed.

(** The elements of a vector, in order. *)
Lemma flatten_vector a k :
  np.shape a = [k] -> np.wf a ->
  np.flatten (np.elems a) = map (fun j => at_ a [j]) (seq 0 k).
Proof.
  destruct a as [sh t]. unfold np.wf, at_. cbn [np.shape np.elems].
  intros -> (ts & -> & Hlen & Hts). subst k.
  assert (np.flatten (np.Node ts) = map (fun t => np.index t []) ts) as ->.
  { cbn [np.flatten]. induction Hts as [|t ts [x ->] _ IH]; [done|].
    cbn [map concat]. by rewrite IH. }
  apply list_eq. intros j. change map with (@fmap list _). rewrite !list_lookup_fmap.
  destruct (decide (j < length ts)) as [Hj|Hj].
  - rewrite lookup_seq_lt by done. cbn [fmap option_fmap option_map Nat.add].
    rewrite index_Node.
    destruct (lookup_lt_is_Some_2 ts j Hj) as [t Ht]. by rewrite Ht.
  - rewrite lookup_seq_ge by lia. by rewrite (proj2 (lookup_ge_None ts j)) by lia.
Qed.

(** * Loops that fill the rows of one array *)

Lemma agree_refl o s : agree o s s.
Proof. by split_and!. Qed.

Lemma agree_set_array o s0 st a :
  agree o s0 st -> agree o s0 (set_array st o a).
Proof.
  intros (Hl & Hlen & Ha). split_and!; simpl.
  - done.
  - by rewrite length_insert.
  - intros l Hl'. rewrite list_lookup_insert_ne by done. by apply Ha.
Qed.

Lemma set_array_same st o a : arrays st !! o = Some a -> set_array st o a = st.
Proof.
  intros H. destruct st as [ls ars]. unfold set_array. simpl in *.
  by rewrite list_insert_id.
Qed.

Lemma set_array_twice st o a b :
  set_array (set_array st o a) o b = set_array st o b.
Proof. unfold set_array. simpl. by rewrite list_insert_insert_eq. Qed.

(** ** Expressions that only read *)

Lemma reader_ret {A} o s0 (a : A) : reader o s0 (mret a).
Proof. by exists (Ok a). Qed.

Lemma reader_raise {A} o s0 e : reader o s0 (@raise A e).
Proof. by exists (Raise e). Qed.

Lemma reader_lift {A} o s0 (r : res A) : reader o s0 (lift r).
Proof. by exists r. Qed.

Lemma reader_bind {A B} o s0 (m : M A) (f : A -> M B) :
  reader o s0 m ->
  (forall a, m s0 = Returns a s0 -> reader o s0 (f a)) ->
  reader o s0 (m ≫= f).
Proof.
  intros [[a|e] Hm] Hf.
  - destruct (Hf a) as [r Hr]; [apply Hm, agree_refl|].
    exists r. intros st Hst. rewrite (bind_returns _ _ _ _ _ (Hm st Hst)). by apply Hr.
  - exists (Raise e). intros st Hst. by rewrite (bind_raises _ _ _ _ _ (Hm st Hst)).
Qed.

Lemma reader_get_layer o s0 n : reader o s0 (get_layer n).
Proof.
  unfold get_layer. destruct (layers s0 !! n) as [l|] eqn:Hl.
  - exists (Ok l). intros st (E & _). by rewrite E, Hl.
  - exists (Raise TypeError). intros st (E & _). by rewrite E, Hl.
Qed.

Lemma reader_getattr o s0 n name : reader o s0 (getattr n name).
Proof.
  apply reader_bind; [apply reader_get_layer|]. intros l _.
  destruct (attrs l !! name); [apply reader_ret|apply reader_raise].
Qed.

Lemma reader_load o s0 l : l ≠ o -> reader o s0 (load l).
Proof.
  intros Hl. unfold load. destruct (arrays s0 !! l) as [a|] eqn:Ha.
  - exists (Ok a). intros st (_ & _ & E). by rewrite E, Ha.
  - exists (Raise TypeError). intros st (_ & _ & E). by rewrite E, Ha.
Qed.

Lemma reader_subscript o s0 v i : v ≠ VArr o -> reader o s0 (subscript v i).
Proof.
  intros Hv. destruct v as [| |l]; try apply reader_raise.
  apply reader_bind; [apply reader_load; congruence|].
  intros a _. apply reader_lift.
Qed.

Lemma getattr_inv n name s v :
  getattr n name s = Returns v s -> attr_of s n name = Some v.
Proof.
  unfold getattr, attr_of, get_layer, mbind, M_bind.
  destruct (layers s !! n) as [l|]; [|done]. simpl.
  destruct (attrs l !! name); [|done]. by intros [= ->].
Qed.

Lemma attr_of_getattr n name s v :
  attr_of s n name = Some v -> getattr n name s = Returns v s.
Proof.
  unfold attr_of. destruct (layers s !! n) as [l|] eqn:Hl; [|done]. simpl.
  intros Hv. by eapply getattr_returns.
Qed.

Lemma attr_of_agree o s0 st n name :
  agree o s0 st -> attr_of st n name = attr_of s0 n name.
Proof. intros (E & _). unfold attr_of. by rewrite E. Qed.

(** [self.name[i]] is a reader when the attribute is not bound to [o]. *)
Lemma reader_attr_item o s0 n name i :
  attr_of s0 n name ≠ Some (VArr o) ->
  reader o s0 (getattr n name ≫= fun v => subscript v i).
Proof.
  intros H. apply reader_bind; [apply reader_getattr|].
  intros v Hv%getattr_inv. apply reader_subscript. congruence.
Qed.

(** ** The loop as a function of the array *)

Section rows.
Context (o : nat) (s0 : state) (c : nat -> M np.ndarray) (body : nat -> M unit).
Hypothesis Hc : forall i, reader o s0 (c i).
Hypothesis Hbody : forall i st, agree o s0 st ->
  body i st = (r ← c i; assign_item (VArr o) i r) st.

Lemma reader_result {A} (m : M A) st :
  reader o s0 m -> agree o s0 st -> m st = lift (result (m s0)) st.
Proof.
  intros [r Hr] Hst. rewrite (Hr s0 (agree_refl _ _)), (Hr st Hst). by destruct r.
Qed.

Lemma assign_item_returns st i r a a' :
  arrays st !! o = Some a -> np.setitem a i r = Ok a' ->
  assign_item (VArr o) i r st = Returns tt (set_array st o a').
Proof.
  intros Ha Hset. unfold assign_item, load, store, mbind, M_bind.
  rewrite Ha. simpl. rewrite Hset. simpl. by rewrite Ha.
Qed.

Lemma assign_item_raises st i r a e :
  arrays st !! o = Some a -> np.setitem a i r = Raise e ->
  assign_item (VArr o) i r st = Raises e st.
Proof.
  intros Ha Hset. unfold assign_item, load, store, mbind, M_bind.
  rewrite Ha. simpl. by rewrite Hset.
Qed.

(** The loop computes [run_rows] on the array at [o], from the results
    the right-hand sides have in [s0]. *)
Lemma loop_refines rows st a :
  agree o s0 st -> arrays st !! o = Some a ->
  match run_rows (fun i => result (c i s0)) a rows with
  | Ok a1 => for_each rows body st = Returns tt (set_array st o a1)
  | Raise e => exists st', for_each rows body st = Raises e st' /\ agree o s0 st'
  end.
Proof.
  revert st a. induction rows as [|i rows IH]; intros st a Hst Ha; cbn [run_rows for_each].
  - by rewrite set_array_same.
  - pose proof (reader_result (c i) st (Hc i) Hst) as Hci.
    destruct (result (c i s0)) as [r|e] eqn:Hr; cbn [mbind res_bind].
    2:{ exists st. split; [|done].
        apply bind_raises. rewrite Hbody by done. by apply bind_raises. }
    destruct (np.setitem a i r) as [a'|e] eqn:Hset; cbn [mbind res_bind].
    2:{ exists st. split; [|done]. apply bind_raises. rewrite Hbody by done.
        rewrite (bind_returns _ _ _ _ _ Hci). by eapply assign_item_raises. }
    assert (body i st = Returns tt (set_array st o a')) as Hb.
    { rewrite Hbody by done.
      rewrite (bind_returns _ _ _ _ _ Hci). by eapply assign_item_returns. }
    rewrite (bind_returns _ _ _ _ _ Hb).
    assert (arrays (set_array st o a') !! o = Some a') as Ha'.
    { simpl. apply list_lookup_insert_eq. by apply lookup_lt_Some in Ha. }
    specialize (IH (set_array st o a') a' (agree_set_array _ _ _ _ Hst) Ha').
    destruct (run_rows _ a' rows) as [a1|e]; [|done].
    by rewrite IH, set_array_twice.
Qed.
End rows.

(** ** The array after the loop *)

(** Rows of the right shape are all accepted, and read back as written. *)
Lemma run_rows_shaped rd a d sh rows :
  np.shape a = d :: sh -> np.wf a -> NoDup rows ->
  (forall i, i ∈ rows -> i < d /\ exists r, rd i = Ok r /\ np.shape r = sh /\ np.wf r) ->
  exists a1, run_rows rd a rows = Ok a1 /\ np.shape a1 = d :: sh /\ np.wf a1 /\
    (forall i, i ∈ rows -> exists r, rd i = Ok r /\ np.getitem a1 i = Ok r) /\
    (forall j, j ∉ rows -> np.getitem a1 j = np.getitem a j).
Proof.
  revert a. induction rows as [|i rows IH]; intros a Hsh Hwf Hnd Hrows; cbn [run_rows].
  - exists a. split_and!; [done..| |done]. by intros i ?%elem_of_nil.
  - apply NoDup_cons in Hnd as [Hi Hnd].
    destruct (Hrows i) as (Hid & r & Hr & Hrs & Hrw); [by left|].
    rewrite Hr. cbn [mbind res_bind].
    destruct (setitem_row a d sh i r Hsh Hwf Hid Hrs Hrw)
      as (a' & Hset & Hsh' & Hwf' & Hget & Hother).
    rewrite Hset. cbn [mbind res_bind].
    destruct (IH a' Hsh' Hwf' Hnd) as (a1 & Hrun & Hsh1 & Hwf1 & Hin & Hout).
    { intros j Hj. apply Hrows. by right. }
    exists a1. split_and!; [done..| |].
    + intros j [->|Hj]%elem_of_cons; [|by apply Hin].
      exists r. split; [done|]. by rewrite Hout.
    + intros j Hj. rewrite Hout by (intros ?; apply Hj; by right).
      apply Hother. intros ->. apply Hj. by left.
Qed.

(** Writing a row twice is writing it once. *)
Lemma setitem_again a i v a' :
  np.setitem a i v = Ok a' -> np.setitem a' i v = Ok a'.
Proof.
  intros (d & sh & ts & e & -> & Hi & -> & Hgen)%setitem_inv.
  rewrite Hgen by (by rewrite length_insert).
  by rewrite list_insert_insert_eq.
Qed.

(** A row that holds [v] still does after another row is written. *)
Lemma setitem_other a i v j w a' :
  np.setitem a i v = Ok a -> np.setitem a j w = Ok a' -> i ≠ j ->
  np.setitem a' i v = Ok a'.
Proof.
  intros Hv (d & sh & ts & e & -> & Hj & -> & _)%setitem_inv Hij.
  apply setitem_inv in Hv as (d' & sh' & ts' & e' & [= <- <- <-] & Hi & E & Hgen).
  rewrite Hgen by (by rewrite length_insert).
  injection E as E. f_equal. f_equal. f_equal.
  rewrite list_insert_insert_ne by done. by rewrite <- E.
Qed.

Lemma run_rows_keeps rd a rows a1 i v :
  run_rows rd a rows = Ok a1 -> i ∉ rows ->
  np.setitem a i v = Ok a -> np.setitem a1 i v = Ok a1.
Proof.
  revert a. induction rows as [|j rows IH]; intros a; cbn [run_rows].
  - by intros [= <-].
  - destruct (rd j) as [r|] eqn:Hr; [|done]. cbn [mbind res_bind].
    destruct (np.setitem a j r) as [a'|] eqn:Hset; [|done]. cbn [mbind res_bind].
    intros Hrun Hi Hv. apply (IH a' Hrun).
    + intros ?. apply Hi. by right.
    + eapply setitem_other; [done..|]. intros ->. apply Hi. by left.
Qed.

(** Running the loop again on its own result changes nothing. *)
Lemma run_rows_again rd a rows a1 :
  NoDup rows -> run_rows rd a rows = Ok a1 -> run_rows rd a1 rows = Ok a1.
Proof.
  revert a. induction rows as [|i rows IH]; intros a Hnd; cbn [run_rows].
  - done.
  - apply NoDup_cons in Hnd as [Hi Hnd].
    destruct (rd i) as [r|] eqn:Hr; [|done]. cbn [mbind res_bind].
    destruct (np.setitem a i r) as [a'|] eqn:Hset; [|done]. cbn [mbind res_bind].
    intros Hrun.
    rewrite (run_rows_keeps rd a' rows a1 i r Hrun Hi (setitem_again _ _ _ _ Hset)).
    cbn [mbind res_bind]. by apply (IH a').
Qed.


(** * The forward passes as functions of their output array *)

Lemma setattr_eq n name v st l :
  layers st !! n = Some l -> setattr n name v st = Returns tt (set_attr st n name v).
Proof. intros Hl. unfold setattr, upd_layer, set_attr. by rewrite Hl. Qed.

Lemma attr_of_set_attr st n name v n' name' :
  n < length (layers st) ->
  attr_of (set_attr st n name v) n' name' =
    if decide (n' = n /\ name' = name) then Some v else attr_of st n' name'.
Proof.
  intros Hn. destruct (lookup_lt_is_Some_2 _ _ Hn) as [l Hl].
  unfold set_attr, attr_of. rewrite Hl. simpl.
  destruct (decide (n' = n)) as [->|Hne].
  - rewrite list_lookup_insert_eq by done. rewrite Hl. simpl.
    destruct (decide (name' = name)) as [->|Hname].
    + rewrite decide_True by done. by rewrite lookup_insert_eq.
    + rewrite decide_False by tauto. by rewrite lookup_insert_ne.
  - rewrite list_lookup_insert_ne by done. rewrite decide_False by tauto. done.
Qed.

Lemma input_of_set_attr st n name v n' :
  input_of (set_attr st n name v) n' = input_of st n'.
Proof.
  unfold set_attr, input_of. destruct (layers st !! n) as [l|] eqn:Hl; [|done].
  simpl. destruct (decide (n' = n)) as [->|Hne].
  - rewrite list_lookup_insert_eq by (by apply lookup_lt_Some in Hl). by rewrite Hl.
  - by rewrite list_lookup_insert_ne.
Qed.

Lemma attr_of_allocated st n name v : attr_of st n name = Some v -> n < length (layers st).
Proof.
  unfold attr_of. destruct (layers st !! n) as [l|] eqn:Hl; [|done].
  intros _. by apply lookup_lt_Some in Hl.
Qed.

Lemma attr_of_set_array st o a n name :
  attr_of (set_array st o a) n name = attr_of st n name.
Proof. done. Qed.

Lemma getattr_input_eq self name st p v :
  input_of st self = Some p -> attr_of st p name = Some v ->
  getattr_input self name st = Returns v st.
Proof.
  unfold input_of, getattr_input. intros Hp Hv.
  destruct (layers st !! self) as [l|] eqn:Hl; [|done]. simpl in Hp.
  rewrite (bind_returns _ _ _ _ _ (get_layer_returns _ _ _ Hl)), Hp.
  by apply attr_of_getattr.
Qed.

Lemma get_int_eq n name st k :
  attr_of st n name = Some (VInt k) ->
  (getattr n name ≫= as_int) st = Returns k st.
Proof. intros H. by rewrite (bind_returns _ _ _ _ _ (attr_of_getattr _ _ _ _ H)). Qed.

(** ** The affine layers *)

Lemma reader_Input_row o st self i :
  attr_of st self "X" ≠ Some (VArr o) ->
  attr_of st self "W" ≠ Some (VArr o) ->
  attr_of st self "biases" ≠ Some (VArr o) ->
  reader o st (Input.row self i).
Proof.
  intros HX HW Hb. unfold Input.row.
  apply reader_bind; [by apply reader_attr_item|]. intros xi _.
  apply reader_bind; [by apply reader_attr_item|]. intros wi _.
  apply reader_bind; [apply reader_lift|]. intros h _.
  apply reader_bind; [by apply reader_attr_item|]. intros bi _.
  apply reader_lift.
Qed.

(** A turn of a loop that evaluates [c] and assigns the result to row [i]
    of the array the attribute [name] is bound to. *)
Lemma body_assigns o st self name (c : M np.ndarray) i st' :
  attr_of st self name = Some (VArr o) ->
  reader o st c -> agree o st st' ->
  (r ← c; v ← getattr self name; assign_item v i r) st'
    = (r ← c; assign_item (VArr o) i r) st'.
Proof.
  intros Hv Hc Hst. pose proof (reader_result o st c st' Hc Hst) as E.
  destruct (result (c st)) as [r|e].
  - rewrite !(bind_returns _ _ _ _ _ E).
    rewrite <- (attr_of_agree o st st' self name Hst) in Hv.
    by rewrite (bind_returns _ _ _ _ _ (attr_of_getattr _ _ _ _ Hv)).
  - by rewrite !(bind_raises _ _ _ _ _ E).
Qed.

Lemma affine_loop_refines self st n o a :
  attr_of st self "value" = Some (VArr o) ->
  arrays st !! o = Some a ->
  attr_of st self "X" ≠ Some (VArr o) ->
  attr_of st self "W" ≠ Some (VArr o) ->
  attr_of st self "biases" ≠ Some (VArr o) ->
  match run_rows (fun i => result (Input.row self i st)) a (seq 0 n) with
  | Ok a1 => for_range n (Input.forward_body self) st = Returns tt (set_array st o a1)
  | Raise e => exists st', for_range n (Input.forward_body self) st = Raises e st' /\
                           agree o st st'
  end.
Proof.
  intros Hv Ha HX HW Hb. unfold for_range.
  apply (loop_refines o st (Input.row self) (Input.forward_body self)).
  - intros i. by apply reader_Input_row.
  - intros i st' Hst. unfold Input.forward_body.
    apply (body_assigns o st self "value"); [done| |done]. by apply reader_Input_row.
  - apply agree_refl.
  - done.
Qed.

Lemma Input_forward_refines self st n o a :
  class_of st self CInput ->
  attr_of st self "num_images" = Some (VInt n) ->
  attr_of st self "value" = Some (VArr o) ->
  arrays st !! o = Some a ->
  attr_of st self "X" ≠ Some (VArr o) ->
  attr_of st self "W" ≠ Some (VArr o) ->
  attr_of st self "biases" ≠ Some (VArr o) ->
  match run_rows (fun i => result (Input.row self i st)) a (seq 0 n) with
  | Ok a1 => forward self st = Returns tt (set_array st o a1)
  | Raise e => exists st', forward self st = Raises e st' /\ agree o st st'
  end.
Proof.
  intros (l & Hl & Hc) Hn Hv Ha HX HW Hb.
  pose proof (affine_loop_refines self st n o a Hv Ha HX HW Hb) as Hloop.
  unfold forward. rewrite (bind_returns _ _ _ _ _ (get_layer_returns _ _ _ Hl)), Hc.
  unfold Input.forward. rewrite (bind_returns _ _ _ _ _ (get_int_eq _ _ _ _ Hn)).
  exact Hloop.
Qed.

Lemma Hidden_forward_refines self st p v n o a :
  class_of st self CHidden ->
  input_of st self = Some p ->
  attr_of st p "value" = Some v ->
  attr_of st self "num_images" = Some (VInt n) ->
  attr_of st self "value" = Some (VArr o) ->
  arrays st !! o = Some a ->
  v ≠ VArr o ->
  attr_of st self "W" ≠ Some (VArr o) ->
  attr_of st self "biases" ≠ Some (VArr o) ->
  let st1 := set_attr st self "X" v in
  match run_rows (fun i => result (Input.row self i st1)) a (seq 0 n) with
  | Ok a1 => forward self st = Returns tt (set_array st1 o a1)
  | Raise e => exists st', forward self st = Raises e st' /\ agree o st1 st'
  end.
Proof.
  intros (l & Hl & Hc) Hp Hpv Hn Hv Ha Hsep HW Hb st1.
  assert (self < length (layers st)) as Hlt by (by apply lookup_lt_Some in Hl).
  assert (forall name, name ≠ "X" -> attr_of st1 self name = attr_of st self name) as Hother.
  { intros name Hname. unfold st1. rewrite attr_of_set_attr by done.
    rewrite decide_False; [done|tauto]. }
  assert (attr_of st1 self "X" = Some v) as HX1.
  { unfold st1. rewrite attr_of_set_attr by done. by rewrite decide_True. }
  assert (arrays st1 !! o = Some a) as Ha1.
  { unfold st1, set_attr. by rewrite Hl. }
  assert (attr_of st1 self "value" = Some (VArr o)) as Hv1 by (by rewrite Hother).
  assert (attr_of st1 self "X" ≠ Some (VArr o)) as HX1' by (rewrite HX1; congruence).
  assert (attr_of st1 self "W" ≠ Some (VArr o)) as HW1 by (by rewrite Hother).
  assert (attr_of st1 self "biases" ≠ Some (VArr o)) as Hb1 by (by rewrite Hother).
  pose proof (affine_loop_refines self st1 n o a Hv1 Ha1 HX1' HW1 Hb1) as Hloop.
  unfold forward. rewrite (bind_returns _ _ _ _ _ (get_layer_returns _ _ _ Hl)), Hc.
  unfold Hidden.forward.
  rewrite (bind_returns _ _ _ _ _ (getattr_input_eq _ _ _ _ _ Hp Hpv)).
  rewrite (bind_returns _ _ _ _ _ (setattr_eq _ _ _ _ _ Hl)). fold st1.
  assert (attr_of st1 self "num_images" = Some (VInt n)) as Hn1 by (by rewrite Hother).
  rewrite (bind_returns _ _ _ _ _ (get_int_eq _ _ _ _ Hn1)).
  exact Hloop.
Qed.

(** ** Softmax *)

Lemma reader_Softmax_row o st v i :
  v ≠ VArr o -> reader o st (Softmax.row v i).
Proof.
  intros Hv. unfold Softmax.row.
  apply reader_bind; [by apply reader_subscript|]. intros xi _. apply reader_lift.
Qed.

Lemma Softmax_forward_refines self st p v n o a :
  class_of st self CSoftmax ->
  input_of st self = Some p ->
  attr_of st p "value" = Some v ->
  attr_of st self "num_images" = Some (VInt n) ->
  attr_of st self "value" = Some (VArr o) ->
  arrays st !! o = Some a ->
  v ≠ VArr o ->
  match run_rows (fun i => result (Softmax.row v i st)) a (seq 0 n) with
  | Ok a1 => forward self st = Returns tt (set_array st o a1)
  | Raise e => exists st', forward self st = Raises e st' /\ agree o st st'
  end.
Proof.
  intros (l & Hl & Hc) Hp Hpv Hn Hv Ha Hsep.
  unfold forward. rewrite (bind_returns _ _ _ _ _ (get_layer_returns _ _ _ Hl)), Hc.
  unfold Softmax.forward.
  rewrite (bind_returns _ _ _ _ _ (getattr_input_eq _ _ _ _ _ Hp Hpv)).
  rewrite (bind_returns _ _ _ _ _ (get_int_eq _ _ _ _ Hn)).
  unfold for_range.
  apply (loop_refines o st (Softmax.row v) (Softmax.forward_body self v)).
  - intros i. by apply reader_Softmax_row.
  - intros i st' Hst. unfold Softmax.forward_body.
    apply (body_assigns o st self "value"); [done| |done]. by apply reader_Softmax_row.
  - apply agree_refl.
  - done.
Qed.

(** ** CrossEntropy *)

Lemma reader_CrossEntropy_row o st self i :
  attr_of st self "ideal_output" ≠ Some (VArr o) ->
  attr_of st self "softmax" ≠ Some (VArr o) ->
  reader o st (CrossEntropy.row self i).
Proof.
  intros Hy Hp. unfold CrossEntropy.row.
  apply reader_bind; [by apply reader_attr_item|]. intros yi _.
  apply reader_bind; [by apply reader_attr_item|]. intros pi _.
  apply reader_bind; [apply reader_lift|]. intros m _.
  apply reader_ret.
Qed.

Lemma CrossEntropy_forward_refines self st p v n o a :
  class_of st self CCrossEntropy ->
  input_of st self = Some p ->
  attr_of st p "value" = Some v ->
  attr_of st self "num_images" = Some (VInt n) ->
  attr_of st self "tmp_value" = Some (VArr o) ->
  arrays st !! o = Some a ->
  v ≠ VArr o ->
  attr_of st self "ideal_output" ≠ Some (VArr o) ->
  let st1 := set_attr st self "softmax" v in
  match run_rows (fun i => result (CrossEntropy.row self i st1)) a (seq 0 n) with
  | Ok a1 => forward self st = Returns tt (CrossEntropy_done st1 self o a1)
  | Raise e => exists st', forward self st = Raises e st' /\ agree o st1 st'
  end.
Proof.
  intros (l & Hl & Hc) Hp Hpv Hn Hv Ha Hsep Hy st1.
  assert (self < length (layers st)) as Hlt by (by apply lookup_lt_Some in Hl).
  assert (forall name, name ≠ "softmax" ->
            attr_of st1 self name = attr_of st self name) as Hother.
  { intros name Hname. unfold st1. rewrite attr_of_set_attr by done.
    rewrite decide_False; [done|tauto]. }
  assert (attr_of st1 self "softmax" = Some v) as Hs1.
  { unfold st1. rewrite attr_of_set_attr by done. by rewrite decide_True. }
  assert (arrays st1 = arrays st) as Harr.
  { unfold st1, set_attr. by rewrite Hl. }
  assert (length (layers st1) = length (layers st)) as Hlen1.
  { unfold st1, set_attr. rewrite Hl. simpl. by rewrite length_insert. }
  assert (forall i, reader o st1 (CrossEntropy.row self i)) as Hrd.
  { intros i. apply reader_CrossEntropy_row; [by rewrite Hother|].
    rewrite Hs1. congruence. }
  assert (attr_of st1 self "tmp_value" = Some (VArr o)) as Hv1 by (by rewrite Hother).
  pose proof (loop_refines o st1 (CrossEntropy.row self)
                (CrossEntropy.forward_body self) Hrd) as Hloop.
  specialize (Hloop (fun i st' Hst =>
    body_assigns o st1 self "tmp_value" _ i st' Hv1 (Hrd i) Hst)).
  specialize (Hloop (seq 0 n) st1 a (agree_refl _ _)). rewrite Harr in Hloop.
  specialize (Hloop Ha).
  unfold forward. rewrite (bind_returns _ _ _ _ _ (get_layer_returns _ _ _ Hl)), Hc.
  unfold CrossEntropy.forward.
  rewrite (bind_returns _ _ _ _ _ (getattr_input_eq _ _ _ _ _ Hp Hpv)).
  rewrite (bind_returns _ _ _ _ _ (setattr_eq _ _ _ _ _ Hl)). fold st1.
  assert (attr_of st1 self "num_images" = Some (VInt n)) as Hn1 by (by rewrite Hother).
  rewrite (bind_returns _ _ _ _ _ (get_int_eq _ _ _ _ Hn1)).
  unfold for_range.
  destruct (run_rows _ a (seq 0 n)) as [a1|e].
  2:{ destruct Hloop as (st' & Hrun & Hag). exists st'. split; [|done].
      by apply bind_raises. }
  rewrite (bind_returns _ _ _ _ _ Hloop).
  assert (attr_of (set_array st1 o a1) self "tmp_value" = Some (VArr o)) as Hv2 by done.
  rewrite (bind_returns _ _ _ _ _ (attr_of_getattr _ _ _ _ Hv2)).
  assert (o < length (arrays st)) as Ho by (by apply lookup_lt_Some in Ha).
  assert (load o (set_array st1 o a1) = Returns a1 (set_array st1 o a1)) as Hload.
  { unfold load, set_array. simpl. rewrite Harr.
    by rewrite list_lookup_insert_eq. }
  rewrite (bind_returns _ _ _ _ _ Hload).
  unfold alloc at 1. unfold mbind at 1, M_bind at 1.
  destruct (lookup_lt_is_Some_2 (layers st1) self) as [l1 Hl1]; [lia|].
  cbn [set_array layers arrays].
  rewrite (setattr_eq self "value" _ _ l1) by done.
  unfold CrossEntropy_done. by rewrite length_insert.
Qed.

(** * The rows the layers compute *)

Lemma sum_upto_ext n g h :
  (forall c, c < n -> g c = h c) -> np.sum_upto n g = np.sum_upto n h.
Proof.
  intros H. unfold np.sum_upto. f_equal. apply map_ext_in.
  intros c Hc%in_seq. apply H. lia.
Qed.

(** [self.name[i]] where the attribute is bound to the array [a]. *)
Lemma attr_item_returns st n name l a i r :
  attr_of st n name = Some (VArr l) -> arrays st !! l = Some a ->
  np.getitem a i = Ok r ->
  (getattr n name ≫= fun v => subscript v i) st = Returns r st.
Proof.
  intros Hv Ha Hr. rewrite (bind_returns _ _ _ _ _ (attr_of_getattr _ _ _ _ Hv)).
  unfold subscript, load, mbind, M_bind. rewrite Ha. simpl. by rewrite Hr.
Qed.


Lemma getitem_at a i r idx : np.getitem a i = Ok r -> at_ r idx = at_ a (i :: idx).
Proof.
  destruct a as [[|d sh] [x|ts]]; unfold np.getitem, at_; simpl; try done.
  destruct (ts !! i) as [t|] eqn:Ht; [|done]. intros [= <-]. simpl.
  by rewrite index_Node, Ht.
Qed.

Section affine_row.
Context (st : state) (self xl wl bl m n f k : nat) (X W B : np.ndarray).
Hypothesis HX : attr_of st self "X" = Some (VArr xl).
Hypothesis HW : attr_of st self "W" = Some (VArr wl).
Hypothesis HB : attr_of st self "biases" = Some (VArr bl).
Hypothesis HXa : arrays st !! xl = Some X.
Hypothesis HWa : arrays st !! wl = Some W.
Hypothesis HBa : arrays st !! bl = Some B.
Hypothesis HXs : np.shape X = [m; f].
Hypothesis HWs : np.shape W = [n; f; k].
Hypothesis HBs : np.shape B = [n; k].
Hypothesis HXw : np.wf X.
Hypothesis HWw : np.wf W.
Hypothesis HBw : np.wf B.

(** The row [np.dot(X[i], W[i]) + biases[i]]. *)
Lemma Input_row_returns i :
  i < n -> i < m ->
  exists r, Input.row self i st = Returns r st /\ np.shape r = [k] /\ np.wf r /\
    forall j, j < k ->
      at_ r [j] = (np.sum_upto f (fun c => at_ X [i; c] * at_ W [i; c; j])
                   + at_ B [i; j])%R.
Proof.
  intros Hin Him.
  destruct (getitem_row X m [f] i HXs HXw Him) as (xi & Hxi & Hxs & Hxw & Hxat).
  destruct (getitem_row W n [f; k] i HWs HWw Hin) as (wi & Hwi & Hws & Hww & Hwat).
  destruct (getitem_row B n [k] i HBs HBw Hin) as (bi & Hbi & Hbs & Hbw & Hbat).
  destruct (dot_vector_matrix xi wi f k Hxs Hws) as (h & Hh & Hhs & Hhw & Hhat).
  destruct (binop_same Rplus h bi [k] Hhs Hbs) as (r & Hr & Hrs & Hrw & Hrat).
  exists r. split_and!; [|done|done|].
  - unfold Input.row.
    rewrite (bind_returns _ _ _ _ _ (attr_item_returns _ _ _ _ _ _ _ HX HXa Hxi)).
    rewrite (bind_returns _ _ _ _ _ (attr_item_returns _ _ _ _ _ _ _ HW HWa Hwi)).
    rewrite Hh, bind_lift_ok.
    rewrite (bind_returns _ _ _ _ _ (attr_item_returns _ _ _ _ _ _ _ HB HBa Hbi)).
    unfold np.add. by rewrite Hr.
  - intros j Hj. rewrite Hrat by (repeat constructor; done).
    rewrite Hhat, Hbat by done. f_equal.
    apply sum_upto_ext. intros c Hc. by rewrite Hxat, Hwat.
Qed.


End affine_row.


Section affine_loop.
Context (st : state) (self o xl wl bl m n f k : nat) (V X W B : np.ndarray).
Hypothesis HV : attr_of st self "value" = Some (VArr o).
Hypothesis HX : attr_of st self "X" = Some (VArr xl).
Hypothesis HW : attr_of st self "W" = Some (VArr wl).
Hypothesis HB : attr_of st self "biases" = Some (VArr bl).
Hypothesis HVa : arrays st !! o = Some V.
Hypothesis HXa : arrays st !! xl = Some X.
Hypothesis HWa : arrays st !! wl = Some W.
Hypothesis HBa : arrays st !! bl = Some B.
Hypothesis HVs : np.shape V = [n; k].
Hypothesis HWs : np.shape W = [n; f; k].
Hypothesis HBs : np.shape B = [n; k].
Hypothesis HVw : np.wf V.
Hypothesis HXw : np.wf X.
Hypothesis HWw : np.wf W.
Hypothesis HBw : np.wf B.
Hypothesis Hxo : xl ≠ o.
Hypothesis Hwo : wl ≠ o.
Hypothesis Hbo : bl ≠ o.

Lemma affine_loop_refines' :
  match run_rows (fun i => result (Input.row self i st)) V (seq 0 n) with
  | Ok a1 => for_range n (Input.forward_body self) st = Returns tt (set_array st o a1)
  | Raise e => exists st', for_range n (Input.forward_body self) st = Raises e st' /\
                           agree o st st'
  end.
Proof.
  apply affine_loop_refines; [done|done|rewrite HX|rewrite HW|rewrite HB]; congruence.
Qed.

(** Every row of [value] is the affine image of the row of [X]; rows of
    [X] past [num_images] are not read. *)
Lemma affine_loop_returns :
  np.shape X = [m; f] -> n <= m ->
  exists V',
    for_range n (Input.forward_body self) st = Returns tt (set_array st o V') /\
    np.shape V' = [n; k] /\ np.wf V' /\
    forall i j, i < n -> j < k ->
      at_ V' [i; j] = (np.sum_upto f (fun c => at_ X [i; c] * at_ W [i; c; j])
                       + at_ B [i; j])%R.
Proof.
  intros HXs Hnm. pose proof affine_loop_refines' as Hloop.
  destruct (run_rows_shaped (fun i => result (Input.row self i st)) V n [k] (seq 0 n))
    as (V' & Hrun & Hs' & Hw' & Hin & _); [done|done|apply NoDup_seq| |].
  { intros i [_ Hi]%elem_of_seq. split; [lia|].
    destruct (Input_row_returns st self xl wl bl m n f k X W B) with (i := i)
      as (r & Hr & Hrs & Hrw & _); try done; try lia.
    exists r. by rewrite Hr. }
  rewrite Hrun in Hloop. exists V'. split_and!; [done..|].
  intros i j Hi Hj.
  destruct (Hin i) as (r & Hr & Hget); [apply elem_of_seq; lia|].
  destruct (Input_row_returns st self xl wl bl m n f k X W B) with (i := i)
    as (r' & Hr' & _ & _ & Hat); try done; try lia.
  rewrite Hr' in Hr. simpl in Hr. injection Hr as <-.
  rewrite <- (getitem_at V' i _ [j] Hget). by apply Hat.
Qed.


End affine_loop.

(** * Softmax and CrossEntropy: the rows *)

Lemma subscript_returns st l a i r :
  arrays st !! l = Some a -> np.getitem a i = Ok r ->
  subscript (VArr l) i st = Returns r st.
Proof.
  intros Ha Hr. unfold subscript, load, mbind, M_bind. rewrite Ha. simpl. by rewrite Hr.
Qed.

Lemma shape_unop f a : np.shape (np.unop f a) = np.shape a.
Proof. done. Qed.

(** [_softmax] of a vector. *)
Lemma softmax_vector x k :
  np.shape x = [k] -> np.wf x ->
  exists r, Softmax._softmax x = Ok r /\ np.shape r = [k] /\ np.wf r /\
    forall j, j < k ->
      at_ r [j] = (exp (at_ x [j]) / np.sum_upto k (fun c => exp (at_ x [c])))%R.
Proof.
  intros Hs Hw. unfold Softmax._softmax, np.sum_axis0.
  change (np.shape (np.exp x)) with (np.shape x). rewrite Hs. cbn [mbind res_bind].
  set (s := np.mk [] _).
  assert (np.shape s = []) as Hss by done.
  assert (np.wf s) as Hsw by (apply fits_build).
  assert (np.shape (np.exp x) = [k]) as Hes by done.
  destruct (binop_vector_scalar Rdiv (np.exp x) s k Hes Hss Hsw)
    as (r & Hr & Hrs & Hrw & Hrat).
  exists r. split_and!; [done..|].
  intros j Hj. rewrite Hrat by done. f_equal.
  - unfold np.exp. rewrite at_unop; [done|done|]. rewrite Hs. by repeat constructor.
  - unfold s, at_. cbn [np.elems]. rewrite build_nil.
    rewrite index_Leaf. apply sum_upto_ext. intros c Hc.
    change (np.index (np.elems (np.exp x)) [c]) with (at_ (np.exp x) [c]).
    unfold np.exp. rewrite at_unop; [done|done|]. rewrite Hs. by repeat constructor.
Qed.

Lemma sum_upto_2 g : np.sum_upto 2 g = (g 0%nat + (g 1%nat + 0))%R.
Proof. reflexivity. Qed.

Lemma sum_upto_1 g : np.sum_upto 1 g = (g 0%nat + 0)%R.
Proof. reflexivity. Qed.

(** The cross entropy of one sample. *)
Lemma cross_entropy_row y p k :
  np.shape y = [k] -> np.wf y -> np.shape p = [k] -> np.wf p ->
  exists m, np.multiply y (np.log p) = Ok m /\
    np.shape (np.negative (np.sum m)) = [] /\ np.wf (np.negative (np.sum m)) /\
    at_ (np.negative (np.sum m)) []
      = (- np.sum_upto k (fun c => at_ y [c] * ln (at_ p [c])))%R.
Proof.
  intros Hys Hyw Hps Hpw.
  assert (np.shape (np.log p) = [k]) as Hls by done.
  destruct (binop_same Rmult y (np.log p) [k] Hys Hls) as (m & Hm & Hms & Hmw & Hmat).
  exists m. split_and!; [done|done|by eexists|].
  unfold np.negative, np.sum, np.scalar, np.unop, at_. cbn [np.elems np.tmap].
  rewrite index_Leaf. f_equal.
  rewrite (flatten_vector m k Hms Hmw). unfold np.sum_upto. f_equal.
  apply map_ext_in. intros c Hc%in_seq.
  rewrite Hmat by (repeat constructor; lia). f_equal.
  unfold np.log. rewrite at_unop; [done|done|]. rewrite Hps. repeat constructor. lia.
Qed.

(** [np.mean] of a vector. *)
Lemma mean_vector a n :
  np.shape a = [n] -> np.wf a ->
  np.shape (np.mean a) = [] /\ np.wf (np.mean a) /\
  at_ (np.mean a) [] = (np.sum_upto n (fun i => at_ a [i]) / INR n)%R.
Proof.
  intros Hs Hw. split_and!; [done|by eexists|].
  unfold np.mean, np.scalar, at_. cbn [np.elems]. rewrite index_Leaf.
  rewrite (flatten_vector a n Hs Hw). unfold np.sum_upto.
  by rewrite length_map, length_seq.
Qed.

(** * The forward passes: what they leave in the store *)

Lemma set_array_lookup st o a l :
  o < length (arrays st) ->
  arrays (set_array st o a) !! l = if decide (l = o) then Some a else arrays st !! l.
Proof.
  intros Ho. unfold set_array. simpl. case_decide as Hl.
  - subst. by apply list_lookup_insert_eq.
  - by apply list_lookup_insert_ne.
Qed.

Lemma set_attr_same st n name v :
  attr_of st n name = Some v -> set_attr st n name v = st.
Proof.
  unfold attr_of, set_attr. destruct (layers st !! n) as [l|] eqn:Hl; [|done].
  simpl. intros Hv. destruct st as [ls ars]. simpl in *. f_equal.
  apply list_insert_id. rewrite Hl. f_equal. destruct l as [c i ob at0].
  unfold with_attr. simpl in *. f_equal. symmetry. by apply insert_id.
Qed.

(** ** Affine layers *)

Lemma affine_forward_spec st self src name o n f k V X W B :
  (class_of st self CInput /\ src = self /\ name = "X" \/
   class_of st self CHidden /\ input_of st self = Some src /\ name = "value") ->
  attr_of st self "num_images" = Some (VInt n) ->
  attr_of st self "value" = Some (VArr o) ->
  arrays st !! o = Some V -> np.shape V = [n; k] -> np.wf V ->
  array_at st src name X [n; f] ->
  array_at st self "W" W [n; f; k] ->
  array_at st self "biases" B [n; k] ->
  attr_of st src name ≠ Some (VArr o) ->
  attr_of st self "W" ≠ Some (VArr o) ->
  attr_of st self "biases" ≠ Some (VArr o) ->
  exists V',
    forward self st
      = Returns tt (set_array (set_attr st self "X" (default VNone (attr_of st src name)))
                              o V') /\
    np.shape V' = [n; k] /\ np.wf V' /\
    forall i j, i < n -> j < k ->
      at_ V' [i; j] = (np.sum_upto f (fun c => at_ X [i; c] * at_ W [i; c; j])
                       + at_ B [i; j])%R.
Proof.
  intros Hcls Hn Hv HVa HVs HVw (xl & HX & HXa & HXs & HXw) (wl & HW & HWa & HWs & HWw)
    (bl & HB & HBa & HBs & HBw) Hxo Hwo Hbo.
  rewrite HX. change (default VNone (Some (VArr xl))) with (VArr xl).
  assert (self < length (layers st)) as Hlt by (by eapply attr_of_allocated).
  destruct (lookup_lt_is_Some_2 _ _ Hlt) as [l Hl].
  set (st1 := set_attr st self "X" (VArr xl)).
  assert (arrays st1 = arrays st) as Harr.
  { unfold st1, set_attr. by rewrite Hl. }
  assert (forall nm, nm ≠ "X" -> attr_of st1 self nm = attr_of st self nm) as Hother.
  { intros nm Hnm. unfold st1. rewrite attr_of_set_attr by done.
    rewrite decide_False; [done|tauto]. }
  assert (attr_of st1 self "X" = Some (VArr xl)) as HX1.
  { unfold st1. rewrite attr_of_set_attr by done. by rewrite decide_True. }
  assert (xl ≠ o /\ wl ≠ o /\ bl ≠ o) as (Hxo' & Hwo' & Hbo').
  { split_and!; congruence. }
  assert (attr_of st1 self "value" = Some (VArr o)) as Hv1 by (by rewrite Hother).
  assert (attr_of st1 self "W" = Some (VArr wl)) as HW1 by (by rewrite Hother).
  assert (attr_of st1 self "biases" = Some (VArr bl)) as HB1 by (by rewrite Hother).
  rewrite <- Harr in HVa, HXa, HWa, HBa.
  destruct (affine_loop_returns st1 self o xl wl bl n n f k V X W B
              Hv1 HX1 HW1 HB1 HVa HXa HWa HBa HVs HWs HBs HVw HXw HWw HBw
              Hxo' Hwo' Hbo' HXs (le_n n))
    as (V' & Hrun & Hs' & Hw' & Hat).
  exists V'. split_and!; [|done..].
  unfold forward.
  destruct Hcls as [((l' & Hl' & Hc) & -> & ->)|((l' & Hl' & Hc) & Hp & ->)];
    assert (l' = l) as -> by congruence;
    rewrite (bind_returns _ _ _ _ _ (get_layer_returns _ _ _ Hl)), Hc.
  - unfold Input.forward. rewrite (bind_returns _ _ _ _ _ (get_int_eq _ _ _ _ Hn)).
    subst st1. rewrite (set_attr_same _ _ _ _ HX) in Hrun |- *. exact Hrun.
  - unfold Hidden.forward.
    rewrite (bind_returns _ _ _ _ _ (getattr_input_eq _ _ _ _ _ Hp HX)).
    rewrite (bind_returns _ _ _ _ _ (setattr_eq _ _ _ _ _ Hl)). fold st1.
    assert (attr_of st1 self "num_images" = Some (VInt n)) as Hn1 by (by rewrite Hother).
    by rewrite (bind_returns _ _ _ _ _ (get_int_eq _ _ _ _ Hn1)).
Qed.

(** ** Softmax *)

Lemma Softmax_forward_spec st self p o n k V P :
  class_of st self CSoftmax ->
  input_of st self = Some p ->
  attr_of st self "num_images" = Some (VInt n) ->
  attr_of st self "value" = Some (VArr o) ->
  arrays st !! o = Some V -> np.shape V = [n; k] -> np.wf V ->
  array_at st p "value" P [n; k] ->
  attr_of st p "value" ≠ Some (VArr o) ->
  exists V',
    forward self st = Returns tt (set_array st o V') /\
    np.shape V' = [n; k] /\ np.wf V' /\
    forall i j, i < n -> j < k ->
      at_ V' [i; j]
        = (exp (at_ P [i; j]) / np.sum_upto k (fun c => exp (at_ P [i; c])))%R.
Proof.
  intros Hcls Hp Hn Hv HVa HVs HVw (pl & HP & HPa & HPs & HPw) Hsep.
  pose proof (Softmax_forward_refines self st p (VArr pl) n o V Hcls Hp HP Hn Hv HVa)
    as Href.
  specialize (Href ltac:(congruence)).
  assert (forall i, i < n -> exists r,
    Softmax.row (VArr pl) i st = Returns r st /\ np.shape r = [k] /\ np.wf r /\
    forall j, j < k ->
      at_ r [j] = (exp (at_ P [i; j]) / np.sum_upto k (fun c => exp (at_ P [i; c])))%R)
    as Hrow.
  { intros i Hi.
    destruct (getitem_row P n [k] i HPs HPw Hi) as (xi & Hxi & Hxs & Hxw & Hxat).
    destruct (softmax_vector xi k Hxs Hxw) as (r & Hr & Hrs & Hrw & Hrat).
    exists r. split_and!; [|done..|].
    - unfold Softmax.row.
      rewrite (bind_returns _ _ _ _ _ (subscript_returns _ _ _ _ _ HPa Hxi)).
      by rewrite Hr.
    - intros j Hj. rewrite Hrat, Hxat by done. f_equal.
      apply sum_upto_ext. intros c Hc. by rewrite Hxat. }
  destruct (run_rows_shaped (fun i => result (Softmax.row (VArr pl) i st)) V n [k] (seq 0 n))
    as (V' & Hrun & Hs' & Hw' & Hin & _); [done|done|apply NoDup_seq| |].
  { intros i [_ Hi]%elem_of_seq. split; [lia|].
    destruct (Hrow i) as (r & Hr & Hrs & Hrw & _); [lia|].
    exists r. by rewrite Hr. }
  rewrite Hrun in Href. exists V'. split_and!; [done..|].
  intros i j Hi Hj.
  destruct (Hin i) as (r & Hr & Hget); [apply elem_of_seq; lia|].
  destruct (Hrow i Hi) as (r' & Hr' & _ & _ & Hat).
  rewrite Hr' in Hr. simpl in Hr. injection Hr as <-.
  rewrite <- (getitem_at V' i _ [j] Hget). by apply Hat.
Qed.

(** ** CrossEntropy *)

Lemma CrossEntropy_forward_spec st self p o n k T P Y :
  class_of st self CCrossEntropy ->
  input_of st self = Some p ->
  attr_of st self "num_images" = Some (VInt n) ->
  attr_of st self "tmp_value" = Some (VArr o) ->
  arrays st !! o = Some T -> np.shape T = [n] -> np.wf T ->
  array_at st p "value" P [n; k] ->
  array_at st self "ideal_output" Y [n; k] ->
  attr_of st p "value" ≠ Some (VArr o) ->
  attr_of st self "ideal_output" ≠ Some (VArr o) ->
  exists T',
    forward self st
      = Returns tt (CrossEntropy_done
                      (set_attr st self "softmax" (default VNone (attr_of st p "value")))
                      self o T') /\
    np.shape T' = [n] /\ np.wf T' /\
    forall i, i < n ->
      at_ T' [i] = (- np.sum_upto k (fun c => at_ Y [i; c] * ln (at_ P [i; c])))%R.
Proof.
  intros Hcls Hp Hn Hv HTa HTs HTw (pl & HP & HPa & HPs & HPw)
    (yl & HY & HYa & HYs & HYw) Hsep Hysep.
  rewrite HP. change (default VNone (Some (VArr pl))) with (VArr pl).
  pose proof (CrossEntropy_forward_refines self st p (VArr pl) n o T Hcls Hp HP Hn Hv HTa)
    as Href.
  specialize (Href ltac:(congruence) Hysep). cbv zeta in Href.
  set (st1 := set_attr st self "softmax" (VArr pl)) in *.
  assert (self < length (layers st)) as Hlt by (by eapply attr_of_allocated).
  destruct (lookup_lt_is_Some_2 _ _ Hlt) as [l Hl].
  assert (arrays st1 = arrays st) as Harr.
  { unfold st1, set_attr. by rewrite Hl. }
  assert (attr_of st1 self "ideal_output" = Some (VArr yl)) as HY1.
  { unfold st1. rewrite attr_of_set_attr by done. by rewrite decide_False by (by intros [_ ?]). }
  assert (attr_of st1 self "softmax" = Some (VArr pl)) as HP1.
  { unfold st1. rewrite attr_of_set_attr by done. by rewrite decide_True. }
  assert (forall i, i < n -> exists r,
    CrossEntropy.row self i st1 = Returns r st1 /\ np.shape r = [] /\ np.wf r /\
    at_ r [] = (- np.sum_upto k (fun c => at_ Y [i; c] * ln (at_ P [i; c])))%R)
    as Hrow.
  { intros i Hi.
    destruct (getitem_row P n [k] i HPs HPw Hi) as (pi & Hpi & Hps & Hpw & Hpat).
    destruct (getitem_row Y n [k] i HYs HYw Hi) as (yi & Hyi & Hys & Hyw & Hyat).
    destruct (cross_entropy_row yi pi k Hys Hyw Hps Hpw) as (m & Hm & Hrs & Hrw & Hrat).
    exists (np.negative (np.sum m)). split_and!; [|done..|].
    - unfold CrossEntropy.row. rewrite <- Harr in HYa, HPa.
      rewrite (bind_returns _ _ _ _ _ (attr_item_returns _ _ _ _ _ _ _ HY1 HYa Hyi)).
      rewrite (bind_returns _ _ _ _ _ (attr_item_returns _ _ _ _ _ _ _ HP1 HPa Hpi)).
      by rewrite Hm.
    - rewrite Hrat. f_equal. apply sum_upto_ext. intros c Hc. by rewrite Hyat, Hpat. }
  destruct (run_rows_shaped (fun i => result (CrossEntropy.row self i st1)) T n [] (seq 0 n))
    as (T' & Hrun & Hs' & Hw' & Hin & _); [done|done|apply NoDup_seq| |].
  { intros i [_ Hi]%elem_of_seq. split; [lia|].
    destruct (Hrow i) as (r & Hr & Hrs & Hrw & _); [lia|].
    exists r. by rewrite Hr. }
  rewrite Hrun in Href. exists T'. split_and!; [done..|].
  intros i Hi.
  destruct (Hin i) as (r & Hr & Hget); [apply elem_of_seq; lia|].
  destruct (Hrow i Hi) as (r' & Hr' & _ & _ & Hat).
  rewrite Hr' in Hr. simpl in Hr. injection Hr as <-.
  by rewrite <- (getitem_at T' i _ [] Hget).
Qed.

(** * The update of one trainable *)



Lemma shape_of_returns st l a :
  arrays st !! l = Some a -> shape_of (VArr l) st = Returns (np.shape a) st.
Proof. intros Ha. unfold shape_of, load, mbind, M_bind. by rewrite Ha. Qed.

Lemma load_returns st l a : arrays st !! l = Some a -> load l st = Returns a st.
Proof. intros H. unfold load. by rewrite H. Qed.

Lemma store_returns st l a b :
  arrays st !! l = Some a -> store l b st = Returns tt (set_array st l b).
Proof. intros H. unfold store. by rewrite H. Qed.

Lemma item_returns {A} (t : list A) k x st : t !! k = Some x -> item t k st = Returns x st.
Proof. intros H. unfold item. by rewrite H. Qed.

Section update.
Context (st : state) (trainables partials : list pyval) (learning_rate : R)
        (n lt lp : nat) (T G : np.ndarray).
Hypothesis Ht : trainables !! n = Some (VArr lt).
Hypothesis Hp : partials !! n = Some (VArr lp).
Hypothesis HT : arrays st !! lt = Some T.
Hypothesis HG : arrays st !! lp = Some G.

Lemma update_shapes :
  update trainables partials learning_rate n st
  = (if decide (np.shape T = np.shape G)
     then t ← item trainables n;
          p ← item partials n;
          match t, p with
          | VArr lt, VArr lp =>
              ap ← load lp;
              d ← lift (np.multiply (np.scalar learning_rate) ap);
              at_ ← load lt;
              r ← lift (np.isub at_ d);
              store lt r
          | _, _ => raise TypeError
          end
     else mret tt) st.
Proof.
  unfold update.
  assert ((item trainables n ≫= shape_of) st = Returns (np.shape T) st) as H1.
  { rewrite (bind_returns _ _ _ _ _ (item_returns _ _ _ _ Ht)). by apply shape_of_returns. }
  assert ((item partials n ≫= shape_of) st = Returns (np.shape G) st) as H2.
  { rewrite (bind_returns _ _ _ _ _ (item_returns _ _ _ _ Hp)). by apply shape_of_returns. }
  rewrite (bind_returns _ _ _ _ _ H1). by rewrite (bind_returns _ _ _ _ _ H2).
Qed.


(** Different shapes: the turn does nothing and raises nothing. *)
Lemma update_skip :
  np.shape T ≠ np.shape G ->
  update trainables partials learning_rate n st = Returns tt st.
Proof. intros Hsh. by rewrite update_shapes, decide_False. Qed.
End update.

(** A trainable without a harvested gradient: [partials[n]] is an
    [IndexError]. *)
Lemma update_no_partial st trainables partials learning_rate n lt T :
  trainables !! n = Some (VArr lt) -> arrays st !! lt = Some T ->
  length partials <= n ->
  update trainables partials learning_rate n st = Raises IndexError st.
Proof.
  intros Ht HT Hn. unfold update.
  assert ((item trainables n ≫= shape_of) st = Returns (np.shape T) st) as H1.
  { rewrite (bind_returns _ _ _ _ _ (item_returns _ _ _ _ Ht)). by apply shape_of_returns. }
  rewrite (bind_returns _ _ _ _ _ H1).
  apply bind_raises. apply bind_raises. unfold item.
  by rewrite (proj2 (lookup_ge_None partials n)).
Qed.

(** * The backward pass of the affine layers *)

(** [self.name[i] = r] for a row [r] of the right shape. *)
Lemma assign_row s self name l A d sh i r :
  attr_of s self name = Some (VArr l) -> arrays s !! l = Some A ->
  np.shape A = d :: sh -> np.wf A -> i < d -> np.shape r = sh -> np.wf r ->
  exists A',
    (v ← getattr self name; assign_item v i r) s = Returns tt (set_array s l A') /\
    np.shape A' = d :: sh /\ np.wf A' /\ np.getitem A' i = Ok r /\
    forall j, j ≠ i -> np.getitem A' j = np.getitem A j.
Proof.
  intros Hv Ha Hsh Hwf Hi Hrs Hrw.
  destruct (setitem_row A d sh i r Hsh Hwf Hi Hrs Hrw) as (A' & Hset & Hs' & Hw' & Hget & Hoth).
  exists A'. split_and!; [|done..].
  rewrite (bind_returns _ _ _ _ _ (attr_of_getattr _ _ _ _ Hv)).
  unfold assign_item.
  rewrite (bind_returns _ _ _ _ _ (load_returns _ _ _ Ha)).
  rewrite Hset, bind_lift_ok. by eapply store_returns.
Qed.

Lemma set_array_length st o a : length (arrays (set_array st o a)) = length (arrays st).
Proof. unfold set_array. cbn [arrays]. apply length_insert. Qed.

Ltac set_array_lookup :=
  repeat match goal with x := set_array _ _ _ |- _ => progress unfold x end;
  rewrite !set_array_lookup by (rewrite ?set_array_length; done);
  repeat first [rewrite decide_True by done | rewrite decide_False by done].

Lemma getitem_same_at A A' d sh j idx :
  np.shape A = d :: sh -> np.wf A -> j < d ->
  np.getitem A' j = np.getitem A j -> at_ A' (j :: idx) = at_ A (j :: idx).
Proof.
  intros Hsh Hwf Hj E.
  destruct (getitem_row A d sh j Hsh Hwf Hj) as (r & Hr & _ & _ & Hat).
  rewrite Hr in E. by rewrite <- (getitem_at A' j r idx E), Hat.
Qed.

Lemma for_range_inv (P : nat -> state -> Prop) n body st :
  P 0 st ->
  (forall i s, i < n -> P i s -> exists s', body i s = Returns tt s' /\ P (S i) s') ->
  exists s', for_range n body st = Returns tt s' /\ P n s'.
Proof.
  unfold for_range. intros H0 Hstep.
  assert (forall k m s, k + m = n -> P k s ->
            exists s', for_each (seq k m) body s = Returns tt s' /\ P n s') as Hgen.
  { intros k m. revert k. induction m as [|m IH]; intros k s Hk Hs.
    - exists s. split; [done|]. by replace n with k by lia.
    - cbn [seq for_each]. destruct (Hstep k s) as (s1 & Hb & Hs1); [lia|done|].
      rewrite (bind_returns _ _ _ _ _ Hb). apply IH; [lia|done]. }
  by apply (Hgen 0 n st).
Qed.

Section backward.
Context (self wl bl gl wgl bgl ol n f k : nat) (W B Gin : np.ndarray).
Hypothesis HWs : np.shape W = [n; f; k].
Hypothesis HBs : np.shape B = [n; k].
Hypothesis HGs : np.shape Gin = [n; k].
Hypothesis HWw : np.wf W.
Hypothesis HBw : np.wf B.
Hypothesis HGw : np.wf Gin.
Hypothesis Hout : NoDup [wgl; bgl; ol].
Hypothesis Hin : forall x, x ∈ [wl; bl; gl] -> x ∉ [wgl; bgl; ol].

#[local] Abbreviation bound := (bound self wl bl gl wgl bgl ol n f W B Gin).
#[local] Abbreviation row_done := (row_done f k W B Gin).

Lemma distinct_locs :
  wl ≠ wgl /\ wl ≠ bgl /\ wl ≠ ol /\ bl ≠ wgl /\ bl ≠ bgl /\ bl ≠ ol /\
  gl ≠ wgl /\ gl ≠ bgl /\ gl ≠ ol /\ wgl ≠ bgl /\ wgl ≠ ol /\ bgl ≠ ol.
Proof.
  apply NoDup_cons in Hout as (H1 & (H2 & _)%NoDup_cons).
  pose proof (Hin wl) as Hw. pose proof (Hin bl) as Hb. pose proof (Hin gl) as Hg.
  set_solver.
Qed.

Lemma backward_body_step s Wg Bg Go i :
  bound s Wg Bg Go -> i < n ->
  exists Wg' Bg' Go',
    Input.backward_body self i s
      = Returns tt (set_array (set_array (set_array s wgl Wg') bgl Bg') ol Go') /\
    bound (set_array (set_array (set_array s wgl Wg') bgl Bg') ol Go') Wg' Bg' Go' /\
    row_done Wg' Bg' Go' i /\
    forall j idx, j ≠ i -> j < n ->
      at_ Wg' (j :: idx) = at_ Wg (j :: idx) /\
      at_ Bg' (j :: idx) = at_ Bg (j :: idx) /\
      at_ Go' (j :: idx) = at_ Go (j :: idx).
Proof.
  intros [bound_W0 bound_b0 bound_g0 bound_Wg0 bound_bg0 bound_o0 bound_Wa0 bound_ba0
            bound_ga0 bound_Wga0 bound_bga0 bound_oa0 bound_Wgs0 bound_bgs0 bound_os0
            bound_Wgw0 bound_bgw0 bound_ow0] Hi.
  destruct distinct_locs as (D1 & D2 & D3 & D4 & D5 & D6 & D7 & D8 & D9 & D10 & D11 & D12).
  assert (wgl < length (arrays s)) as Lwg by (by eapply lookup_lt_Some).
  assert (bgl < length (arrays s)) as Lbg by (by eapply lookup_lt_Some).
  assert (ol < length (arrays s)) as Lo by (by eapply lookup_lt_Some).
  destruct (getitem_row W n [f; k] i HWs HWw Hi) as (wi & Hwi & Hwis & Hwiw & Hwat).
  destruct (getitem_row Gin n [k] i HGs HGw Hi) as (gi & Hgi & Hgis & Hgiw & Hgat).
  destruct (getitem_row B n [k] i HBs HBw Hi) as (bi & Hbi & Hbis & Hbiw & Hbat).
  (* W_gradients[i] = np.dot(W[i], input_gradients[i]) *)
  destruct (dot_matrix_vector wi gi f k Hwis Hgis) as (r1 & Hr1 & Hr1s & Hr1w & Hr1at).
  destruct (assign_row s self "W_gradients" wgl Wg n [f] i r1)
    as (Wg' & Hrun1 & Hs1 & Hw1 & Hget1 & Hoth1); try done.
  set (s1 := set_array s wgl Wg') in *.
  (* b_gradients[i] = np.dot(input_gradients[i], biases[i]) *)
  destruct (dot_vector_vector gi bi k Hgis Hbis) as (r2 & Hr2 & Hr2s & Hr2w & Hr2at).
  assert (arrays s1 !! bgl = Some Bg) as Hbg1.
  { unfold s1. by set_array_lookup. }
  destruct (assign_row s1 self "b_gradients" bgl Bg n [] i r2)
    as (Bg' & Hrun2 & Hs2 & Hw2 & Hget2 & Hoth2); try done.
  set (s2 := set_array s1 bgl Bg') in *.
  (* gradients[i] = W_gradients[i] * b_gradients[i] *)
  destruct (binop_vector_scalar Rmult r1 r2 f Hr1s Hr2s Hr2w)
    as (r3 & Hr3 & Hr3s & Hr3w & Hr3at).
  assert (arrays s2 !! ol = Some Go) as Ho2.
  { unfold s2, s1. by set_array_lookup. }
  destruct (assign_row s2 self "gradients" ol Go n [f] i r3)
    as (Go' & Hrun3 & Hs3 & Hw3 & Hget3 & Hoth3); try done.
  set (s3 := set_array s2 ol Go') in *.
  assert (forall l, l ≠ wgl -> l ≠ bgl -> l ≠ ol -> arrays s3 !! l = arrays s !! l) as Hframe.
  { intros l ? ? ?. unfold s3, s2, s1.
    by set_array_lookup. }
  assert (arrays s1 !! wgl = Some Wg') as Hwg1.
  { unfold s1. by set_array_lookup. }
  assert (arrays s2 !! wgl = Some Wg') as Hwg2.
  { unfold s2. by set_array_lookup. }
  assert (arrays s2 !! bgl = Some Bg') as Hbg2.
  { unfold s2. by set_array_lookup. }
  exists Wg', Bg', Go'. split_and!.
  - unfold Input.backward_body.
    rewrite (bind_returns _ _ _ _ _ (attr_item_returns _ _ _ _ _ _ _ bound_W0 bound_Wa0 Hwi)).
    rewrite (bind_returns _ _ _ _ _ (attr_item_returns _ _ _ _ _ _ _ bound_g0 bound_ga0 Hgi)).
    rewrite Hr1, bind_lift_ok.
    assert ((getattr self "W_gradients" ≫= fun v => assign_item v i r1) s
            = Returns tt s1) as E1 by exact Hrun1.
    etrans; [|exact (eq_refl _)].
    change (Input.backward_body self i s) with (Input.backward_body self i s).
    (* the three assignments in turn *)
    assert (forall K : M unit,
      (v ← getattr self "W_gradients"; _ ← assign_item v i r1; K) s = K s1) as Hk1.
    { intros K. rewrite (bind_returns _ _ _ _ _ (attr_of_getattr _ _ _ _ bound_Wg0)).
      rewrite (bind_returns _ _ _ _ _ (attr_of_getattr _ _ _ _ bound_Wg0)) in E1.
      by rewrite (bind_returns _ _ _ _ _ E1). }
    rewrite Hk1.
    assert (arrays s1 !! gl = Some Gin) as Hg1.
    { unfold s1. by set_array_lookup. }
    assert (arrays s1 !! bl = Some B) as Hb1.
    { unfold s1. by set_array_lookup. }
    rewrite (bind_returns _ _ _ _ _
               (attr_item_returns s1 _ _ _ _ _ _ bound_g0 Hg1 Hgi)).
    rewrite (bind_returns _ _ _ _ _
               (attr_item_returns s1 _ _ _ _ _ _ bound_b0 Hb1 Hbi)).
    rewrite Hr2, bind_lift_ok.
    assert (forall K : M unit,
      (v ← getattr self "b_gradients"; _ ← assign_item v i r2; K) s1 = K s2) as Hk2.
    { intros K.
      assert (attr_of s1 self "b_gradients" = Some (VArr bgl)) as Hb by done.
      rewrite (bind_returns _ _ _ _ _ (attr_of_getattr _ _ _ _ Hb)).
      rewrite (bind_returns _ _ _ _ _ (attr_of_getattr _ _ _ _ Hb)) in Hrun2.
      by rewrite (bind_returns _ _ _ _ _ Hrun2). }
    rewrite Hk2.
    assert (attr_of s2 self "W_gradients" = Some (VArr wgl)) as HWg2 by done.
    assert (attr_of s2 self "b_gradients" = Some (VArr bgl)) as HBg2 by done.
    rewrite (bind_returns _ _ _ _ _
               (attr_item_returns s2 _ _ _ _ _ _ HWg2 Hwg2 Hget1)).
    rewrite (bind_returns _ _ _ _ _
               (attr_item_returns s2 _ _ _ _ _ _ HBg2 Hbg2 Hget2)).
    change (np.multiply r1 r2) with (np.binop Rmult r1 r2).
    rewrite Hr3, bind_lift_ok. exact Hrun3.
  - split; try done.
    + rewrite Hframe; done.
    + rewrite Hframe; done.
    + rewrite Hframe; done.
    + unfold s3. by set_array_lookup.
    + unfold s3. by set_array_lookup.
    + unfold s3. by set_array_lookup.
  - split_and!.
    + intros a Ha. rewrite <- (getitem_at Wg' i r1 [a] Hget1), Hr1at by done.
      apply sum_upto_ext. intros c Hc. by rewrite Hwat, Hgat.
    + rewrite <- (getitem_at Bg' i r2 [] Hget2), Hr2at.
      apply sum_upto_ext. intros c Hc. by rewrite Hgat, Hbat.
    + intros a Ha. rewrite <- (getitem_at Go' i r3 [a] Hget3), Hr3at by done.
      by rewrite <- (getitem_at Wg' i r1 [a] Hget1), <- (getitem_at Bg' i r2 [] Hget2).
  - intros j idx Hj Hjn. split_and!.
    + eapply getitem_same_at; [done..|]. by apply Hoth1.
    + eapply getitem_same_at; [done..|]. by apply Hoth2.
    + eapply getitem_same_at; [done..|]. by apply Hoth3.
Qed.

(** The loop of [backward]: every row of the three buffers is written. *)
Lemma backward_loop s Wg Bg Go :
  bound s Wg Bg Go ->
  exists s' Wg' Bg' Go',
    for_range n (Input.backward_body self) s = Returns tt s' /\
    layers s' = layers s /\
    bound s' Wg' Bg' Go' /\ forall i, i < n -> row_done Wg' Bg' Go' i.
Proof.
  intros Hb.
  destruct (for_range_inv
    (fun m s' => layers s' = layers s /\
       exists Wg' Bg' Go', bound s' Wg' Bg' Go' /\
         forall i, i < m -> row_done Wg' Bg' Go' i)
    n (Input.backward_body self) s) as (s' & Hrun & Hl & Wg' & Bg' & Go' & Hb' & Hrows).
  - split; [done|]. exists Wg, Bg, Go. split; [done|]. intros i Hi. lia.
  - intros i s1 Hi (Hl & Wg1 & Bg1 & Go1 & Hb1 & Hrows).
    destruct (backward_body_step s1 Wg1 Bg1 Go1 i Hb1 Hi)
      as (Wg2 & Bg2 & Go2 & Hrun & Hb2 & Hrow & Hkeep).
    eexists. split; [exact Hrun|]. split; [exact Hl|].
    exists Wg2, Bg2, Go2. split; [done|]. intros j Hj.
    destruct (decide (j = i)) as [->|Hne]; [done|].
    assert (j < i) as Hji by lia. destruct (Hrows j Hji) as (R1 & R2 & R3).
    assert (j < n) as Hjn by lia.
    split_and!.
    + intros a Ha. destruct (Hkeep j [a] Hne Hjn) as (-> & _ & _). by apply R1.
    + destruct (Hkeep j [] Hne Hjn) as (_ & -> & _). exact R2.
    + intros a Ha. destruct (Hkeep j [a] Hne Hjn) as (-> & _ & ->).
      destruct (Hkeep j [] Hne Hjn) as (_ & -> & _). by apply R3.
  - by exists s', Wg', Bg', Go'.
Qed.
End backward.

(** [backward] of an [Input] or a [Hidden] layer whose first successor is
    [succ]: for every sample [i],
    [W_gradients[i] = np.dot(W[i], g[i])],
    [b_gradients[i] = np.dot(g[i], biases[i])] and
    [gradients[i] = W_gradients[i] * b_gradients[i]], with [g] the array
    [succ.gradients]. *)
Lemma affine_backward_spec st self succ wl bl gl wgl bgl ol n f k W B Gin Wg Bg Go :
  class_of st self CInput \/ class_of st self CHidden ->
  succs st self !! 0 = Some succ ->
  attr_of st succ "gradients" = Some (VArr gl) ->
  attr_of st self "num_images" = Some (VInt n) ->
  attr_of st self "W" = Some (VArr wl) ->
  attr_of st self "biases" = Some (VArr bl) ->
  attr_of st self "W_gradients" = Some (VArr wgl) ->
  attr_of st self "b_gradients" = Some (VArr bgl) ->
  attr_of st self "gradients" = Some (VArr ol) ->
  arrays st !! wl = Some W -> arrays st !! bl = Some B -> arrays st !! gl = Some Gin ->
  arrays st !! wgl = Some Wg -> arrays st !! bgl = Some Bg -> arrays st !! ol = Some Go ->
  np.shape W = [n; f; k] -> np.shape B = [n; k] -> np.shape Gin = [n; k] ->
  np.shape Wg = [n; f] -> np.shape Bg = [n] -> np.shape Go = [n; f] ->
  np.wf W -> np.wf B -> np.wf Gin -> np.wf Wg -> np.wf Bg -> np.wf Go ->
  NoDup [wgl; bgl; ol] ->
  (forall x, x ∈ [wl; bl; gl] -> x ∉ [wgl; bgl; ol]) ->
  exists st' Wg' Bg' Go',
    backward self st = Returns tt st' /\
    wiring st' = wiring st /\
    bound self wl bl gl wgl bgl ol n f W B Gin st' Wg' Bg' Go' /\
    forall i, i < n -> row_done f k W B Gin Wg' Bg' Go' i.
Proof.
  intros Hcls Hsucc Hg Hn HW HB HWg HBg HO HWa HBa HGa HWga HBga HOa
    HWs HBs HGs HWgs HBgs HOs HWw HBw HGw HWgw HBgw HOw Hout Hin.
  assert (self < length (layers st)) as Hlt by (by eapply attr_of_allocated).
  destruct (lookup_lt_is_Some_2 _ _ Hlt) as [l Hl].
  set (st1 := set_attr st self "input_gradients" (VArr gl)).
  assert (arrays st1 = arrays st) as Harr.
  { unfold st1, set_attr. by rewrite Hl. }
  assert (forall nm, nm ≠ "input_gradients" -> attr_of st1 self nm = attr_of st self nm)
    as Hother.
  { intros nm Hnm. unfold st1. rewrite attr_of_set_attr by done.
    rewrite decide_False; [done|tauto]. }
  assert (attr_of st1 self "input_gradients" = Some (VArr gl)) as Hg1.
  { unfold st1. rewrite attr_of_set_attr by done. by rewrite decide_True. }
  assert (bound self wl bl gl wgl bgl ol n f W B Gin st1 Wg Bg Go) as Hb.
  { split; rewrite ?Harr; rewrite ?Hother by done; done. }
  destruct (backward_loop self wl bl gl wgl bgl ol n f k W B Gin
              HWs HBs HGs HWw HBw HGw Hout Hin st1 Wg Bg Go Hb)
    as (st' & Wg' & Bg' & Go' & Hrun & Hlay & Hb' & Hrows).
  exists st', Wg', Bg', Go'. split_and!; [|..|done|done].
  - assert (Input.backward self st = Returns tt st') as Hrun'.
    { unfold Input.backward.
      rewrite (bind_returns _ _ _ _ _ (get_layer_returns _ _ _ Hl)).
      unfold succs in Hsucc. rewrite Hl in Hsucc.
      rewrite (bind_returns _ _ _ _ _ (item_returns _ _ _ _ Hsucc)).
      rewrite (bind_returns _ _ _ _ _ (attr_of_getattr _ _ _ _ Hg)).
      rewrite (bind_returns _ _ _ _ _ (setattr_eq _ _ _ _ _ Hl)). fold st1.
      assert (attr_of st1 self "num_images" = Some (VInt n)) as Hn1 by (by rewrite Hother).
      by rewrite (bind_returns _ _ _ _ _ (get_int_eq _ _ _ _ Hn1)). }
    unfold backward.
    destruct Hcls as [(l' & Hl' & Hc)|(l' & Hl' & Hc)];
      assert (l' = l) as -> by congruence;
      rewrite (bind_returns _ _ _ _ _ (get_layer_returns _ _ _ Hl)), Hc; exact Hrun'.
  - unfold wiring. rewrite Hlay. unfold st1, set_attr. rewrite Hl. cbn [layers].
    rewrite list_fmap_insert. apply list_insert_id.
    rewrite list_lookup_fmap, Hl. done.
Qed.

(** * Running [forward] twice *)

Lemma run_rows_ext rd rd' a rows :
  (forall i, i ∈ rows -> rd i = rd' i) -> run_rows rd a rows = run_rows rd' a rows.
Proof.
  revert a. induction rows as [|i rows IH]; intros a Hrd; cbn [run_rows]; [done|].
  rewrite <- (Hrd i) by (by left). destruct (rd i) as [r|]; [|done]. cbn [mbind res_bind].
  destruct (np.setitem a i r) as [a'|]; [|done]. cbn [mbind res_bind].
  apply IH. intros j Hj. apply Hrd. by right.
Qed.

Lemma run_rows_ok rd a rows a1 i :
  run_rows rd a rows = Ok a1 -> i ∈ rows -> exists r, rd i = Ok r.
Proof.
  revert a. induction rows as [|j rows IH]; intros a; cbn [run_rows].
  - intros _ Hi. by apply elem_of_nil in Hi.
  - destruct (rd j) as [r|] eqn:Hr; [|done]. cbn [mbind res_bind].
    destruct (np.setitem a j r) as [a'|]; [|done]. cbn [mbind res_bind].
    intros Hrun [->|Hi]%elem_of_cons; [by exists r|]. by apply (IH a').
Qed.

Lemma result_lift {A} (r : res A) st : result (lift r st) = r.
Proof. by destruct r. Qed.

Lemma reader_same {A} o s0 st (m : M A) :
  reader o s0 m -> agree o s0 st -> result (m st) = result (m s0).
Proof.
  intros Hm Hst. rewrite (reader_result o s0 m st Hm Hst). apply result_lift.
Qed.

(** A loop that refines [run_rows] leaves the store it produced as it is
    when it runs again. *)
Lemma second_run (fwd : M unit) o s0 (row : nat -> M np.ndarray) a a1 n :
  (forall i, reader o s0 (row i)) ->
  (forall s b, agree o s0 s -> arrays s !! o = Some b ->
     forall a2, run_rows (fun i => result (row i s)) b (seq 0 n) = Ok a2 ->
       fwd s = Returns tt (set_array s o a2)) ->
  arrays s0 !! o = Some a ->
  run_rows (fun i => result (row i s0)) a (seq 0 n) = Ok a1 ->
  fwd (set_array s0 o a1) = Returns tt (set_array s0 o a1).
Proof.
  intros Hrow Hfwd Ha Hrun.
  assert (agree o s0 (set_array s0 o a1)) as Hag by apply agree_set_array, agree_refl.
  assert (arrays (set_array s0 o a1) !! o = Some a1) as Ha1.
  { simpl. apply list_lookup_insert_eq. by apply lookup_lt_Some in Ha. }
  rewrite (Hfwd _ a1 Hag Ha1 a1).
  - by rewrite set_array_twice.
  - rewrite (run_rows_ext _ (fun i => result (row i s0))).
    + eapply run_rows_again; [apply NoDup_seq|done].
    + intros i _. by apply (reader_same o s0).
Qed.

Lemma class_of_agree o s0 st n c : agree o s0 st -> class_of s0 n c -> class_of st n c.
Proof. intros (E & _). unfold class_of. by rewrite E. Qed.

Lemma input_of_agree o s0 st n : agree o s0 st -> input_of st n = input_of s0 n.
Proof. intros (E & _). unfold input_of. by rewrite E. Qed.

Lemma array_of_eq st n name o a :
  attr_of st n name = Some (VArr o) -> arrays st !! o = Some a ->
  array_of st n name = Some a.
Proof.
  unfold attr_of, array_of. destruct (layers st !! n) as [l|]; [|done]. simpl.
  intros -> Ha. done.
Qed.

Lemma Input_forward_again st self n o a st1 :
  class_of st self CInput ->
  attr_of st self "num_images" = Some (VInt n) ->
  attr_of st self "value" = Some (VArr o) -> arrays st !! o = Some a ->
  attr_of st self "X" ≠ Some (VArr o) ->
  attr_of st self "W" ≠ Some (VArr o) ->
  attr_of st self "biases" ≠ Some (VArr o) ->
  forward self st = Returns tt st1 ->
  forward self st1 = Returns tt st1 /\ exists V, array_of st1 self "value" = Some V.
Proof.
  intros Hc Hn Hv Ha HX HW HB Hrun.
  pose proof (Input_forward_refines self st n o a Hc Hn Hv Ha HX HW HB) as Href.
  destruct (run_rows _ a (seq 0 n)) as [a1|e] eqn:Hrows.
  2:{ destruct Href as (? & E & _). congruence. }
  assert (st1 = set_array st o a1) as -> by congruence.
  split.
  - apply (second_run (forward self) o st (Input.row self) a a1 n); [| |done..].
    + intros i. by apply reader_Input_row.
    + intros s b Hs Hb a2 Hrows2.
      pose proof (Input_forward_refines self s n o b) as Href2.
      rewrite !(attr_of_agree o st s) in Href2 by done.
      specialize (Href2 (class_of_agree _ _ _ _ _ Hs Hc) Hn Hv Hb HX HW HB).
      by rewrite Hrows2 in Href2.
  - exists a1. apply (array_of_eq _ _ _ o); [done|].
    simpl. apply list_lookup_insert_eq. by apply lookup_lt_Some in Ha.
Qed.

Lemma Softmax_forward_again st self p v n o a st1 :
  class_of st self CSoftmax ->
  input_of st self = Some p -> attr_of st p "value" = Some v ->
  attr_of st self "num_images" = Some (VInt n) ->
  attr_of st self "value" = Some (VArr o) -> arrays st !! o = Some a ->
  v ≠ VArr o ->
  forward self st = Returns tt st1 ->
  forward self st1 = Returns tt st1 /\ exists V, array_of st1 self "value" = Some V.
Proof.
  intros Hc Hp Hpv Hn Hv Ha Hsep Hrun.
  pose proof (Softmax_forward_refines self st p v n o a Hc Hp Hpv Hn Hv Ha Hsep) as Href.
  destruct (run_rows _ a (seq 0 n)) as [a1|e] eqn:Hrows.
  2:{ destruct Href as (? & E & _). congruence. }
  assert (st1 = set_array st o a1) as -> by congruence.
  split.
  - apply (second_run (forward self) o st (Softmax.row v) a a1 n); [| |done..].
    + intros i. by apply reader_Softmax_row.
    + intros s b Hs Hb a2 Hrows2.
      pose proof (Softmax_forward_refines self s p v n o b) as Href2.
      rewrite !(attr_of_agree o st s), (input_of_agree o st s) in Href2 by done.
      specialize (Href2 (class_of_agree _ _ _ _ _ Hs Hc) Hp Hpv Hn Hv Hb Hsep).
      by rewrite Hrows2 in Href2.
  - exists a1. apply (array_of_eq _ _ _ o); [done|].
    simpl. apply list_lookup_insert_eq. by apply lookup_lt_Some in Ha.
Qed.

Lemma Hidden_forward_again st self p v n o a st1 :
  class_of st self CHidden ->
  input_of st self = Some p -> attr_of st p "value" = Some v ->
  attr_of st self "num_images" = Some (VInt n) ->
  attr_of st self "value" = Some (VArr o) -> arrays st !! o = Some a ->
  v ≠ VArr o ->
  attr_of st self "W" ≠ Some (VArr o) ->
  attr_of st self "biases" ≠ Some (VArr o) ->
  forward self st = Returns tt st1 ->
  forward self st1 = Returns tt st1 /\ exists V, array_of st1 self "value" = Some V.
Proof.
  intros Hc Hp Hpv Hn Hv Ha Hsep HW HB Hrun.
  pose proof (Hidden_forward_refines self st p v n o a Hc Hp Hpv Hn Hv Ha Hsep HW HB) as Href.
  cbv zeta in Href. set (st' := set_attr st self "X" v) in *.
  destruct (run_rows _ a (seq 0 n)) as [a1|e] eqn:Hrows.
  2:{ destruct Href as (? & E & _). congruence. }
  assert (st1 = set_array st' o a1) as -> by congruence.
  assert (self < length (layers st)) as Hlt by (by eapply attr_of_allocated).
  destruct (lookup_lt_is_Some_2 _ _ Hlt) as [l Hl].
  assert (arrays st' = arrays st) as Harr.
  { unfold st', set_attr. by rewrite Hl. }
  assert (forall m name, name ≠ "X" -> attr_of st' m name = attr_of st m name) as Hother.
  { intros m name Hname. unfold st'. rewrite attr_of_set_attr by done.
    rewrite decide_False; [done|tauto]. }
  assert (attr_of st' self "X" = Some v) as HX'.
  { unfold st'. rewrite attr_of_set_attr by done. by rewrite decide_True. }
  assert (class_of st' self CHidden) as Hc'.
  { destruct Hc as (l' & Hl' & Hcl). unfold class_of, st', set_attr. rewrite Hl. simpl.
    rewrite list_lookup_insert_eq by done. eexists. split; [done|]. simpl. congruence. }
  assert (input_of st' self = Some p) as Hp' by (unfold st'; by rewrite input_of_set_attr).
  assert (arrays st' !! o = Some a) as Ha' by (by rewrite Harr).
  split.
  - apply (second_run (forward self) o st' (Input.row self) a a1 n); [| |done..].
    + intros i. apply reader_Input_row; rewrite ?HX', ?Hother by done; congruence.
    + intros s b Hs Hb a2 Hrows2.
      pose proof (Hidden_forward_refines self s p v n o b) as Href2.
      rewrite !(attr_of_agree o st' s), (input_of_agree o st' s) in Href2 by done.
      rewrite !Hother in Href2 by done.
      specialize (Href2 (class_of_agree _ _ _ _ _ Hs Hc') Hp' Hpv Hn Hv Hb Hsep HW HB).
      cbv zeta in Href2.
      rewrite (set_attr_same s self "X" v) in Href2
        by (by rewrite (attr_of_agree o st' s)).
      by rewrite Hrows2 in Href2.
  - exists a1. apply (array_of_eq _ _ _ o).
    + rewrite attr_of_set_array. by rewrite Hother.
    + simpl. apply list_lookup_insert_eq. rewrite Harr. by apply lookup_lt_Some in Ha.
Qed.

(** ** CrossEntropy *)

(** What [self.name[i]] returns it still returns in a store that binds the
    attribute alike and holds the same array. *)
Lemma attr_item_transfer s s' n name i r o :
  attr_of s' n name = attr_of s n name ->
  attr_of s n name ≠ Some (VArr o) ->
  (forall l x, l ≠ o -> arrays s !! l = Some x -> arrays s' !! l = Some x) ->
  (getattr n name ≫= fun v => subscript v i) s = Returns r s ->
  (getattr n name ≫= fun v => subscript v i) s' = Returns r s'.
Proof.
  intros Hattr Hsep Harr Hrun.
  destruct (attr_of s n name) as [v|] eqn:Hv.
  2:{ exfalso. unfold attr_of in Hv. unfold getattr, get_layer, mbind, M_bind in Hrun.
      destruct (layers s !! n) as [l|]; [|done]. simpl in Hv, Hrun.
      by rewrite Hv in Hrun. }
  rewrite (bind_returns _ _ _ _ _ (attr_of_getattr _ _ _ _ Hv)) in Hrun.
  rewrite (bind_returns _ _ _ _ _ (attr_of_getattr _ _ _ _ Hattr)).
  destruct v as [| |l]; try done.
  unfold subscript, load, mbind, M_bind in Hrun |- *.
  destruct (arrays s !! l) as [x|] eqn:Hx; [|done].
  rewrite (Harr l x) by congruence.
  destruct (np.getitem x i); unfold lift in *; [|done]. injection Hrun as ->. done.
Qed.

Lemma CrossEntropy_row_transfer s s' self i r o :
  attr_of s' self "ideal_output" = attr_of s self "ideal_output" ->
  attr_of s' self "softmax" = attr_of s self "softmax" ->
  attr_of s self "ideal_output" ≠ Some (VArr o) ->
  attr_of s self "softmax" ≠ Some (VArr o) ->
  (forall l x, l ≠ o -> arrays s !! l = Some x -> arrays s' !! l = Some x) ->
  result (CrossEntropy.row self i s) = Ok r ->
  result (CrossEntropy.row self i s') = Ok r.
Proof.
  intros Hy Hp Hyo Hpo Harr. unfold CrossEntropy.row.
  pose proof (reader_result o s (getattr self "ideal_output" ≫= fun v => subscript v i) s
                (reader_attr_item o s self "ideal_output" i Hyo) (agree_refl _ _)) as Ey.
  destruct (result ((getattr self "ideal_output" ≫= _) s)) as [yi|e].
  2:{ by rewrite (bind_raises _ _ _ _ _ Ey). }
  rewrite (bind_returns _ _ _ _ _ Ey).
  rewrite (bind_returns _ _ _ _ _ (attr_item_transfer s s' _ _ _ _ o Hy Hyo Harr Ey)).
  pose proof (reader_result o s (getattr self "softmax" ≫= fun v => subscript v i) s
                (reader_attr_item o s self "softmax" i Hpo) (agree_refl _ _)) as Ep.
  destruct (result ((getattr self "softmax" ≫= _) s)) as [pi|e].
  2:{ by rewrite (bind_raises _ _ _ _ _ Ep). }
  rewrite (bind_returns _ _ _ _ _ Ep).
  rewrite (bind_returns _ _ _ _ _ (attr_item_transfer s s' _ _ _ _ o Hp Hpo Harr Ep)).
  destruct (np.multiply yi (np.log pi)) as [m|e]; [|done].
  by rewrite !bind_lift_ok.
Qed.

Lemma array_of_CrossEntropy_done s self o a1 :
  self < length (layers s) -> o < length (arrays s) ->
  array_of (CrossEntropy_done s self o a1) self "value" = Some (np.mean a1).
Proof.
  intros Hs Ho. apply (array_of_eq _ _ _ (length (arrays s))).
  - unfold CrossEntropy_done. rewrite attr_of_set_attr by done. by rewrite decide_True.
  - unfold CrossEntropy_done, set_attr. cbn [layers arrays].
    destruct (layers s !! self); cbn [arrays];
      rewrite lookup_app_r by (by rewrite length_insert);
      by rewrite length_insert, Nat.sub_diag.
Qed.

Lemma CrossEntropy_forward_again st self p v n o a st1 :
  class_of st self CCrossEntropy ->
  input_of st self = Some p -> p ≠ self -> attr_of st p "value" = Some v ->
  attr_of st self "num_images" = Some (VInt n) ->
  attr_of st self "tmp_value" = Some (VArr o) -> arrays st !! o = Some a ->
  v ≠ VArr o ->
  attr_of st self "ideal_output" ≠ Some (VArr o) ->
  forward self st = Returns tt st1 ->
  exists st2 V, forward self st1 = Returns tt st2 /\
    array_of st1 self "value" = Some V /\ array_of st2 self "value" = Some V.
Proof.
  intros Hc Hp Hps Hpv Hn Hv Ha Hsep Hy Hrun.
  pose proof (CrossEntropy_forward_refines self st p v n o a Hc Hp Hpv Hn Hv Ha Hsep Hy)
    as Href.
  cbv zeta in Href. set (st' := set_attr st self "softmax" v) in *.
  destruct (run_rows _ a (seq 0 n)) as [a1|e] eqn:Hrows.
  2:{ destruct Href as (? & E & _). congruence. }
  assert (st1 = CrossEntropy_done st' self o a1) as -> by congruence.
  assert (self < length (layers st)) as Hlt by (by eapply attr_of_allocated).
  destruct (lookup_lt_is_Some_2 _ _ Hlt) as [l Hl].
  assert (o < length (arrays st)) as Ho by (by apply lookup_lt_Some in Ha).
  assert (arrays st' = arrays st) as Harr.
  { unfold st', set_attr. by rewrite Hl. }
  assert (length (layers st') = length (layers st)) as Hlen.
  { unfold st', set_attr. rewrite Hl. simpl. by rewrite length_insert. }
  assert (forall m name, name ≠ "softmax" -> attr_of st' m name = attr_of st m name)
    as Hother.
  { intros m name Hname. unfold st'. rewrite attr_of_set_attr by done.
    rewrite decide_False; [done|tauto]. }
  assert (attr_of st' self "softmax" = Some v) as Hs'.
  { unfold st'. rewrite attr_of_set_attr by done. by rewrite decide_True. }
  assert (o < length (arrays st')) as Ho' by (by rewrite Harr).
  assert (self < length (layers st')) as Hlt' by (by rewrite Hlen).
  set (st1 := CrossEntropy_done st' self o a1) in *.
  assert (forall m name, (m, name) ≠ (self, "value") ->
            attr_of st1 m name = attr_of st' m name) as Hdone.
  { intros m name Hne. unfold st1, CrossEntropy_done.
    rewrite attr_of_set_attr by (simpl; lia).
    rewrite decide_False; [done|]. intros [-> ->]. done. }
  assert (forall l x, l ≠ o -> arrays st' !! l = Some x -> arrays st1 !! l = Some x)
    as Hframe.
  { intros l0 x Hne Hx. unfold st1, CrossEntropy_done, set_attr. cbn [layers arrays].
    destruct (layers st' !! self); cbn [arrays];
      rewrite lookup_app_l by (rewrite length_insert; by apply lookup_lt_Some in Hx);
      by rewrite list_lookup_insert_ne. }
  assert (arrays st1 !! o = Some a1) as Ha1.
  { unfold st1, CrossEntropy_done, set_attr. cbn [layers arrays].
    destruct (layers st' !! self); cbn [arrays];
      rewrite lookup_app_l by (rewrite length_insert; lia);
      apply list_lookup_insert_eq; lia. }
  assert (class_of st1 self CCrossEntropy) as Hc1.
  { destruct Hc as (l' & Hl' & Hcl).
    assert (exists l2, layers st' !! self = Some l2 /\ cls l2 = CCrossEntropy)
      as (l2 & Hl2 & Hc2).
    { unfold st', set_attr. rewrite Hl. simpl. rewrite list_lookup_insert_eq by done.
      eexists. split; [done|]. simpl. congruence. }
    unfold class_of, st1, CrossEntropy_done, set_attr. cbn [layers]. rewrite Hl2.
    cbn [layers]. rewrite list_lookup_insert_eq by lia. eexists. split; [done|]. done. }
  assert (input_of st1 self = Some p) as Hp1.
  { unfold st1, CrossEntropy_done. rewrite input_of_set_attr.
    change (input_of st' self = Some p). unfold st'. by rewrite input_of_set_attr. }
  assert (attr_of st1 p "value" = Some v) as Hpv1.
  { rewrite Hdone by congruence. by rewrite Hother. }
  assert (attr_of st1 self "num_images" = Some (VInt n)) as Hn1.
  { rewrite Hdone by congruence. by rewrite Hother. }
  assert (attr_of st1 self "tmp_value" = Some (VArr o)) as Hv1.
  { rewrite Hdone by congruence. by rewrite Hother. }
  assert (attr_of st1 self "ideal_output" ≠ Some (VArr o)) as Hy1.
  { rewrite Hdone by congruence. by rewrite Hother. }
  assert (attr_of st1 self "softmax" = Some v) as Hs1.
  { rewrite Hdone by congruence. done. }
  pose proof (CrossEntropy_forward_refines self st1 p v n o a1
                Hc1 Hp1 Hpv1 Hn1 Hv1 Ha1 Hsep Hy1) as Href2.
  cbv zeta in Href2. rewrite (set_attr_same st1 self "softmax" v Hs1) in Href2.
  assert (run_rows (fun i => result (CrossEntropy.row self i st1)) a1 (seq 0 n) = Ok a1)
    as Hrows2.
  { rewrite (run_rows_ext _ (fun i => result (CrossEntropy.row self i st'))).
    - eapply run_rows_again; [apply NoDup_seq|done].
    - intros i Hi. destruct (run_rows_ok _ _ _ _ i Hrows Hi) as [r Hr].
      cbv beta in Hr. rewrite Hr.
      apply (CrossEntropy_row_transfer st' st1 self i r o); try done.
      + rewrite Hdone by congruence. done.
      + rewrite Hdone by congruence. done.
      + by rewrite Hother.
      + rewrite Hs'. congruence. }
  rewrite Hrows2 in Href2.
  exists (CrossEntropy_done st1 self o a1), (np.mean a1). split_and!.
  - done.
  - apply array_of_CrossEntropy_done; lia.
  - apply array_of_CrossEntropy_done.
    + unfold st1, CrossEntropy_done, set_attr. cbn [layers].
      destruct (layers st' !! self); cbn [layers]; rewrite ?length_insert; lia.
    + by apply lookup_lt_Some in Ha1.
Qed.

(** ** Every class *)

Lemma forward_again st self st1 :
  separated st self -> forward self st = Returns tt st1 ->
  exists st2 V, forward self st1 = Returns tt st2 /\
    array_of st1 self "value" = Some V /\ array_of st2 self "value" = Some V.
Proof.
  intros [n o a Hc Hn Hv Ha HX HW HB|p v n o a Hc Hp Hpv Hn Hv Ha Hsep HW HB
         |p v n o a Hc Hp Hpv Hn Hv Ha Hsep|p v n o a Hc Hp Hps Hpv Hn Hv Ha Hsep Hy] Hrun.
  - destruct (Input_forward_again st self n o a st1) as (E & V & HV); try done.
    by exists st1, V.
  - destruct (Hidden_forward_again st self p v n o a st1) as (E & V & HV); try done.
    by exists st1, V.
  - destruct (Softmax_forward_again st self p v n o a st1) as (E & V & HV); try done.
    by exists st1, V.
  - by apply (CrossEntropy_forward_again st self p v n o a st1).
Qed.

(** * The scheduler on a graph where layers are listed more than once *)

(** ** Walks of a store without a cycle *)

Lemma walk_tc s n l x : walk s n l -> x ∈ l -> tc (edge s) n x.
Proof.
  revert n. induction l as [|m l IH]; intros n Hw Hx; [by apply elem_of_nil in Hx|].
  destruct Hw as [Hnm Hw]. apply elem_of_cons in Hx as [->|Hx].
  - by apply tc_once.
  - eapply tc_l; [exact Hnm|]. by apply IH.
Qed.

Lemma walk_nodup s n l : acyclic s -> walk s n l -> NoDup l.
Proof.
  intros Ha. revert n. induction l as [|m l IH]; intros n Hw; [constructor|].
  destruct Hw as [_ Hw]. constructor; [|by eapply IH].
  intros Hm. apply (Ha m). by eapply walk_tc.
Qed.

Lemma walk_allocated s n l x :
  closed s -> walk s n l -> x ∈ l -> x < length (layers s).
Proof.
  intros Hc. revert n. induction l as [|m l IH]; intros n Hw Hx;
    [by apply elem_of_nil in Hx|].
  destruct Hw as [Hnm Hw]. apply elem_of_cons in Hx as [->|Hx].
  - by eapply Hc.
  - by eapply IH.
Qed.

(** Without a cycle a walk has no more edges than the store has layers. *)
Lemma walk_short s n l :
  closed s -> acyclic s -> walk s n l -> length l <= length (layers s).
Proof.
  intros Hc Ha Hw. apply bounded_nodup_length.
  - by eapply walk_nodup.
  - intros x Hx. by eapply walk_allocated.
Qed.

Lemma sum_list_with_same (f g : nat -> nat) (l : list nat) :
  (forall x, x ∈ l -> f x = g x) -> sum_list_with f l = sum_list_with g l.
Proof.
  induction l as [|x l IH]; intros H; simpl; [done|].
  rewrite (H x) by (by left). rewrite IH; [done|]. intros y Hy. apply H. by right.
Qed.

Lemma sum_list_with_elem (f : nat -> nat) (l : list nat) x :
  x ∈ l -> f x <= sum_list_with f l.
Proof.
  induction l as [|y l IH]; intros Hx; [by apply elem_of_nil in Hx|]. simpl.
  apply elem_of_cons in Hx as [->|Hx]; [lia|]. specialize (IH Hx). lia.
Qed.

(** Counting the walks of fewer than [k] edges counts them all, when no
    walk that leaves [n] has [k] edges. *)
Lemma walks_stable s k k' n :
  (forall l, walk s n l -> length l < k) -> k <= k' -> walks s k' n = walks s k n.
Proof.
  revert k' n. induction k as [|k IH]; intros k' n Hn Hk.
  - specialize (Hn [] I). simpl in Hn. lia.
  - destruct k' as [|k']; [lia|]. cbn [walks]. f_equal.
    apply sum_list_with_same. intros m Hm. apply IH; [|lia].
    intros l Hl. specialize (Hn (m :: l)). cbn [length] in Hn.
    apply Nat.succ_lt_mono, Hn. split; [by apply edge_succs|done].
Qed.

(** A queue entry costs one turn and the turns of its successors. *)
Lemma visits_eq s n :
  closed s -> acyclic s ->
  visits s n = S (sum_list_with (visits s) (succs s n)).
Proof.
  intros Hc Ha. unfold visits.
  assert (forall m, walks s (S (S (length (layers s)))) m
                    = walks s (S (length (layers s))) m) as Hst.
  { intros m. apply walks_stable; [|lia]. intros l Hl.
    pose proof (walk_short s m l Hc Ha Hl). lia. }
  rewrite <- Hst. reflexivity.
Qed.

Lemma visits_edge s p n :
  closed s -> acyclic s -> edge s p n -> visits s n < visits s p.
Proof.
  intros Hc Ha Hpn. rewrite (visits_eq s p Hc Ha).
  apply edge_succs in Hpn.
  pose proof (sum_list_with_elem (visits s) (succs s p) n Hpn). lia.
Qed.

Lemma visits_bound s :
  closed s -> acyclic s ->
  forall n, visits s n <= S (sum_list_with (visits s) (seq 0 (length (layers s)))).
Proof.
  intros Hc Ha n. destruct (decide (n < length (layers s))) as [Hn|Hn].
  - assert (n ∈ seq 0 (length (layers s))) as Hs by (apply elem_of_seq; lia).
    pose proof (sum_list_with_elem (visits s) _ n Hs). lia.
  - rewrite (visits_eq s n Hc Ha). unfold succs.
    rewrite lookup_ge_None_2 by lia. simpl. lia.
Qed.

(** Without a cycle, what holds of a layer when it holds of all the layers
    that list it, holds of every layer. *)
Lemma listers_first s (P : nat -> Prop) :
  closed s -> acyclic s ->
  (forall n, (forall p, edge s p n -> P p) -> P n) ->
  forall n, P n.
Proof.
  intros Hc Ha H. pose proof (visits_bound s Hc Ha) as Hb.
  set (B := S (sum_list_with (visits s) (seq 0 (length (layers s))))) in Hb.
  assert (forall d n, B - visits s n <= d -> P n) as Hd.
  { induction d as [|d IH]; intros n Hn; apply H; intros p Hp;
      pose proof (visits_edge s p n Hc Ha Hp); pose proof (Hb p).
    - lia.
    - apply IH. lia. }
  intros n. by apply (Hd (B - visits s n)).
Qed.

Lemma acyclic_irreflexive s n : acyclic s -> ~ edge s n n.
Proof. intros Ha Hn. apply (Ha n). by apply tc_once. Qed.

(** ** The first loop *)

Section first_loop_joins.
Context (s : state) (entries : list nat).
Hypothesis Hclosed : closed s.
Hypothesis Hacyclic : acyclic s.
Hypothesis Hheld : forall e, e ∈ entries -> e < length (layers s).

Lemma reachable_held n : reachable s entries n -> n < length (layers s).
Proof.
  induction 1 as [n Hn|n m _ _ Hnm]; [by apply Hheld|by eapply Hclosed].
Qed.

(** The first loop ends within one turn for each walk that leaves a node
    of the queue. *)
Lemma build_graph_ends fuel q G :
  bfs_inv s entries q G ->
  (forall n p, p ∈ g_in G n -> p ∈ dom G) ->
  sum_list_with (visits s) q <= fuel ->
  exists G',
    build_graph fuel q G s = Returns G' s /\
    bfs_inv s entries [] G' /\
    (forall n p, p ∈ g_in G' n -> p ∈ dom G').
Proof.
  revert q G. induction fuel as [|fuel IH]; intros [|n q] G Hinv Hin Hfuel.
  - by exists G.
  - exfalso.
    change (visits s n + sum_list_with (visits s) q <= 0) in Hfuel.
    rewrite (visits_eq s n) in Hfuel by done. lia.
  - by exists G.
  - assert (n < length (layers s)) as Hn.
    { apply reachable_held, (bfs_queue _ _ _ _ Hinv). left. }
    destruct (expand_spec s n q G Hn) as (G' & Hrun & Hd & Ho & Hi).
    rewrite Hrun. apply IH.
    + exact (bfs_inv_step s entries n q G G' Hinv Hd Ho Hi).
    + intros k p. rewrite Hi, Hd, elem_of_union. intros [Hp|Hp].
      * apply Hin in Hp. set_solver + Hp.
      * case_decide; [|by apply elem_of_empty in Hp].
        apply elem_of_singleton in Hp as ->. set_solver +.
    + rewrite sum_list_with_app.
      change (visits s n + sum_list_with (visits s) q <= S fuel) in Hfuel.
      rewrite (visits_eq s n) in Hfuel by done. lia.
Qed.

Lemma bfs_inv_linked G :
  bfs_inv s entries [] G ->
  (forall n p, p ∈ g_in G n -> p ∈ dom G) ->
  graph_linked s entries G.
Proof.
  intros [I1 I2 I3 I4 I5 I6] Hin.
  assert (forall n, n ∈ dom G -> expanded s G n) as Hexp.
  { intros n Hn. destruct (I5 n (or_intror Hn)) as [?%elem_of_nil|[_ ?]]; done. }
  assert (forall n, reachable s entries n -> n ∈ dom G) as Hdom.
  { induction 1 as [n Hn|n m _ IHn Hnm].
    - destruct (I5 n (or_introl Hn)) as [?%elem_of_nil|[? _]]; done.
    - by destruct (Hexp n IHn m Hnm). }
  assert (forall n, g_out G n ≠ ∅ -> n ∈ dom G) as Hout_dom.
  { intros n Hn. apply elem_of_dom. unfold g_out in Hn.
    destruct (G !! n); [eauto|done]. }
  split.
  - intros n. split; [apply I2|apply Hdom].
  - intros n m. split.
    + intros Hm. split; [|by apply I3]. apply I2, Hout_dom. set_solver + Hm.
    + intros [Hn Hnm]. by destruct (Hexp n (Hdom n Hn) m Hnm) as (_ & ? & _).
  - intros n p. split.
    + intros Hp. split; [by eapply I2, Hin|by apply I4].
    + intros [Hp Hpn]. by destruct (Hexp p (Hdom p Hp) n Hpn) as (_ & _ & ?).
Qed.

(** The first loop ends and builds the graph of the reachable nodes. *)
Lemma build_graph_links fuel :
  sum_list_with (visits s) entries <= fuel ->
  exists G, build_graph fuel entries ∅ s = Returns G s /\ graph_linked s entries G.
Proof.
  intros Hfuel.
  destruct (build_graph_ends fuel entries ∅ (bfs_inv_init s entries)) as (G & Hrun & Hinv & Hin);
    [|done|].
  { intros n p. unfold g_in. rewrite lookup_empty. by intros ?%elem_of_empty. }
  exists G. split; [done|]. by apply bfs_inv_linked.
Qed.
End first_loop_joins.

(** ** The second loop *)

(** The inner loop over the successors [ms] of [n], each held in [G] with
    [n] among its incoming edges: those that have no other become ready. *)
Lemma unlink_each_spec n ms (G : gmap nat (gset nat * gset nat)) (S : gset nat) st :
  NoDup ms -> n ∈ dom G ->
  (forall m, m ∈ ms -> m ∈ dom G /\ m ∈ g_out G n /\ n ∈ g_in G m) ->
  exists S' G',
    for_fold ms (S, G)
      (fun '(S, G) m =>
         G ← lift (remove_out n m G);
         G ← lift (remove_in m n G);
         i ← lift (in_of m G);
         if decide (size i = 0) then mret (S ∪ {[m]}, G) else mret (S, G)) st
      = Returns (S', G') st /\
    (forall k, k ∈ S' <-> k ∈ S \/ (k ∈ ms /\ g_in G k ∖ {[n]} = ∅)) /\
    dom G' = dom G /\
    (forall k, g_out G' k = g_out G k ∖ (if decide (k = n) then list_to_set ms else ∅)) /\
    (forall k, g_in G' k = g_in G k ∖ (if decide (k ∈ ms) then {[n]} else ∅)).
Proof.
  revert G S. induction ms as [|m ms IH]; intros G S Hnd Hn Hms; cbn [for_fold].
  - exists S, G. split; [done|]. split_and!.
    + intros k. split; [by left|]. intros [?|[?%elem_of_nil _]]; done.
    + done.
    + intros k. clear. case_decide; set_solver.
    + intros k. case_decide as Hk; [by apply elem_of_nil in Hk|]. clear. set_solver.
  - apply NoDup_cons in Hnd as [Hm Hnd].
    destruct (Hms m) as (Hmd & Hmo & Hmi); [by left|].
    destruct (unlink_spec n m G S st Hn Hmd Hmo Hmi) as (G1 & Hrun & Hd & Ho & Hi).
    erewrite bind_returns by exact Hrun. cbv beta.
    set (S1 := if decide (g_in G m ∖ {[n]} = ∅) then S ∪ {[m]} else S) in *.
    assert (forall k, k ∈ ms -> g_in G1 k = g_in G k) as Hsame.
    { intros k Hk. rewrite Hi, decide_False by (by intros ->). clear. set_solver. }
    destruct (IH G1 S1 Hnd) as (S' & G' & Hrun' & HS' & Hd' & Ho' & Hi').
    { by rewrite Hd. }
    { intros m' Hm'. destruct (Hms m') as (? & ? & ?); [by right|].
      assert (m' ≠ m) by (by intros ->).
      rewrite Hd, Ho, Hsame, decide_True by done.
      split_and!; [done|set_solver|done]. }
    exists S', G'. split; [exact Hrun'|]. split_and!.
    + intros k. rewrite HS'. split.
      * intros [Hk|[Hk Hke]].
        -- unfold S1 in Hk. case_decide as He.
           ++ apply elem_of_union in Hk as [?| ->%elem_of_singleton]; [by left|].
              right. split; [by left|done].
           ++ by left.
        -- right. split; [by right|]. by rewrite <- (Hsame k Hk).
      * intros [Hk|[Hk Hke]].
        -- left. unfold S1. case_decide; [|done]. apply elem_of_union. by left.
        -- apply elem_of_cons in Hk as [->|Hk].
           ++ left. unfold S1. rewrite decide_True by done. set_solver +.
           ++ right. split; [done|]. by rewrite (Hsame k Hk).
    + by rewrite Hd', Hd.
    + intros k. rewrite Ho', Ho. clear. case_decide; set_solver.
    + intros k. rewrite Hi', Hi. destruct (decide (k = m)) as [->|Hk].
      * rewrite (decide_True (P := m ∈ m :: ms)) by (by left).
        clear. case_decide; set_solver.
      * assert (k ∈ m :: ms <-> k ∈ ms) as Hiff by (clear -Hk; set_solver).
        clear -Hiff. repeat case_decide; try tauto; set_solver.
Qed.

Section second_loop_joins.
Context (s : state) (entries : list nat).
Hypothesis Hclosed : closed s.
Hypothesis Hacyclic : acyclic s.
Hypothesis Hheld : forall e, e ∈ entries -> e < length (layers s).
Hypothesis Hsource : forall p e, reachable s entries p -> edge s p e -> e ∉ entries.

Lemma kahn_inv_init G :
  NoDup entries -> graph_linked s entries G ->
  kahn_inv s entries (list_to_set entries) [] G.
Proof.
  intros Hnd [B1 B2 B3]. split.
  - constructor.
  - intros n _ ?%elem_of_nil. done.
  - intros n [Hn%elem_of_list_to_set|?%elem_of_nil]; [by constructor|done].
  - intros p m ?%elem_of_nil. done.
  - intros n Hn _. split_and!.
    + by apply B1.
    + apply set_eq. intros m. rewrite B2, elem_of_list_to_set, <- edge_succs. tauto.
    + intros p. rewrite B3. split; [intros [? ?]; split_and!; [done..|]|tauto].
      by intros ?%elem_of_nil.
  - intros n Hn _. rewrite elem_of_list_to_set. split.
    + intros He. apply set_eq. intros p. rewrite B3. split; [|by intros ?%elem_of_empty].
      intros [Hp Hpn]. exfalso. by eapply Hsource.
    + intros He. destruct Hn as [n Hn|p n Hp Hpn]; [done|]. exfalso.
      assert (p ∈ g_in G n) as Hin by (by apply B3).
      rewrite He in Hin. by apply elem_of_empty in Hin.
Qed.

(** A ready node [n] can be unlinked from each of its successors. *)
Lemma kahn_inv_unlinkable S L G n :
  kahn_inv s entries S L G -> n ∈ S ->
  n ∈ dom G /\
  forall m, m ∈ succs s n -> m ∈ dom G /\ m ∈ g_out G n /\ n ∈ g_in G m.
Proof.
  intros [J1 J2 J3 J4 J5 J6] Hn.
  assert (reachable s entries n) as Hrn by (apply J3; by left).
  assert (n ∉ L) as HnL by (by apply J2).
  destruct (J5 n Hrn HnL) as (Hnd & Hno & Hni).
  split; [done|]. intros m Hm.
  assert (edge s n m) as Hnm by (by apply edge_succs).
  assert (reachable s entries m) as Hrm by (by econstructor).
  assert (m ∉ L) as HmL.
  { intros HmL. apply HnL. eapply precedes_elem. by apply J4. }
  destruct (J5 m Hrm HmL) as (Hmd & Hmo & Hmi).
  split_and!; [done|rewrite Hno; by apply elem_of_list_to_set|].
  by apply Hmi.
Qed.

Lemma kahn_inv_step S S' L G G' n :
  kahn_inv s entries S L G -> n ∈ S ->
  (forall k, k ∈ S' <->
     k ∈ S ∖ {[n]} \/ (k ∈ succs s n /\ g_in G k ∖ {[n]} = ∅)) ->
  dom G' = dom G ->
  (forall k, g_out G' k =
     g_out G k ∖ (if decide (k = n) then list_to_set (succs s n) else ∅)) ->
  (forall k, g_in G' k =
     g_in G k ∖ (if decide (k ∈ succs s n) then {[n]} else ∅)) ->
  kahn_inv s entries S' (L ++ [n]) G'.
Proof.
  intros [J1 J2 J3 J4 J5 J6] Hn HS' Hd Ho Hi.
  assert (reachable s entries n) as Hrn by (apply J3; by left).
  assert (n ∉ L) as HnL by (by apply J2).
  assert (g_in G n = ∅) as Hnin by (by apply J6).
  assert (forall m, m ∈ succs s n -> m ∉ L /\ m ≠ n) as Hsucc.
  { intros m Hm%edge_succs. split.
    - intros HmL. apply HnL. eapply precedes_elem. by apply J4.
    - intros ->. by eapply acyclic_irreflexive. }
  assert (forall k, k ∉ L ++ [n] <-> k ∉ L /\ k ≠ n) as Hnot.
  { intros k. rewrite elem_of_app, list_elem_of_singleton. tauto. }
  split.
  - apply NoDup_app. split_and!; [done| |apply NoDup_singleton].
    intros x Hx ->%list_elem_of_singleton. done.
  - intros k Hk. apply Hnot. apply HS' in Hk as [[Hk Hkn]%elem_of_difference|[Hk _]].
    + split; [by apply J2|]. intros ->. apply Hkn. by apply elem_of_singleton.
    + by apply Hsucc.
  - intros k [Hk|Hk].
    + apply HS' in Hk as [[Hk _]%elem_of_difference|[Hk _]].
      * apply J3. by left.
      * econstructor; [exact Hrn|by apply edge_succs].
    + apply elem_of_app in Hk as [?| ->%list_elem_of_singleton]; [|done].
      apply J3. by right.
  - intros p m [Hm| ->%list_elem_of_singleton]%elem_of_app Hp Hpm.
    + apply precedes_app. by apply J4.
    + apply precedes_last. destruct (decide (p ∈ L)) as [|HpL]; [done|]. exfalso.
      assert (p ∈ g_in G n) as Hin by (by apply (J5 n Hrn HnL)).
      rewrite Hnin in Hin. by apply elem_of_empty in Hin.
  - intros k Hk [HkL Hkn]%Hnot.
    destruct (J5 k Hk HkL) as (Hkd & Hko & Hki).
    split_and!.
    + by rewrite Hd.
    + rewrite Ho, decide_False, Hko by done. clear. set_solver.
    + intros p. rewrite Hi, elem_of_difference, Hki, Hnot. split.
      * intros [(Hp & Hpk & HpL) Hpn]. split_and!; [done..|].
        intros ->. apply Hpn. rewrite decide_True by (by apply edge_succs).
        by apply elem_of_singleton.
      * intros (Hp & Hpk & HpL & Hpn). split; [done|].
        case_decide; [|by intros ?%elem_of_empty]. by intros ?%elem_of_singleton.
  - intros k Hk [HkL Hkn]%Hnot.
    destruct (J5 k Hk HkL) as (_ & _ & Hki).
    rewrite HS', Hi, elem_of_difference, elem_of_singleton, (J6 k Hk HkL).
    destruct (decide (k ∈ succs s n)) as [Hks|Hks].
    + assert (n ∈ g_in G k) as Hnk.
      { apply Hki. split_and!; [done|by apply edge_succs|done]. }
      split.
      * intros [[He _]|[_ He]]; [|done]. rewrite He in Hnk. by apply elem_of_empty in Hnk.
      * intros He. right. done.
    + split.
      * intros [[He _]|[? _]]; [|done]. rewrite He. clear. set_solver.
      * intros He. left. split; [|done]. rewrite <- He. clear. set_solver.
Qed.

Lemma kahn_inv_final L G :
  kahn_inv s entries ∅ L G -> scheduled s entries L.
Proof.
  intros [J1 J2 J3 J4 J5 J6].
  assert (forall n, reachable s entries n -> n ∈ L) as Hall.
  { intros n. pattern n. apply (listers_first s); [done..|]. clear n.
    intros n IH Hn. destruct (decide (n ∈ L)) as [|HnL]; [done|]. exfalso.
    destruct (set_choose_or_empty (g_in G n)) as [[p Hp]|He].
    - apply (J5 n Hn HnL) in Hp as (Hp & Hpn & HpL). apply HpL. by apply IH.
    - apply leibniz_equiv in He. apply (J6 n Hn HnL) in He.
      by apply elem_of_empty in He. }
  split_and!; [done| |].
  - intros n. split; [intros ?; apply J3; by right|apply Hall].
  - intros p m Hp Hpm.
    assert (reachable s entries p) as Hrp by (apply J3; by right).
    apply J4; [|done..]. apply Hall. by econstructor.
Qed.

Lemma kahn_inv_room S L G n :
  kahn_inv s entries S L G -> n ∈ S -> length L < length (layers s).
Proof.
  intros Hinv Hn.
  assert (NoDup (n :: L)) as Hnd.
  { constructor; [by eapply kahn_fresh|by eapply kahn_nodup]. }
  apply bounded_nodup_length with (N := length (layers s)) in Hnd; [simpl in Hnd; lia|].
  intros x Hx. apply (reachable_held s entries); [done..|].
  eapply kahn_reach; [done|].
  apply elem_of_cons in Hx as [->|?]; [by left|by right].
Qed.
End second_loop_joins.

Section scheduler_joins.
Context (choose : nat -> nat) (s : state)
        (feed_dict : list (nat * pyval)) (ideal_output : pyval).
Hypothesis Hclosed : closed s.
Hypothesis Hacyclic : acyclic s.
Hypothesis Honce : listed_once s.
Hypothesis Hentries : forall e, e ∈ feed_dict.*1 -> class_of s e CInput.
Hypothesis Hinputs : inputs_unlisted s feed_dict.*1.

Lemma entries_held e : e ∈ feed_dict.*1 -> e < length (layers s).
Proof. intros (l & Hl & _)%Hentries. by apply lookup_lt_Some in Hl. Qed.

Lemma entries_sources p e :
  reachable s feed_dict.*1 p -> edge s p e -> e ∉ feed_dict.*1.
Proof. intros Hp Hpe He. eapply Hinputs; [done..|]. by apply Hentries. Qed.

(** An [Input] that is reached is a key of [feed_dict]. *)
Lemma reached_input_fed n :
  reachable s feed_dict.*1 n -> class_of s n CInput -> n ∈ feed_dict.*1.
Proof. intros [n' Hn|p m Hp Hpm] Hc; [done|]. exfalso. by eapply Hinputs. Qed.

(** The second loop ends within one turn per layer still to order. *)
Lemma order_schedules fuel st S L G :
  wiring st = wiring s ->
  kahn_inv s feed_dict.*1 S L G ->
  length (layers s) - length L <= fuel ->
  exists L' st',
    order choose fuel feed_dict ideal_output S L G st = Returns L' st' /\
    wiring st' = wiring s /\
    scheduled s feed_dict.*1 L'.
Proof.
  revert st S L G. induction fuel as [|fuel IH]; intros st S L G E Hinv Hfuel.
  - destruct (decide (S = ∅)) as [->|HS].
    + exists L, st. split_and!; [done|done|by eapply kahn_inv_final].
    + exfalso. destruct (pop_spec choose 0 S HS) as (n & _ & Hn).
      pose proof (kahn_inv_room s _ Hclosed entries_held S L G n Hinv Hn). lia.
  - cbn [order]. destruct (decide (size S = 0)) as [HS|HS].
    { apply size_empty_inv, leibniz_equiv in HS. subst S.
      exists L, st. split_and!; [done|done|by eapply kahn_inv_final]. }
    assert (S ≠ ∅) as HS' by (intros ->; by rewrite size_empty in HS).
    destruct (pop_spec choose (length L) S HS') as (n & Hpop & Hn).
    rewrite Hpop, bind_lift_ok. cbv beta iota.
    assert (reachable s feed_dict.*1 n) as Hrn.
    { eapply kahn_reach; [done|by left]. }
    pose proof (reachable_held s _ Hclosed entries_held n Hrn) as Hnlt.
    destruct (lookup_lt_is_Some_2 _ _ Hnlt) as [l Hl].
    destruct (wiring_layer st s n l E Hl) as (l1 & Hl1 & Hsk1).
    rewrite (bind_returns _ _ _ _ _ (get_layer_returns _ _ _ Hl1)).
    destruct (inject_returns feed_dict ideal_output n l1 st Hl1) as (st' & E' & Hrun).
    { intros Hc. apply reached_input_fed; [done|].
      exists l. split; [done|]. unfold skeleton in Hsk1. congruence. }
    rewrite Hrun. cbv zeta.
    assert (wiring st' = wiring s) as E'' by congruence.
    destruct (wiring_layer st' s n l E'' Hl) as (l2 & Hl2 & Hsk2).
    rewrite (bind_returns _ _ _ _ _ (get_layer_returns _ _ _ Hl2)).
    assert (outbound_layers l2 = succs s n) as ->.
    { unfold succs. rewrite Hl. unfold skeleton in Hsk2. congruence. }
    destruct (kahn_inv_unlinkable s _ S L G n Hinv Hn) as (Hnd & Hms).
    destruct (unlink_each_spec n (succs s n) G (S ∖ {[n]}) st')
      as (S' & G' & Hfold & HS'' & Hd & Ho & Hi); [|done|done|].
    { unfold succs. rewrite Hl. by eapply Honce. }
    erewrite bind_returns by exact Hfold. cbv beta iota.
    apply IH; [done| |].
    + by eapply (kahn_inv_step s _ Hacyclic S S' L G G' n).
    + rewrite length_app. simpl. lia.
Qed.

(** [topological_sort] returns, given fuel for both of its loops, and its
    result orders the reachable nodes. *)
Lemma topological_sort_schedules fuel :
  NoDup feed_dict.*1 ->
  sum_list_with (visits s) feed_dict.*1 <= fuel ->
  length (layers s) <= fuel ->
  exists L s',
    topological_sort choose fuel feed_dict ideal_output s = Returns L s' /\
    wiring s' = wiring s /\
    scheduled s feed_dict.*1 L.
Proof.
  intros Hnd Hf1 Hf2. unfold topological_sort.
  destruct (build_graph_links s _ Hclosed Hacyclic entries_held fuel Hf1) as (G & Hrun & HG).
  rewrite (bind_returns _ _ _ _ _ Hrun).
  apply order_schedules; [done| |simpl; lia].
  apply kahn_inv_init; [apply entries_sources|done..].
Qed.
End scheduler_joins.

(** The stores that the constructors build are among these. *)
Lemma wired_acyclic s : wired s -> acyclic s.
Proof.
  intros Hw.
  assert (forall n m, tc (edge s) n m -> n < m) as Hlt.
  { induction 1 as [n m H|n m k H _ IH].
    - by eapply wired_edge_lt.
    - apply (wired_edge_lt _ _ _ Hw) in H. lia. }
  intros n Hn. apply Hlt in Hn. lia.
Qed.

Lemma wired_inputs_unlisted s entries : wired s -> inputs_unlisted s entries.
Proof.
  intros Hw p n _ Hpn Hc. eapply (wired_input _ Hw); [exact Hc|].
  by apply (wired_succ _ Hw).
Qed.

Lemma wired_listed_once s : wired s -> listed_once s.
Proof. intros Hw n l Hl. by eapply wired_nodup. Qed.

(** On such a store the order has every layer after its [input_layer], the
    only layer that lists it. *)
Lemma scheduled_topological s entries L :
  wired s -> (forall e, e ∈ entries -> class_of s e CInput) ->
  scheduled s entries L -> topological s entries L.
Proof.
  intros Hw He (Hnd & Hall & Hbefore). split_and!; [done..|].
  intros m p Hm Hp.
  assert (edge s p m) as Hpm by (by apply (wired_pred _ Hw)).
  apply Hbefore; [|done]. apply Hall. apply Hall in Hm.
  destruct Hm as [m Hm|q m Hq Hqm].
  - exfalso. eapply (wired_input _ Hw); [by apply He|exact Hp].
  - apply (wired_succ _ Hw) in Hqm. by rewrite (wired_pred_unique _ _ _ _ Hp Hqm).
Qed.

(** * The example networks *)

Lemma after_returns {A} (m : M A) s a s' : m s = Returns a s' -> after m s = s'.
Proof. intros H. unfold after. by rewrite H. Qed.

Lemma ex_net_constructed : constructed ex_net.
Proof.
  set (s0 := mkState [] (ex_arrays (np.matrix 2 [[1; 2]]) [0; 0])%R).
  set (s1 := after (self ← new CInput; Input.__init__ 0 self (VArr 1) (VArr 2)) s0).
  set (s2 := after (self ← new CHidden;
                    Hidden.__init__ 0 self (Some 0) (VArr 3) (VArr 4)) s1).
  set (s3 := after (self ← new CSoftmax; Softmax.__init__ 0 self (Some 1)) s2).
  assert (constructed s0) as H0.
  { apply (constructed_arrays (mkState [] [])), constructed_empty. }
  assert (constructed s1) as H1.
  { apply (constructed_Input s0 0%R (VArr 1) (VArr 2)); [done|]. vm_compute. reflexivity. }
  assert (constructed s2) as H2.
  { apply (constructed_Hidden s1 0%R (Some 0) (VArr 3) (VArr 4)); [done| |].
    - intros p [= <-]. vm_compute. lia.
    - vm_compute. reflexivity. }
  assert (constructed s3) as H3.
  { apply (constructed_Softmax s2 0%R (Some 1)); [done| |].
    - intros p [= <-]. vm_compute. lia.
    - vm_compute. reflexivity. }
  apply (constructed_CrossEntropy s3 0%R (Some 2)); [done| |].
  - intros p [= <-]. vm_compute. lia.
  - vm_compute. reflexivity.
Qed.

Lemma ex_feed_inputs e : e ∈ ex_feed.*1 -> class_of ex_net e CInput.
Proof.
  intros ->%list_elem_of_singleton. eexists. split; [vm_compute; reflexivity|]. reflexivity.
Qed.

Lemma ex_feed_nodup : NoDup ex_feed.*1.
Proof. apply NoDup_singleton. Qed.

(** * Wiring *)

Lemma wired_symmetric s m p : wired s -> pred_of s m p <-> edge s p m.
Proof.
  intros Hw. split.
  - intros H. by apply (wired_pred s Hw).
  - apply (wired_succ s Hw).
Qed.

(** C10: in a store reached by constructing layers, a layer has the
    predecessor [p] exactly when [p] lists it in [outbound_layers]; and
    whatever [topological_sort], [forward], [backward], a turn of the update
    loop or the whole of [train_SGD] leaves behind, by returning or by
    raising, has the class, the [input_layer] and the [outbound_layers] of
    every layer as they were, so that the relation is still symmetric. *)
Theorem wiring_symmetric_and_kept s :
  constructed s ->
  (forall m p, pred_of s m p <-> edge s p m) /\
  forall choose fuel feed_dict ideal_output trainables partials learning_rate n s',
    final (topological_sort choose fuel feed_dict ideal_output s) = Some s' \/
    final (forward n s) = Some s' \/
    final (backward n s) = Some s' \/
    final (update trainables partials learning_rate n s) = Some s' \/
    final (train_SGD choose fuel feed_dict ideal_output trainables learning_rate s)
      = Some s' ->
    wiring s' = wiring s /\
    (forall m p, pred_of s' m p <-> edge s' p m).
Proof.
  intros Hc. pose proof (constructed_wired s Hc) as Hw. split.
  - intros m p. by apply wired_symmetric.
  - intros choose fuel feed_dict ideal_output trainables partials learning_rate n s' Hs'.
    assert (wiring s' = wiring s) as E.
    { destruct Hs' as [H|[H|[H|[H|H]]]].
      - by apply (kw_topological_sort choose fuel feed_dict ideal_output s).
      - by apply (kw_forward n s).
      - by apply (kw_backward n s).
      - by apply (kw_update trainables partials learning_rate n s).
      - by apply (kw_train_SGD choose fuel feed_dict ideal_output trainables
                    learning_rate s). }
    split; [done|]. intros m p. apply wired_symmetric. by apply (wired_ext s).
Qed.

Lemma wiring_symmetric_and_kept_witness :
  (forall m p, pred_of ex_net m p <-> edge ex_net p m) /\
  forall choose fuel feed_dict ideal_output trainables partials learning_rate n s',
    final (topological_sort choose fuel feed_dict ideal_output ex_net) = Some s' \/
    final (forward n ex_net) = Some s' \/
    final (backward n ex_net) = Some s' \/
    final (update trainables partials learning_rate n ex_net) = Some s' \/
    final (train_SGD choose fuel feed_dict ideal_output trainables learning_rate ex_net)
      = Some s' ->
    wiring s' = wiring ex_net /\
    (forall m p, pred_of s' m p <-> edge s' p m).
Proof. apply (wiring_symmetric_and_kept ex_net). apply ex_net_constructed. Defined.

(** * The scheduler *)

(** The hand-wired store [ex_diamond], where two layers list the layer 3. *)
Lemma ex_diamond_edge p m : edge ex_diamond p m -> p < m < 4 /\ m ≠ 0.
Proof.
  intros (l & Hl & Hm).
  destruct p as [|[|[|[|p]]]]; simpl in Hl; [..|done];
    injection Hl as <-; simpl in Hm;
    repeat (apply elem_of_cons in Hm as [->|Hm]; [lia|]);
    by apply elem_of_nil in Hm.
Qed.

Lemma ex_diamond_closed : closed ex_diamond.
Proof. intros p m Hpm. apply ex_diamond_edge in Hpm. simpl. lia. Qed.

Lemma ex_diamond_acyclic : acyclic ex_diamond.
Proof.
  assert (forall n m, tc (edge ex_diamond) n m -> n < m) as Hlt.
  { induction 1 as [n m H|n m k H _ IH]; apply ex_diamond_edge in H; lia. }
  intros n Hn. apply Hlt in Hn. lia.
Qed.

Lemma ex_diamond_listed_once : listed_once ex_diamond.
Proof.
  intros n l Hl.
  destruct n as [|[|[|[|n]]]]; simpl in Hl; [..|done]; injection Hl as <-; simpl.
  - apply NoDup_cons. split; [|apply NoDup_singleton].
    by intros [=]%list_elem_of_singleton.
  - apply NoDup_singleton.
  - apply NoDup_singleton.
  - constructor.
Qed.

Lemma ex_diamond_feed e : e ∈ ex_feed.*1 -> class_of ex_diamond e CInput.
Proof. intros ->%list_elem_of_singleton. by eexists. Qed.

Lemma ex_diamond_inputs : inputs_unlisted ex_diamond ex_feed.*1.
Proof.
  intros p n _ Hpn (l & Hl & Hc). apply ex_diamond_edge in Hpn as [Hlt Hn0].
  destruct n as [|[|[|[|n]]]]; simpl in Hl; [done|..|done];
    injection Hl as <-; done.
Qed.

(** The layer 3, listed by 1 and by 2, is ordered after both, when [S.pop()]
    takes the first element each time. *)
Lemma ex_diamond_order :
  exists s', topological_sort ex_choose 5 ex_feed (VArr 5) ex_diamond
             = Returns [0; 2; 1; 3] s'.
Proof. eexists. vm_compute. reflexivity. Qed.

(** C1: on a store without a cycle along [outbound_layers], whose layers
    list layers of the store only and none twice, with the keys of
    [feed_dict] distinct [Input] layers and no [Input] listed by a layer
    the keys lead to, [topological_sort] returns when its loops are given
    turns enough; the list it returns holds every layer reachable from the
    keys, each once, and every layer of it before each layer it lists, by
    however many layers a layer is listed. *)
Theorem topological_sort_orders choose s feed_dict ideal_output :
  closed s ->
  acyclic s ->
  listed_once s ->
  NoDup feed_dict.*1 ->
  (forall e, e ∈ feed_dict.*1 -> class_of s e CInput) ->
  inputs_unlisted s feed_dict.*1 ->
  exists fuel0, forall fuel, fuel0 <= fuel ->
    exists L s',
      topological_sort choose fuel feed_dict ideal_output s = Returns L s' /\
      NoDup L /\
      (forall n, n ∈ L <-> reachable s feed_dict.*1 n) /\
      (forall p m, p ∈ L -> edge s p m -> precedes L p m).
Proof.
  intros Hc Ha Ho Hnd Hin Hun.
  exists (sum_list_with (visits s) feed_dict.*1 `max` length (layers s)).
  intros fuel Hfuel.
  destruct (topological_sort_schedules choose s feed_dict ideal_output
              Hc Ha Ho Hin Hun fuel Hnd)
    as (L & s' & Hrun & _ & H1 & H2 & H3); [lia..|].
  by exists L, s'.
Qed.

Lemma topological_sort_orders_witness :
  exists fuel0, forall fuel, fuel0 <= fuel ->
    exists L s',
      topological_sort ex_choose fuel ex_feed (VArr 5) ex_diamond = Returns L s' /\
      NoDup L /\
      (forall n, n ∈ L <-> reachable ex_diamond ex_feed.*1 n) /\
      (forall p m, p ∈ L -> edge ex_diamond p m -> precedes L p m).
Proof.
  apply (topological_sort_orders ex_choose ex_diamond ex_feed (VArr 5)).
  - apply ex_diamond_closed.
  - apply ex_diamond_acyclic.
  - apply ex_diamond_listed_once.
  - apply ex_feed_nodup.
  - apply ex_diamond_feed.
  - apply ex_diamond_inputs.
Defined.

(** What the conditions on the store are for.  An [Input] that a key lists
    is ready from the start and again when the key is ordered, and is
    ordered twice when it is a key itself; when it is not, [feed_dict[n]]
    raises.  A layer listed twice is removed twice from [G[n]['out']], and
    the second [remove] raises. *)
Lemma listed_input_ordered_twice :
  exists s', topological_sort ex_choose 5 [(0, VArr 0); (1, VArr 0)] (VArr 5)
               ex_listed_input
             = Returns [1; 0; 1] s'.
Proof. eexists. vm_compute. reflexivity. Qed.

Lemma listed_input_unfed_raises :
  exists s', topological_sort ex_choose 5 ex_feed (VArr 5) ex_listed_input
             = Raises KeyError s'.
Proof. eexists. vm_compute. reflexivity. Qed.

Lemma listed_twice_raises :
  exists s', topological_sort ex_choose 5 ex_feed (VArr 5) ex_listed_twice
             = Raises KeyError s'.
Proof. eexists. vm_compute. reflexivity. Qed.

(** A cycle that can be reached from a key of [feed_dict] keeps the first
    loop of [topological_sort] turning. *)
Lemma topological_sort_diverges choose s fuel feed_dict ideal_output :
  closed s ->
  (forall e, e ∈ feed_dict.*1 -> e < length (layers s)) ->
  (exists e, e ∈ feed_dict.*1 /\ reaches_cycle s e) ->
  topological_sort choose fuel feed_dict ideal_output s = Diverges.
Proof.
  intros Hc Hk Hcyc. unfold topological_sort. cbv zeta.
  apply bind_diverges. by apply build_graph_diverges.
Qed.

Lemma ex_cycle_closed : closed ex_cycle.
Proof.
  intros n m (l & Hl & Hm). destruct n as [|[|n]]; simpl in Hl; [| |done].
  - injection Hl as <-. simpl in Hm. apply list_elem_of_singleton in Hm as ->.
    simpl. lia.
  - injection Hl as <-. simpl in Hm. apply list_elem_of_singleton in Hm as ->.
    simpl. lia.
Qed.

Lemma ex_cycle_cycle : tc (edge ex_cycle) 0 0.
Proof.
  apply (tc_l _ 0 1 0).
  - eexists. split; [reflexivity|]. simpl. by left.
  - apply tc_once. eexists. split; [reflexivity|]. simpl. by left.
Qed.

Lemma ex_cycle_reached : exists e, e ∈ [(0, VNone)].*1 /\ reaches_cycle ex_cycle e.
Proof.
  exists 0. split; [by left|]. exists 0. split; [done|]. apply ex_cycle_cycle.
Qed.

Lemma ex_cycle_keys e : e ∈ [(0, VNone)].*1 -> e < length (layers ex_cycle).
Proof. intros ->%list_elem_of_singleton. simpl. lia. Qed.

(** C2, as the code has it: no cycle is looked for.  When a layer that a
    key of [feed_dict] leads to follows itself, the first loop of
    [topological_sort] never ends, whatever the number of turns it is
    given: nothing is returned, nothing is raised, by [topological_sort]
    or by [train_SGD]. *)
Theorem cyclic_graph_loops choose s feed_dict ideal_output trainables learning_rate :
  closed s ->
  (forall e, e ∈ feed_dict.*1 -> e < length (layers s)) ->
  (exists e, e ∈ feed_dict.*1 /\ reaches_cycle s e) ->
  forall fuel,
    topological_sort choose fuel feed_dict ideal_output s = Diverges /\
    train_SGD choose fuel feed_dict ideal_output trainables learning_rate s = Diverges.
Proof.
  intros Hc Hk Hcyc fuel.
  pose proof (topological_sort_diverges choose s fuel feed_dict ideal_output Hc Hk Hcyc)
    as Hdiv.
  split; [done|]. unfold train_SGD. by apply bind_diverges.
Qed.

Lemma cyclic_graph_loops_witness :
  closed ex_cycle /\
  forall fuel,
    topological_sort ex_choose fuel [(0, VNone)] VNone ex_cycle = Diverges /\
    train_SGD ex_choose fuel [(0, VNone)] VNone [] 1 ex_cycle = Diverges.
Proof.
  split; [apply ex_cycle_closed|].
  apply (cyclic_graph_loops ex_choose ex_cycle [(0, VNone)] VNone [] 1%R).
  - apply ex_cycle_closed.
  - apply ex_cycle_keys.
  - apply ex_cycle_reached.
Defined.

(** C2, where it fails: two layers that follow each other, the first a key
    of [feed_dict].  No error is reported: with any number of turns
    [topological_sort] is still in its first loop. *)
Lemma cyclic_graph_not_reported :
  tc (edge ex_cycle) 0 0 /\
  (forall fuel,
     topological_sort ex_choose fuel [(0, VNone)] VNone ex_cycle = Diverges) /\
  ~ (exists fuel e s',
       topological_sort ex_choose fuel [(0, VNone)] VNone ex_cycle = Raises e s').
Proof.
  assert (forall fuel,
    topological_sort ex_choose fuel [(0, VNone)] VNone ex_cycle = Diverges) as Hdiv.
  { intros fuel. apply topological_sort_diverges.
    - apply ex_cycle_closed.
    - apply ex_cycle_keys.
    - apply ex_cycle_reached. }
  split_and!; [apply ex_cycle_cycle|done|].
  intros (fuel & e & s' & H). by rewrite Hdiv in H.
Qed.

(** * The forward pass *)

(** Facts about the example stores are found by evaluation. *)
Ltac evaluate := vm_compute; reflexivity.

Ltac well_formed :=
  unfold np.wf;
  repeat (vm_compute;
          match goal with
          | |- exists x, np.Leaf _ = np.Leaf x => eexists; reflexivity
          | |- exists ts, np.Node _ = np.Node ts /\ _ =>
              eexists; split; [reflexivity|split; [reflexivity|]]
          | |- Forall _ _ => constructor
          end).

Ltac bound_to l := exists l; split_and!; [evaluate|evaluate|evaluate|well_formed].

(** C5: [forward] of an [Input] or a [Hidden] layer.  The batch [X] is
    the array bound to the attribute [X] of an [Input] layer (injected by
    [topological_sort]), and for a [Hidden] layer the array bound to
    [value] of its predecessor when [forward] runs, which [forward] first
    binds to its own [X].  Every row [i] of [value] is then
    [X[i] · W[i] + biases[i]]: for every neuron [j], the sum over the
    features [c] of [X[i,c] * W[i,c,j]], plus [biases[i,j]]. *)
Theorem affine_forward st self src name o n f k V X W B :
  (class_of st self CInput /\ src = self /\ name = "X" \/
   class_of st self CHidden /\ input_of st self = Some src /\ name = "value") ->
  attr_of st self "num_images" = Some (VInt n) ->
  attr_of st self "value" = Some (VArr o) ->
  arrays st !! o = Some V -> np.shape V = [n; k] -> np.wf V ->
  array_at st src name X [n; f] ->
  array_at st self "W" W [n; f; k] ->
  array_at st self "biases" B [n; k] ->
  attr_of st src name ≠ Some (VArr o) ->
  attr_of st self "W" ≠ Some (VArr o) ->
  attr_of st self "biases" ≠ Some (VArr o) ->
  exists V',
    forward self st
      = Returns tt (set_array (set_attr st self "X" (default VNone (attr_of st src name)))
                              o V') /\
    np.shape V' = [n; k] /\ np.wf V' /\
    forall i j, i < n -> j < k ->
      at_ V' [i; j] = (np.sum_upto f (fun c => at_ X [i; c] * at_ W [i; c; j])
                       + at_ B [i; j])%R.
Proof. apply affine_forward_spec. Qed.

Lemma affine_forward_witness :
  exists V',
    forward 1 ex_f1
      = Returns tt (set_array (set_attr ex_f1 1 "X" (default VNone (attr_of ex_f1 0 "value")))
                              10 V') /\
    np.shape V' = [1; 2] /\ np.wf V' /\
    forall i j, i < 1 -> j < 2 ->
      at_ V' [i; j]
      = (np.sum_upto 2 (fun c => at_ (ex_at ex_f1 9) [i; c] * at_ (ex_at ex_f1 3) [i; c; j])
         + at_ (ex_at ex_f1 4) [i; j])%R.
Proof.
  apply (affine_forward ex_f1 1 0 "value" 10 1 2 2 (ex_at ex_f1 10)).
  - right. split_and!; [|evaluate|reflexivity]. eexists. split; evaluate.
  - evaluate.
  - evaluate.
  - evaluate.
  - evaluate.
  - well_formed.
  - bound_to 9.
  - bound_to 3.
  - bound_to 4.
  - vm_compute. congruence.
  - vm_compute. congruence.
  - vm_compute. congruence.
Defined.

(** C4: [forward] of a [Softmax] layer writes, for every sample [i], the
    row [value[i]] whose entry [j] is [exp(input[i,j])] divided by the sum
    of [exp(input[i,c])] over the entries [c] of that row, [input] being
    the [value] of the predecessor; a row [[0, 0]] of the input gives the
    row [[1/2, 1/2]]. *)
Theorem Softmax_forward_rows st self p o n k V P :
  class_of st self CSoftmax ->
  input_of st self = Some p ->
  attr_of st self "num_images" = Some (VInt n) ->
  attr_of st self "value" = Some (VArr o) ->
  arrays st !! o = Some V -> np.shape V = [n; k] -> np.wf V ->
  array_at st p "value" P [n; k] ->
  attr_of st p "value" ≠ Some (VArr o) ->
  exists V',
    forward self st = Returns tt (set_array st o V') /\
    np.shape V' = [n; k] /\ np.wf V' /\
    (forall i j, i < n -> j < k ->
       at_ V' [i; j]
         = (exp (at_ P [i; j]) / np.sum_upto k (fun c => exp (at_ P [i; c])))%R) /\
    (forall i, i < n -> k = 2 -> at_ P [i; 0] = 0%R -> at_ P [i; 1] = 0%R ->
       at_ V' [i; 0] = (1 / 2)%R /\ at_ V' [i; 1] = (1 / 2)%R).
Proof.
  intros Hc Hp Hn Hv HVa HVs HVw HP Hsep.
  destruct (Softmax_forward_spec st self p o n k V P Hc Hp Hn Hv HVa HVs HVw HP Hsep)
    as (V' & Hrun & Hs & Hw & Hat).
  exists V'. split_and!; [done..|].
  intros i Hi -> H0 H1.
  rewrite !Hat by lia. rewrite sum_upto_2, H0, H1, exp_0. split; lra.
Qed.

Lemma Softmax_forward_rows_witness :
  exists V',
    forward 2 ex_f2 = Returns tt (set_array ex_f2 14 V') /\
    np.shape V' = [1; 2] /\ np.wf V' /\
    (forall i j, i < 1 -> j < 2 ->
       at_ V' [i; j]
         = (exp (at_ (ex_at ex_f2 10) [i; j])
            / np.sum_upto 2 (fun c => exp (at_ (ex_at ex_f2 10) [i; c])))%R) /\
    (forall i, i < 1 -> 2 = 2 ->
       at_ (ex_at ex_f2 10) [i; 0] = 0%R -> at_ (ex_at ex_f2 10) [i; 1] = 0%R ->
       at_ V' [i; 0] = (1 / 2)%R /\ at_ V' [i; 1] = (1 / 2)%R).
Proof.
  apply (Softmax_forward_rows ex_f2 2 1 14 1 2 (ex_at ex_f2 14)).
  - eexists. split; evaluate.
  - evaluate.
  - evaluate.
  - evaluate.
  - evaluate.
  - evaluate.
  - well_formed.
  - bound_to 10.
  - vm_compute. congruence.
Defined.

(** The affine output of the example is the row [[0, 0]]. *)
Lemma ex_f2_zero : at_ (ex_at ex_f2 10) [0; 0] = 0%R /\ at_ (ex_at ex_f2 10) [0; 1] = 0%R.
Proof. split; vm_compute; lra. Qed.

(** C3: [forward] of a [CrossEntropy] layer, where the logarithm is taken
    of positive numbers.  For every sample [i], [tmp_value[i]] is set to
    minus the sum over the classes [c] of [ideal_output[i,c]] times the
    natural logarithm of [value[i,c]] of the predecessor, and [value] is
    bound to a new scalar, the mean of [tmp_value] over the samples.  With
    one sample, the predecessor's row [[1/2, 1/2]] and the ideal output
    [[1, 0]], the loss is [- ln (1/2)]. *)
Theorem CrossEntropy_forward_loss st self p o n k T P Y :
  class_of st self CCrossEntropy ->
  input_of st self = Some p ->
  attr_of st self "num_images" = Some (VInt n) ->
  attr_of st self "tmp_value" = Some (VArr o) ->
  arrays st !! o = Some T -> np.shape T = [n] -> np.wf T ->
  array_at st p "value" P [n; k] ->
  array_at st self "ideal_output" Y [n; k] ->
  attr_of st p "value" ≠ Some (VArr o) ->
  attr_of st self "ideal_output" ≠ Some (VArr o) ->
  (forall i c, i < n -> c < k -> (0 < at_ P [i; c])%R) ->
  exists st' T' v,
    forward self st = Returns tt st' /\
    array_at st' self "tmp_value" T' [n] /\
    (forall i, i < n ->
       at_ T' [i] = (- np.sum_upto k (fun c => at_ Y [i; c] * ln (at_ P [i; c])))%R) /\
    array_at st' self "value" v [] /\
    at_ v [] = (np.sum_upto n (fun i => at_ T' [i]) / INR n)%R /\
    (n = 1 -> k = 2 ->
     at_ P [0; 0] = (1 / 2)%R -> at_ P [0; 1] = (1 / 2)%R ->
     at_ Y [0; 0] = 1%R -> at_ Y [0; 1] = 0%R ->
     at_ v [] = (- ln (1 / 2))%R).
Proof.
  intros Hc Hp Hn Hv HTa HTs HTw HP HY Hsep Hysep _.
  destruct (CrossEntropy_forward_spec st self p o n k T P Y
              Hc Hp Hn Hv HTa HTs HTw HP HY Hsep Hysep) as (T' & Hrun & Hs & Hw & Hat).
  destruct (mean_vector T' n Hs Hw) as (Hms & Hmw & Hmat).
  assert (self < length (layers st)) as Hlt by (by eapply attr_of_allocated).
  assert (o < length (arrays st)) as Ho by (by apply lookup_lt_Some in HTa).
  set (st1 := set_attr st self "softmax" (default VNone (attr_of st p "value"))) in *.
  assert (length (layers st1) = length (layers st)) as Hlen.
  { unfold st1, set_attr. destruct (layers st !! self); [|done].
    simpl. by rewrite length_insert. }
  assert (arrays st1 = arrays st) as Harr.
  { unfold st1, set_attr. by destruct (layers st !! self). }
  assert (attr_of st1 self "tmp_value" = Some (VArr o)) as Hv1.
  { unfold st1. rewrite attr_of_set_attr by done. by rewrite decide_False by (by intros [_ ?]). }
  exists (CrossEntropy_done st1 self o T'), T', (np.mean T').
  split_and!; [done| |done| |done|].
  - exists o. split_and!; [|  |done|done].
    + unfold CrossEntropy_done. rewrite attr_of_set_attr by (simpl; lia).
      by rewrite decide_False by (by intros [_ ?]).
    + unfold CrossEntropy_done, set_attr. cbn [layers arrays].
      destruct (layers st1 !! self); cbn [arrays];
        rewrite lookup_app_l by (rewrite length_insert, Harr; lia);
        apply list_lookup_insert_eq; rewrite Harr; lia.
  - exists (length (arrays st1)). split_and!; [| |done|done].
    + unfold CrossEntropy_done. rewrite attr_of_set_attr by (simpl; lia).
      by rewrite decide_True.
    + unfold CrossEntropy_done, set_attr. cbn [layers arrays].
      destruct (layers st1 !! self); cbn [arrays];
        rewrite lookup_app_r by (by rewrite length_insert);
        by rewrite length_insert, Nat.sub_diag.
  - intros -> -> P0 P1 Y0 Y1.
    rewrite Hmat, sum_upto_1, Hat by lia. rewrite sum_upto_2, P0, P1, Y0, Y1.
    cbn [INR]. lra.
Qed.

Lemma CrossEntropy_forward_loss_witness :
  exists st' T' v,
    forward 2 ex_loss = Returns tt st' /\
    array_at st' 2 "tmp_value" T' [1] /\
    (forall i, i < 1 ->
       at_ T' [i] = (- np.sum_upto 2 (fun c => at_ (ex_at ex_loss 5) [i; c]
                                               * ln (at_ (ex_at ex_loss 10) [i; c])))%R) /\
    array_at st' 2 "value" v [] /\
    at_ v [] = (np.sum_upto 1 (fun i => at_ T' [i]) / INR 1)%R /\
    (1 = 1 -> 2 = 2 ->
     at_ (ex_at ex_loss 10) [0; 0] = (1 / 2)%R -> at_ (ex_at ex_loss 10) [0; 1] = (1 / 2)%R ->
     at_ (ex_at ex_loss 5) [0; 0] = 1%R -> at_ (ex_at ex_loss 5) [0; 1] = 0%R ->
     at_ v [] = (- ln (1 / 2))%R).
Proof.
  apply (CrossEntropy_forward_loss ex_loss 2 1 14 1 2 (ex_at ex_loss 14)).
  - eexists. split; evaluate.
  - evaluate.
  - evaluate.
  - evaluate.
  - evaluate.
  - evaluate.
  - well_formed.
  - bound_to 10.
  - bound_to 5.
  - vm_compute. congruence.
  - vm_compute. congruence.
  - intros i c Hi Hc. destruct i as [|i]; [|lia]. destruct c as [|[|c]]; [| |lia].
    + vm_compute. lra.
    + vm_compute. lra.
Defined.

(** The loss of the example is taken of the row [[1/2, 1/2]] against the
    ideal output [[1, 0]]. *)
Lemma ex_loss_rows :
  at_ (ex_at ex_loss 10) [0; 0] = (1 / 2)%R /\ at_ (ex_at ex_loss 10) [0; 1] = (1 / 2)%R /\
  at_ (ex_at ex_loss 5) [0; 0] = 1%R /\ at_ (ex_at ex_loss 5) [0; 1] = 0%R.
Proof. split_and!; vm_compute; lra. Qed.

(** * The backward pass *)

(** C6: [backward] of an [Input] or a [Hidden] layer with a successor at
    the index 0 of [outbound_layers].  The array [g] bound to [gradients] of
    that successor is bound to [input_gradients], and for every sample [i]:
    [W_gradients[i]] is [np.dot(W[i], g[i])], the sums over [c] of
    [W[i,a,c] * g[i,c]]; [b_gradients[i]] is [np.dot(g[i], biases[i])], the
    sum over [c] of [g[i,c] * biases[i,c]]; and [gradients[i]] is
    [W_gradients[i] * b_gradients[i]], entry by entry.  The three buffers
    are distinct arrays, none of them an array that is read. *)
Theorem affine_backward st self succ wl bl gl wgl bgl ol n f k W B Gin Wg Bg Go :
  class_of st self CInput \/ class_of st self CHidden ->
  succs st self !! 0 = Some succ ->
  attr_of st succ "gradients" = Some (VArr gl) ->
  attr_of st self "num_images" = Some (VInt n) ->
  attr_of st self "W" = Some (VArr wl) ->
  attr_of st self "biases" = Some (VArr bl) ->
  attr_of st self "W_gradients" = Some (VArr wgl) ->
  attr_of st self "b_gradients" = Some (VArr bgl) ->
  attr_of st self "gradients" = Some (VArr ol) ->
  arrays st !! wl = Some W -> arrays st !! bl = Some B -> arrays st !! gl = Some Gin ->
  arrays st !! wgl = Some Wg -> arrays st !! bgl = Some Bg -> arrays st !! ol = Some Go ->
  np.shape W = [n; f; k] -> np.shape B = [n; k] -> np.shape Gin = [n; k] ->
  np.shape Wg = [n; f] -> np.shape Bg = [n] -> np.shape Go = [n; f] ->
  np.wf W -> np.wf B -> np.wf Gin -> np.wf Wg -> np.wf Bg -> np.wf Go ->
  NoDup [wgl; bgl; ol] ->
  (forall x, x ∈ [wl; bl; gl] -> x ∉ [wgl; bgl; ol]) ->
  exists st' Wg' Bg' Go',
    backward self st = Returns tt st' /\
    attr_of st' self "input_gradients" = Some (VArr gl) /\
    arrays st' !! gl = Some Gin /\
    array_at st' self "W_gradients" Wg' [n; f] /\
    array_at st' self "b_gradients" Bg' [n] /\
    array_at st' self "gradients" Go' [n; f] /\
    forall i, i < n ->
      (forall a, a < f ->
         at_ Wg' [i; a] = np.sum_upto k (fun c => at_ W [i; a; c] * at_ Gin [i; c])%R) /\
      at_ Bg' [i] = np.sum_upto k (fun c => at_ Gin [i; c] * at_ B [i; c])%R /\
      (forall a, a < f -> at_ Go' [i; a] = (at_ Wg' [i; a] * at_ Bg' [i])%R).
Proof.
  intros Hcls Hsucc Hg Hn HW HB HWg HBg HO HWa HBa HGa HWga HBga HOa
    HWs HBs HGs HWgs HBgs HOs HWw HBw HGw HWgw HBgw HOw Hout Hin.
  destruct (affine_backward_spec st self succ wl bl gl wgl bgl ol n f k W B Gin Wg Bg Go)
    as (st' & Wg' & Bg' & Go' & Hrun & _ & Hb & Hrows); try done.
  destruct Hb as [_ _ Hg' HWg' HBg' HO' _ _ HGa' HWga' HBga' HOa'
                  HWgs' HBgs' HOs' HWgw' HBgw' HOw'].
  exists st', Wg', Bg', Go'. split_and!; [done..| | | |].
  - by exists wgl.
  - by exists bgl.
  - by exists ol.
  - intros i Hi. apply (Hrows i Hi).
Qed.

Lemma affine_backward_witness :
  exists st' Wg' Bg' Go',
    backward 1 ex_b2 = Returns tt st' /\
    attr_of st' 1 "input_gradients" = Some (VArr 15) /\
    arrays st' !! 15 = Some (ex_at ex_b2 15) /\
    array_at st' 1 "W_gradients" Wg' [1; 2] /\
    array_at st' 1 "b_gradients" Bg' [1] /\
    array_at st' 1 "gradients" Go' [1; 2] /\
    forall i, i < 1 ->
      (forall a, a < 2 ->
         at_ Wg' [i; a] = np.sum_upto 2 (fun c => at_ (ex_at ex_b2 3) [i; a; c]
                                                  * at_ (ex_at ex_b2 15) [i; c])%R) /\
      at_ Bg' [i] = np.sum_upto 2 (fun c => at_ (ex_at ex_b2 15) [i; c]
                                            * at_ (ex_at ex_b2 4) [i; c])%R /\
      (forall a, a < 2 -> at_ Go' [i; a] = (at_ Wg' [i; a] * at_ Bg' [i])%R).
Proof.
  apply (affine_backward ex_b2 1 2 3 4 15 11 12 13 1 2 2
           (ex_at ex_b2 3) (ex_at ex_b2 4) (ex_at ex_b2 15)
           (ex_at ex_b2 11) (ex_at ex_b2 12) (ex_at ex_b2 13)).
  - right. eexists. split; evaluate.
  - evaluate.
  - evaluate.
  - evaluate.
  - evaluate.
  - evaluate.
  - evaluate.
  - evaluate.
  - evaluate.
  - evaluate.
  - evaluate.
  - evaluate.
  - evaluate.
  - evaluate.
  - evaluate.
  - evaluate.
  - evaluate.
  - evaluate.
  - evaluate.
  - evaluate.
  - evaluate.
  - well_formed.
  - well_formed.
  - well_formed.
  - well_formed.
  - well_formed.
  - well_formed.
  - repeat constructor; set_solver.
  - set_solver.
Defined.

(** * The update *)



(** * Running forward again *)

(** C8: for a layer of any of the four classes whose buffer is apart from
    the arrays its loop reads, when [forward] has returned, [forward] run
    again at once returns and [value] holds the same array as after the
    first run. *)
Theorem forward_twice st self st1 :
  separated st self ->
  forward self st = Returns tt st1 ->
  exists st2 V,
    forward self st1 = Returns tt st2 /\
    array_of st1 self "value" = Some V /\
    array_of st2 self "value" = Some V.
Proof. apply forward_again. Qed.

(** Each layer of the example is apart from what it reads when its turn to
    run [forward] comes. *)
Lemma ex_separated :
  separated ex_sorted 0 /\ separated ex_f1 1 /\ separated ex_f2 2 /\ separated ex_f3 3.
Proof.
  split_and!.
  - apply (separated_Input ex_sorted 0 1 9 (ex_at ex_sorted 9));
      [eexists; split; evaluate|evaluate..| | |]; vm_compute; congruence.
  - apply (separated_Hidden ex_f1 1 0 (VArr 9) 1 10 (ex_at ex_f1 10));
      [eexists; split; evaluate|evaluate..|congruence| |]; vm_compute; congruence.
  - apply (separated_Softmax ex_f2 2 1 (VArr 10) 1 14 (ex_at ex_f2 14));
      [eexists; split; evaluate|evaluate..|congruence].
  - apply (separated_CrossEntropy ex_f3 3 2 (VArr 14) 1 16 (ex_at ex_f3 16));
      [eexists; split; evaluate|evaluate|lia|evaluate..|congruence|];
      vm_compute; congruence.
Qed.

Lemma forward_twice_witness :
  exists st2 V,
    forward 2 ex_f3 = Returns tt st2 /\
    array_of ex_f3 2 "value" = Some V /\
    array_of st2 2 "value" = Some V.
Proof.
  apply (forward_twice ex_f2 2 ex_f3).
  - apply ex_separated.
  - evaluate.
Defined.

(** * The shape of the batch *)





(** * Further properties of the engine *)

(** ** The graphs the constructors build *)

Lemma wired_tc_lt s n m : wired s -> tc (edge s) n m -> n < m.
Proof.
  intros Hw. induction 1 as [n m He|n m k He _ IH].
  - by apply (wired_edge_lt s).
  - apply (wired_edge_lt s) in He; [lia|done].
Qed.

(** X1: the layers built by the constructors form a forest.  Every
    reference in an [outbound_layers] list is to a layer of the store, a
    layer is listed by one layer at most, and no layer can be reached from
    itself: no key of a feed specification leads to a cycle. *)
Theorem constructed_forest s :
  constructed s ->
  closed s /\
  (forall p q m, edge s p m -> edge s q m -> p = q) /\
  (forall n, ~ tc (edge s) n n) /\
  (forall n, ~ reaches_cycle s n).
Proof.
  intros Hc. pose proof (constructed_wired s Hc) as Hw. split_and!.
  - by apply wired_closed.
  - intros p q m Hp Hq. apply (wired_succ s Hw) in Hp, Hq.
    by apply (wired_pred_unique s m).
  - intros n Hn. apply (wired_tc_lt s n n Hw) in Hn. lia.
  - intros n (c & _ & Hcyc). apply (wired_tc_lt s c c Hw) in Hcyc. lia.
Qed.

Lemma constructed_forest_witness :
  closed ex_net /\
  (forall p q m, edge ex_net p m -> edge ex_net q m -> p = q) /\
  (forall n, ~ tc (edge ex_net) n n) /\
  (forall n, ~ reaches_cycle ex_net n).
Proof. apply (constructed_forest ex_net). apply ex_net_constructed. Defined.

(** ** Errors of the backward pass *)

(** X2: [backward] of an [Input] or a [Hidden] layer that has no successor
    stops at [self.outbound_layers[0]] with an [IndexError]; with a first
    successor that has no attribute [gradients] (a [CrossEntropy] layer
    has none: its [backward] binds [gradient]) it stops with an
    [AttributeError].  Either way the store is as it was. *)
Theorem affine_backward_errors st self :
  class_of st self CInput \/ class_of st self CHidden ->
  (succs st self = [] -> backward self st = Raises IndexError st) /\
  (forall succ, succs st self !! 0 = Some succ -> succ < length (layers st) ->
     attr_of st succ "gradients" = None ->
     backward self st = Raises AttributeError st).
Proof.
  intros Hcls.
  assert (exists l, layers st !! self = Some l /\
            backward self st = Input.backward self st) as (l & Hl & ->).
  { unfold backward.
    destruct Hcls as [(l & Hl & Hc)|(l & Hl & Hc)]; exists l; (split; [done|]);
      by rewrite (bind_returns _ _ _ _ _ (get_layer_returns _ _ _ Hl)), Hc. }
  unfold succs. rewrite Hl. split.
  - intros Hs. unfold Input.backward.
    rewrite (bind_returns _ _ _ _ _ (get_layer_returns _ _ _ Hl)), Hs. done.
  - intros succ Hs Hlt Hg. unfold Input.backward.
    rewrite (bind_returns _ _ _ _ _ (get_layer_returns _ _ _ Hl)).
    rewrite (bind_returns _ _ _ _ _ (item_returns _ _ _ _ Hs)).
    apply bind_raises. unfold getattr.
    destruct (lookup_lt_is_Some_2 _ _ Hlt) as [ls Hls].
    rewrite (bind_returns _ _ _ _ _ (get_layer_returns _ _ _ Hls)).
    unfold attr_of in Hg. rewrite Hls in Hg. simpl in Hg. by rewrite Hg.
Qed.

(** In the example of three layers the successor of the [Hidden] layer is
    the [CrossEntropy] layer. *)
Lemma affine_backward_errors_witness :
  (succs ex_loss 1 = [] -> backward 1 ex_loss = Raises IndexError ex_loss) /\
  (forall succ, succs ex_loss 1 !! 0 = Some succ -> succ < length (layers ex_loss) ->
     attr_of ex_loss succ "gradients" = None ->
     backward 1 ex_loss = Raises AttributeError ex_loss).
Proof.
  apply (affine_backward_errors ex_loss 1). right. eexists. split; evaluate.
Defined.

Lemma ex_loss_successor :
  succs ex_loss 1 !! 0 = Some 2 /\ class_of ex_loss 2 CCrossEntropy /\
  attr_of ex_loss 2 "gradients" = None.
Proof. split_and!; [evaluate| |evaluate]. eexists. split; evaluate. Qed.

(** ** The update loop *)

(** X3: a position [n] of [trainables] that holds an array and for which
    no gradient was harvested (the list [partials] is shorter) makes the
    update loop stop with the [IndexError] of [partials[n]]; nothing is
    written. *)
Theorem update_without_partial st trainables partials learning_rate n lt T :
  trainables !! n = Some (VArr lt) -> arrays st !! lt = Some T ->
  length partials <= n ->
  update trainables partials learning_rate n st = Raises IndexError st.
Proof. apply update_no_partial. Qed.

Lemma update_without_partial_witness :
  update [VArr 0; VArr 1] [VArr 1] (1 / 10) 1 ex_update = Raises IndexError ex_update.
Proof.
  apply (update_without_partial ex_update [VArr 0; VArr 1] [VArr 1] (1 / 10)%R 1 1
           (ex_at ex_update 1)).
  - reflexivity.
  - reflexivity.
  - simpl. lia.
Defined.

(** ** The empty feed specification *)

(** X4: with an empty [feed_dict], [topological_sort] returns the empty
    list at once, and [train_SGD] runs no layer and stops with an
    [IndexError]: at [partials[0]] when it is given arrays to train, else
    at [sorted_layers[-1]].  The store is as it was. *)
Theorem empty_feed choose fuel ideal_output trainables learning_rate s :
  (forall v, v ∈ trainables -> exists l a, v = VArr l /\ arrays s !! l = Some a) ->
  topological_sort choose fuel [] ideal_output s = Returns [] s /\
  train_SGD choose fuel [] ideal_output trainables learning_rate s = Raises IndexError s.
Proof.
  intros Harr.
  assert (topological_sort choose fuel [] ideal_output s = Returns [] s) as Hsort.
  { unfold topological_sort. by destruct fuel. }
  split; [done|]. unfold train_SGD.
  rewrite (bind_returns _ _ _ _ _ Hsort). cbv zeta.
  change (reverse []) with (@nil nat). cbn [for_each length take Nat.sub for_fold].
  rewrite !bind_ret.
  destruct trainables as [|v ts]; [reflexivity|].
  destruct (Harr v) as (l & a & -> & Ha); [by left|].
  apply bind_raises. unfold for_range. cbn [length seq for_each].
  apply bind_raises. by apply (update_no_partial s _ _ _ 0 l a).
Qed.

Lemma empty_feed_witness :
  topological_sort ex_choose 0 [] VNone ex_update = Returns [] ex_update /\
  train_SGD ex_choose 0 [] VNone [VArr 0] 1 ex_update = Raises IndexError ex_update.
Proof.
  apply (empty_feed ex_choose 0 VNone [VArr 0] 1%R ex_update).
  intros v ->%list_elem_of_singleton. by eexists _, _.
Defined.

(** ** The numbers of the forward pass *)

Lemma sum_list_nonneg (g : nat -> R) (l : list nat) :
  (forall c, c ∈ l -> (0 <= g c)%R) -> (0 <= np.sum_list (map g l))%R.
Proof.
  induction l as [|c l IH]; intros H; simpl; [lra|].
  assert (0 <= g c)%R by (apply H; by left).
  assert (0 <= np.sum_list (map g l))%R by (apply IH; intros; apply H; by right).
  lra.
Qed.

Lemma sum_upto_nonneg n g :
  (forall c, c < n -> (0 <= g c)%R) -> (0 <= np.sum_upto n g)%R.
Proof. intros H. apply sum_list_nonneg. intros c [_ Hc]%elem_of_seq. apply H. lia. Qed.

(** The two arrays of a [CrossEntropy] layer after [forward]. *)
Lemma CrossEntropy_done_arrays st self o T T' v :
  attr_of st self "tmp_value" = Some (VArr o) -> arrays st !! o = Some T ->
  let st1 := set_attr st self "softmax" v in
  array_of (CrossEntropy_done st1 self o T') self "tmp_value" = Some T' /\
  array_of (CrossEntropy_done st1 self o T') self "value" = Some (np.mean T').
Proof.
  intros Hv HTa st1.
  assert (self < length (layers st)) as Hlt by (by eapply attr_of_allocated).
  assert (o < length (arrays st)) as Ho by (by apply lookup_lt_Some in HTa).
  assert (length (layers st1) = length (layers st)) as Hlen.
  { unfold st1, set_attr. destruct (layers st !! self); [|done].
    simpl. by rewrite length_insert. }
  assert (arrays st1 = arrays st) as Harr.
  { unfold st1, set_attr. by destruct (layers st !! self). }
  assert (attr_of st1 self "tmp_value" = Some (VArr o)) as Hv1.
  { unfold st1. rewrite attr_of_set_attr by done. by rewrite decide_False by (by intros [_ ?]). }
  split.
  - apply (array_of_eq _ _ _ o).
    + unfold CrossEntropy_done. rewrite attr_of_set_attr by (simpl; lia).
      by rewrite decide_False by (by intros [_ ?]).
    + unfold CrossEntropy_done, set_attr. cbn [layers arrays].
      destruct (layers st1 !! self); cbn [arrays];
        rewrite lookup_app_l by (rewrite length_insert, Harr; lia);
        apply list_lookup_insert_eq; rewrite Harr; lia.
  - apply array_of_CrossEntropy_done; [lia|]. by rewrite Harr.
Qed.

(** X6: after [forward] of a [CrossEntropy] layer on a batch of one image
    at least, when the ideal output has no negative entry and the entries of
    the predecessor's [value] are positive and at most 1, no [tmp_value[i]]
    is negative, and so is not their mean, the loss bound to [value]. *)
Theorem CrossEntropy_forward_nonnegative st self p o n k T P Y :
  class_of st self CCrossEntropy ->
  input_of st self = Some p ->
  attr_of st self "num_images" = Some (VInt n) ->
  0 < n ->
  attr_of st self "tmp_value" = Some (VArr o) ->
  arrays st !! o = Some T -> np.shape T = [n] -> np.wf T ->
  array_at st p "value" P [n; k] ->
  array_at st self "ideal_output" Y [n; k] ->
  attr_of st p "value" ≠ Some (VArr o) ->
  attr_of st self "ideal_output" ≠ Some (VArr o) ->
  (forall i c, i < n -> c < k -> (0 <= at_ Y [i; c])%R) ->
  (forall i c, i < n -> c < k -> (0 < at_ P [i; c] <= 1)%R) ->
  exists st' T' v,
    forward self st = Returns tt st' /\
    array_of st' self "tmp_value" = Some T' /\
    array_of st' self "value" = Some v /\
    (forall i, i < n -> (0 <= at_ T' [i])%R) /\
    (0 <= at_ v [])%R.
Proof.
  intros Hc Hp Hn Hpos Hv HTa HTs HTw HP HY Hsep Hysep HYpos HPpos.
  destruct (CrossEntropy_forward_spec st self p o n k T P Y
              Hc Hp Hn Hv HTa HTs HTw HP HY Hsep Hysep) as (T' & Hrun & Hs & Hw & Hat).
  destruct (mean_vector T' n Hs Hw) as (_ & _ & Hmean).
  set (st1 := set_attr st self "softmax" (default VNone (attr_of st p "value"))) in *.
  set (st' := CrossEntropy_done st1 self o T') in *. set (v := np.mean T').
  destruct (CrossEntropy_done_arrays st self o T T' (default VNone (attr_of st p "value"))
              Hv HTa) as [HT' Hv'].
  fold st1 st' in HT', Hv'.
  exists st', T', v.
  assert (forall i, i < n -> (0 <= at_ T' [i])%R) as Hnn.
  { intros i Hi. rewrite Hat by done.
    assert (np.sum_upto k (fun c => at_ Y [i; c] * ln (at_ P [i; c])) <= 0)%R; [|lra].
    apply Ropp_le_cancel. rewrite Ropp_0.
    replace (- np.sum_upto k (fun c => at_ Y [i; c] * ln (at_ P [i; c])))%R
      with (np.sum_upto k (fun c => at_ Y [i; c] * - ln (at_ P [i; c])))%R.
    - apply sum_upto_nonneg. intros c Hk.
      specialize (HYpos i c Hi Hk). destruct (HPpos i c Hi Hk) as [H0 H1].
      assert (ln (at_ P [i; c]) <= 0)%R.
      { rewrite <- ln_1. destruct H1 as [H1 | ->]; [left; by apply ln_increasing|lra]. }
      apply Rmult_le_pos; lra.
    - unfold np.sum_upto. induction (seq 0 k) as [|c l IH]; simpl; [lra|].
      rewrite IH. lra. }
  split_and!; [done| | |done|].
  - done.
  - done.
  - unfold v. rewrite Hmean. apply Rmult_le_pos.
    + apply sum_upto_nonneg. intros i Hi. by apply Hnn.
    + left. apply Rinv_0_lt_compat. by apply lt_0_INR.
Qed.

Lemma CrossEntropy_forward_nonnegative_witness :
  exists st' T' v,
    forward 2 ex_loss = Returns tt st' /\
    array_of st' 2 "tmp_value" = Some T' /\
    array_of st' 2 "value" = Some v /\
    (forall i, i < 1 -> (0 <= at_ T' [i])%R) /\
    (0 <= at_ v [])%R.
Proof.
  apply (CrossEntropy_forward_nonnegative ex_loss 2 1 14 1 2 (ex_at ex_loss 14)
           (ex_at ex_loss 10) (ex_at ex_loss 5)).
  - eexists. split; evaluate.
  - evaluate.
  - evaluate.
  - lia.
  - evaluate.
  - evaluate.
  - evaluate.
  - well_formed.
  - bound_to 10.
  - bound_to 5.
  - vm_compute. congruence.
  - vm_compute. congruence.
  - intros i c Hi Hc. destruct i as [|i]; [|lia]. destruct c as [|[|c]]; [| |lia].
    + vm_compute. lra.
    + vm_compute. lra.
  - intros i c Hi Hc. destruct i as [|i]; [|lia]. destruct c as [|[|c]]; [| |lia].
    + vm_compute. lra.
    + vm_compute. lra.
Defined.

(** ** The backward pass of Softmax *)

(** Two arrays of one shape with the same elements are the same array. *)
Lemma array_ext a b d sh :
  np.shape a = d :: sh -> np.shape b = d :: sh -> np.wf a -> np.wf b ->
  (forall i idx, i < d -> at_ a (i :: idx) = at_ b (i :: idx)) -> a = b.
Proof.
  destruct a as [sa ta], b as [sb tb]. unfold np.wf, at_. simpl.
  intros -> -> Ha Hb H. f_equal.
  rewrite <- (build_index _ _ Ha), <- (build_index _ _ Hb).
  apply build_ext. intros idx Hidx. unfold in_range in Hidx.
  inversion Hidx as [|i d' idx' sh' Hi _]; subst. by apply H.
Qed.

(** The transpose of a vector is the vector. *)
Lemma T_vector r k : np.shape r = [k] -> np.wf r -> np.T r = r.
Proof.
  destruct r as [sr tr]. unfold np.wf, np.T. simpl. intros -> Hw.
  change (reverse [k]) with [k]. f_equal.
  etrans; [|exact (build_index _ _ Hw)]. apply build_ext.
  intros idx Hidx. unfold in_range in Hidx.
  inversion Hidx as [|i d idx' sh' Hi Hrest]; subst. inversion Hrest; subst. done.
Qed.

(** X7: [backward] of a [Softmax] layer copies [value] into [gradients],
    row by row (the transpose of a row is the row): afterwards the two
    attributes hold arrays with the same contents, and [value] is as it
    was. *)
Theorem Softmax_backward_copies st self o g n k V G :
  class_of st self CSoftmax ->
  attr_of st self "num_images" = Some (VInt n) ->
  attr_of st self "value" = Some (VArr o) ->
  attr_of st self "gradients" = Some (VArr g) ->
  arrays st !! o = Some V -> arrays st !! g = Some G ->
  np.shape V = [n; k] -> np.shape G = [n; k] -> np.wf V -> np.wf G ->
  o ≠ g ->
  exists st',
    backward self st = Returns tt st' /\
    wiring st' = wiring st /\
    array_of st' self "value" = Some V /\
    array_of st' self "gradients" = Some V.
Proof.
  intros (l & Hl & Hc) Hn Hv Hg HVa HGa HVs HGs HVw HGw Hog.
  destruct (for_range_inv
    (fun m s => layers s = layers st /\ arrays s !! o = Some V /\
       exists G', arrays s !! g = Some G' /\ np.shape G' = [n; k] /\ np.wf G' /\
         forall i idx, i < m -> at_ G' (i :: idx) = at_ V (i :: idx))
    n (Softmax.backward_body self) st) as (st' & Hrun & Hlay & HVa' & G' & HGa' & HGs' & HGw' & Hat).
  - split_and!; [done..|]. exists G. split_and!; [done..|]. intros i idx Hi. lia.
  - intros i s Hi (Hlay & HVs0 & G1 & HG1 & HG1s & HG1w & Hat).
    assert (forall m name, attr_of s m name = attr_of st m name) as Hattr.
    { intros m name. unfold attr_of. by rewrite Hlay. }
    destruct (getitem_row V n [k] i HVs HVw Hi) as (vi & Hvi & Hvis & Hviw & Hviat).
    destruct (assign_row s self "gradients" g G1 n [k] i vi)
      as (G2 & Hset & HG2s & HG2w & Hget & Hoth); rewrite ?Hattr; try done.
    exists (set_array s g G2). split.
    + unfold Softmax.backward_body.
      assert (attr_of s self "value" = Some (VArr o)) as Hv' by (by rewrite Hattr).
      rewrite (bind_returns _ _ _ _ _ (attr_item_returns _ _ _ _ _ _ _ Hv' HVs0 Hvi)).
      by rewrite (T_vector vi k).
    + assert (g < length (arrays s)) as Hglt by (by apply lookup_lt_Some in HG1).
      split_and!; [done| |].
      * by rewrite set_array_lookup, decide_False.
      * exists G2. split_and!; [|done..|].
        { by rewrite set_array_lookup, decide_True. }
        intros j idx Hj. destruct (decide (j = i)) as [->|Hne].
        { by rewrite <- (getitem_at G2 i vi idx Hget), Hviat. }
        rewrite <- Hat by lia.
        apply (getitem_same_at G1 G2 n [k]); [done|done|lia|]. by apply Hoth.
  - exists st'. assert (G' = V) as ->.
    { by apply (array_ext G' V n [k]). }
    assert (forall name, attr_of st' self name = attr_of st self name) as Hattr.
    { intros name. unfold attr_of. by rewrite Hlay. }
    split_and!.
    + unfold backward. rewrite (bind_returns _ _ _ _ _ (get_layer_returns _ _ _ Hl)), Hc.
      unfold Softmax.backward. by rewrite (bind_returns _ _ _ _ _ (get_int_eq _ _ _ _ Hn)).
    + unfold wiring. by rewrite Hlay.
    + apply (array_of_eq _ _ _ o); [by rewrite Hattr|done].
    + apply (array_of_eq _ _ _ g); [by rewrite Hattr|done].
Qed.

Lemma Softmax_backward_copies_witness :
  exists st',
    backward 2 ex_b3 = Returns tt st' /\
    wiring st' = wiring ex_b3 /\
    array_of st' 2 "value" = Some (ex_at ex_b3 14) /\
    array_of st' 2 "gradients" = Some (ex_at ex_b3 14).
Proof.
  apply (Softmax_backward_copies ex_b3 2 14 15 1 2 (ex_at ex_b3 14) (ex_at ex_b3 15)).
  - eexists. split; evaluate.
  - evaluate.
  - evaluate.
  - evaluate.
  - evaluate.
  - evaluate.
  - evaluate.
  - evaluate.
  - well_formed.
  - well_formed.
  - lia.
Defined.

(** ** The constructors *)

(** *** How a constructor runs *)

Lemma new_init_eq {B} c pred (f : nat -> M B) s :
  (forall p, pred = Some p -> p < length (layers s)) ->
  (self ← new c; _ ← Layer.__init__ self pred; f self) s
  = f (length (layers s)) (wired_in s c pred).
Proof.
  intros Hp. unfold mbind at 1, M_bind at 1, new.
  unfold Layer.__init__, wired_in, mbind, M_bind, upd_layer. simpl.
  rewrite lookup_app_r, Nat.sub_diag by done. simpl.
  rewrite insert_app_r_alt, Nat.sub_diag by done. simpl.
  destruct pred as [p|]; simpl; [|done].
  specialize (Hp p eq_refl).
  destruct (lookup_lt_is_Some_2 (layers s) p Hp) as [lp Hlp].
  by rewrite lookup_app_l, Hlp by done.
Qed.

Lemma wired_in_length s c pred : length (layers (wired_in s c pred)) = S (length (layers s)).
Proof.
  unfold wired_in. cbn [layers]. destruct pred as [p|].
  - destruct ((layers s ++ _) !! p); rewrite ?length_insert, length_app; simpl; lia.
  - rewrite length_app. simpl. lia.
Qed.

Lemma wired_in_self s c pred :
  (forall p, pred = Some p -> p < length (layers s)) ->
  layers (wired_in s c pred) !! length (layers s) = Some (mkLayer c pred [] ∅).
Proof.
  intros Hp. unfold wired_in. cbn [layers]. destruct pred as [p|].
  - specialize (Hp p eq_refl).
    destruct (lookup_lt_is_Some_2 (layers s) p Hp) as [lp Hlp].
    rewrite lookup_app_l, Hlp by done.
    rewrite list_lookup_insert_ne by lia.
    by rewrite lookup_app_r, Nat.sub_diag.
  - by rewrite lookup_app_r, Nat.sub_diag.
Qed.

Lemma wired_in_attr s c pred n name :
  n < length (layers s) ->
  attr_of (wired_in s c pred) n name = attr_of s n name.
Proof.
  intros Hn. unfold wired_in, attr_of. cbn [layers].
  destruct (lookup_lt_is_Some_2 (layers s) n Hn) as [ln Hln].
  destruct pred as [p|].
  - destruct ((layers s ++ _) !! p) as [lp|] eqn:Hlp.
    + destruct (decide (n = p)) as [->|Hne].
      * rewrite list_lookup_insert_eq by (by apply lookup_lt_Some in Hlp).
        rewrite lookup_app_l in Hlp by done. rewrite Hln in Hlp |- *.
        by injection Hlp as <-.
      * rewrite list_lookup_insert_ne by done. by rewrite lookup_app_l.
    + by rewrite lookup_app_l.
  - by rewrite lookup_app_l.
Qed.

Lemma wired_in_edge s c p :
  p < length (layers s) -> edge (wired_in s c (Some p)) p (length (layers s)).
Proof.
  intros Hp. unfold wired_in, edge. cbn [layers].
  destruct (lookup_lt_is_Some_2 (layers s) p Hp) as [lp Hlp].
  rewrite lookup_app_l, Hlp by done.
  eexists. split.
  - apply list_lookup_insert_eq. rewrite length_app. lia.
  - simpl. apply elem_of_app. right. by left.
Qed.

Lemma set_attr_length st n name v :
  length (layers (set_attr st n name v)) = length (layers st).
Proof.
  unfold set_attr. destruct (layers st !! n); [|done]. simpl. apply length_insert.
Qed.

Lemma set_attr_arrays st n name v : arrays (set_attr st n name v) = arrays st.
Proof. unfold set_attr. by destruct (layers st !! n). Qed.

Lemma setattr_step {B} n name v (f : M B) st :
  n < length (layers st) ->
  (_ ← setattr n name v; f) st = f (set_attr st n name v).
Proof.
  intros Hn. destruct (lookup_lt_is_Some_2 _ _ Hn) as [l Hl].
  by rewrite (bind_returns _ _ _ _ _ (setattr_eq _ _ _ _ _ Hl)).
Qed.

Lemma getattr_step {B} n name v (f : pyval -> M B) st :
  attr_of st n name = Some v -> (getattr n name ≫= f) st = f v st.
Proof. intros H. by rewrite (bind_returns _ _ _ _ _ (attr_of_getattr _ _ _ _ H)). Qed.

Lemma attr_of_set_attr_eq st n name v :
  n < length (layers st) -> attr_of (set_attr st n name v) n name = Some v.
Proof. intros Hn. rewrite attr_of_set_attr by done. by rewrite decide_True. Qed.

Lemma attr_of_set_attr_ne st n name v n' name' :
  name' ≠ name -> attr_of (set_attr st n name v) n' name' = attr_of st n' name'.
Proof.
  intros Hne. destruct (decide (n < length (layers st))) as [Hn|Hn].
  - rewrite attr_of_set_attr by done. rewrite decide_False; [done|tauto].
  - unfold set_attr. by rewrite (proj2 (lookup_ge_None _ _)) by lia.
Qed.

Lemma input_of_wired_in s c pred :
  (forall p, pred = Some p -> p < length (layers s)) ->
  input_of (wired_in s c pred) (length (layers s)) = pred.
Proof. intros Hp. unfold input_of. by rewrite wired_in_self. Qed.

Lemma input_of_set_attr_eq st n name v m : input_of (set_attr st n name v) m = input_of st m.
Proof. apply input_of_set_attr. Qed.

Lemma getattr_missing n name st :
  n < length (layers st) -> attr_of st n name = None ->
  getattr n name st = Raises AttributeError st.
Proof.
  intros Hn Hv. destruct (lookup_lt_is_Some_2 _ _ Hn) as [l Hl].
  unfold getattr. rewrite (bind_returns _ _ _ _ _ (get_layer_returns _ _ _ Hl)).
  unfold attr_of in Hv. rewrite Hl in Hv. simpl in Hv. by rewrite Hv.
Qed.

Lemma getattr_input_step {B} self name p v (f : pyval -> M B) st :
  input_of st self = Some p -> attr_of st p name = Some v ->
  (getattr_input self name ≫= f) st = f v st.
Proof. intros Hp Hv. by rewrite (bind_returns _ _ _ _ _ (getattr_input_eq _ _ _ _ _ Hp Hv)). Qed.

Lemma getattr_input_missing self name p st :
  input_of st self = Some p -> p < length (layers st) -> attr_of st p name = None ->
  getattr_input self name st = Raises AttributeError st.
Proof.
  unfold input_of, getattr_input. intros Hp Hlt Hv.
  destruct (layers st !! self) as [l|] eqn:Hl; [|done]. simpl in Hp.
  rewrite (bind_returns _ _ _ _ _ (get_layer_returns _ _ _ Hl)), Hp.
  by apply getattr_missing.
Qed.

Lemma edge_set_attr st n name v p m : edge st p m -> edge (set_attr st n name v) p m.
Proof.
  intros (l & Hl & Hm). unfold set_attr, edge.
  destruct (layers st !! n) as [ln|] eqn:Hn; [|by exists l]. cbn [layers].
  destruct (decide (p = n)) as [->|Hne].
  - rewrite list_lookup_insert_eq by (by apply lookup_lt_Some in Hn).
    eexists. split; [done|]. simpl. congruence.
  - rewrite list_lookup_insert_ne by done. by exists l.
Qed.

(** X8: a [Softmax] or a [CrossEntropy] layer cannot be built on a layer
    that has no attribute [num_classes] (an [Input] layer has none): the
    constructor stops with an [AttributeError].  By then [Layer.__init__]
    has run: the layer that could not be built is the last entry of the
    [outbound_layers] of its predecessor. *)
Theorem needs_num_classes junk s p :
  p < length (layers s) ->
  attr_of s p "num_classes" = None ->
  (exists s',
     (self ← new CSoftmax; Softmax.__init__ junk self (Some p)) s
       = Raises AttributeError s' /\
     edge s' p (length (layers s))) /\
  (exists s',
     (self ← new CCrossEntropy; CrossEntropy.__init__ junk self (Some p)) s
       = Raises AttributeError s' /\
     edge s' p (length (layers s))).
Proof.
  intros Hp Hnc.
  assert (forall q, Some p = Some q -> q < length (layers s)) as Hq by (by intros q [= <-]).
  split.
  - exists (wired_in s CSoftmax (Some p)). split; [|by apply wired_in_edge].
    unfold Softmax.__init__. rewrite new_init_eq by done.
    apply bind_raises. apply (getattr_input_missing _ _ p).
    + by apply input_of_wired_in.
    + rewrite wired_in_length. lia.
    + by rewrite wired_in_attr.
  - exists (set_attr (wired_in s CCrossEntropy (Some p)) (length (layers s))
                     "ideal_output" VNone).
    split; [|by apply edge_set_attr, wired_in_edge].
    unfold CrossEntropy.__init__. rewrite new_init_eq by done.
    rewrite setattr_step by (rewrite wired_in_length; lia).
    apply bind_raises. apply (getattr_input_missing _ _ p).
    + rewrite input_of_set_attr_eq. by apply input_of_wired_in.
    + rewrite set_attr_length, wired_in_length. lia.
    + rewrite attr_of_set_attr_ne by done. by rewrite wired_in_attr.
Qed.

(** The [Input] layer of the example has no [num_classes]. *)
Lemma needs_num_classes_witness :
  (exists s',
     (self ← new CSoftmax; Softmax.__init__ 0 self (Some 0)) ex_net
       = Raises AttributeError s' /\
     edge s' 0 (length (layers ex_net))) /\
  (exists s',
     (self ← new CCrossEntropy; CrossEntropy.__init__ 0 self (Some 0)) ex_net
       = Raises AttributeError s' /\
     edge s' 0 (length (layers ex_net))).
Proof.
  apply (needs_num_classes 0%R ex_net 0).
  - vm_compute. lia.
  - evaluate.
Defined.

(** *** Stepping through a constructor *)

Lemma bind_assoc {A B C} (m : M A) (g : A -> M B) (f : B -> M C) st :
  ((m ≫= g) ≫= f) st = (m ≫= fun x => g x ≫= f) st.
Proof. unfold mbind, M_bind. by destruct (m st). Qed.

Lemma shape_of_step {B} w W (f : list nat -> M B) st :
  arrays st !! w = Some W -> (shape_of (VArr w) ≫= f) st = f (np.shape W) st.
Proof. intros H. by rewrite (bind_returns _ _ _ _ _ (shape_of_returns _ _ _ H)). Qed.

Lemma item_step {A B} (t : list A) k x (f : A -> M B) st :
  t !! k = Some x -> (item t k ≫= f) st = f x st.
Proof. intros H. by rewrite (bind_returns _ _ _ _ _ (item_returns _ _ _ _ H)). Qed.

Lemma item_last_step {A B} (t : list A) x (f : A -> M B) st :
  last t = Some x -> (item_last t ≫= f) st = f x st.
Proof. intros H. unfold item_last. by rewrite H. Qed.

Lemma np_empty_step {B} junk sh (f : pyval -> M B) st :
  (np_empty junk sh ≫= f) st
  = f (VArr (length (arrays st))) (with_array st (np.empty junk sh)).
Proof. reflexivity. Qed.

Lemma get_int_step {B} n name k (f : nat -> M B) st :
  attr_of st n name = Some (VInt k) -> ((getattr n name ≫= as_int) ≫= f) st = f k st.
Proof. intros H. by rewrite (bind_returns _ _ _ _ _ (get_int_eq _ _ _ _ H)). Qed.

Lemma attr_of_with_array st a n name : attr_of (with_array st a) n name = attr_of st n name.
Proof. reflexivity. Qed.

Lemma with_array_length st a : length (layers (with_array st a)) = length (layers st).
Proof. reflexivity. Qed.

Lemma with_array_arrays st a : arrays (with_array st a) = arrays st ++ [a].
Proof. reflexivity. Qed.

Lemma wired_in_arrays s c pred : arrays (wired_in s c pred) = arrays s.
Proof. reflexivity. Qed.

Lemma input_of_with_array st a m : input_of (with_array st a) m = input_of st m.
Proof. reflexivity. Qed.

(** The sizes of the stores a constructor goes through. *)
Ltac sizes :=
  repeat first [rewrite set_attr_length | rewrite with_array_length
               | rewrite wired_in_length | rewrite set_attr_arrays
               | rewrite with_array_arrays | rewrite wired_in_arrays
               | rewrite length_app ];
  cbn [length Nat.add]; try lia.

(** The attribute a constructor has bound last. *)
Ltac attribute :=
  repeat first [ rewrite attr_of_with_array
               | rewrite attr_of_set_attr_eq by sizes
               | rewrite attr_of_set_attr_ne by done ];
  try reflexivity.

Ltac found_array H :=
  repeat first [rewrite set_attr_arrays | rewrite with_array_arrays
               | rewrite wired_in_arrays ];
  repeat (rewrite lookup_app_l by (sizes; by apply lookup_lt_Some in H));
  exact H.

Lemma class_of_set_attr st n name v m c :
  class_of st m c -> class_of (set_attr st n name v) m c.
Proof.
  intros (l & Hl & Hc). unfold set_attr, class_of.
  destruct (layers st !! n) as [ln|] eqn:Hn; [|by exists l]. cbn [layers].
  destruct (decide (m = n)) as [->|Hne].
  - rewrite list_lookup_insert_eq by (by apply lookup_lt_Some in Hn).
    eexists. split; [done|]. simpl. congruence.
  - rewrite list_lookup_insert_ne by done. by exists l.
Qed.

Lemma succs_set_attr st n name v m : succs (set_attr st n name v) m = succs st m.
Proof.
  unfold set_attr, succs. destruct (layers st !! n) as [ln|] eqn:Hn; [|done].
  cbn [layers]. destruct (decide (m = n)) as [->|Hne].
  - rewrite list_lookup_insert_eq by (by apply lookup_lt_Some in Hn). by rewrite Hn.
  - by rewrite list_lookup_insert_ne.
Qed.

Lemma succs_with_array st a m : succs (with_array st a) m = succs st m.
Proof. reflexivity. Qed.

Lemma class_of_with_array st a m c : class_of st m c -> class_of (with_array st a) m c.
Proof. done. Qed.

Lemma layers_with_array st a : layers (with_array st a) = layers st.
Proof. reflexivity. Qed.

Lemma older_set_attr st n name v m :
  m ≠ n -> layers (set_attr st n name v) !! m = layers st !! m.
Proof.
  intros Hne. unfold set_attr. destruct (layers st !! n); [|done].
  cbn [layers]. by rewrite list_lookup_insert_ne.
Qed.

(** [Input(weights, bias)] on an array of two axes or more. *)
Lemma Input_init_spec junk s w bias W n f k :
  arrays s !! w = Some W ->
  np.shape W !! 0 = Some n -> np.shape W !! 1 = Some f -> last (np.shape W) = Some k ->
  exists s',
    (self ← new CInput; Input.__init__ junk self (VArr w) bias) s = Returns tt s' /\
    class_of s' (length (layers s)) CInput /\
    input_of s' (length (layers s)) = None /\
    succs s' (length (layers s)) = [] /\
    attr_of s' (length (layers s)) "X" = Some VNone /\
    attr_of s' (length (layers s)) "W" = Some (VArr w) /\
    attr_of s' (length (layers s)) "biases" = Some bias /\
    attr_of s' (length (layers s)) "num_images" = Some (VInt n) /\
    attr_of s' (length (layers s)) "num_features" = Some (VInt f) /\
    attr_of s' (length (layers s)) "num_neurons" = Some (VInt k) /\
    attr_of s' (length (layers s)) "W_gradients" = Some (VArr (length (arrays s))) /\
    attr_of s' (length (layers s)) "b_gradients" = Some (VArr (length (arrays s) + 1)) /\
    attr_of s' (length (layers s)) "gradients" = Some (VArr (length (arrays s) + 2)) /\
    attr_of s' (length (layers s)) "value" = Some (VArr (length (arrays s) + 3)) /\
    arrays s' = arrays s ++ [np.empty junk [n; f]; np.empty junk [n];
                             np.empty junk [n; f]; np.empty junk [n; k]] /\
    (forall m, m < length (layers s) -> layers s' !! m = layers s !! m).
Proof.
  intros HW H0 H1 Hlast.
  assert (forall q, @None nat = Some q -> q < length (layers s)) as Hq by done.
  eexists. split.
  - unfold Input.__init__. rewrite new_init_eq by done.
    rewrite setattr_step by sizes.
    rewrite setattr_step by sizes.
    rewrite setattr_step by sizes.
    rewrite bind_assoc; erewrite getattr_step by attribute.
    rewrite shape_of_step with (W := W) by found_array HW.
    rewrite item_last_step with (x := k) by done.
    rewrite setattr_step by sizes.
    rewrite bind_assoc; erewrite getattr_step by attribute.
    rewrite shape_of_step with (W := W) by found_array HW.
    rewrite item_step with (x := n) by done.
    rewrite setattr_step by sizes.
    rewrite bind_assoc; erewrite getattr_step by attribute.
    rewrite shape_of_step with (W := W) by found_array HW.
    rewrite item_step with (x := f) by done.
    rewrite setattr_step by sizes.
    rewrite get_int_step with (k := n) by attribute.
    rewrite get_int_step with (k := f) by attribute.
    rewrite np_empty_step, setattr_step by sizes.
    rewrite get_int_step with (k := n) by attribute.
    rewrite np_empty_step, setattr_step by sizes.
    rewrite get_int_step with (k := n) by attribute.
    rewrite get_int_step with (k := f) by attribute.
    rewrite np_empty_step, setattr_step by sizes.
    rewrite get_int_step with (k := n) by attribute.
    rewrite get_int_step with (k := k) by attribute.
    rewrite np_empty_step.
    match goal with |- setattr _ _ _ ?st = _ =>
      destruct (lookup_lt_is_Some_2 (layers st) (length (layers s))) as [l Hl];
        [sizes|exact (setattr_eq _ _ _ _ _ Hl)] end.
  - split_and!.
    + repeat match goal with
             | |- class_of (set_attr _ _ _ _) _ _ => apply class_of_set_attr
             | |- class_of (with_array _ _) _ _ => apply class_of_with_array
             end.
      eexists. split; [by apply wired_in_self|done].
    + repeat (rewrite input_of_set_attr_eq || rewrite input_of_with_array).
      by apply input_of_wired_in.
    + repeat (rewrite succs_set_attr || rewrite succs_with_array).
      unfold succs. by rewrite wired_in_self.
    + attribute.
    + attribute.
    + attribute.
    + attribute.
    + attribute.
    + attribute.
    + attribute. do 2 f_equal. sizes.
    + attribute. do 2 f_equal. sizes.
    + attribute. do 2 f_equal. sizes.
    + attribute. do 2 f_equal. sizes.
    + repeat first [rewrite set_attr_arrays | rewrite with_array_arrays
                   | rewrite wired_in_arrays ].
      by rewrite <- !app_assoc.
    + intros m Hm.
      repeat first [rewrite older_set_attr by lia | rewrite layers_with_array].
      change (layers (wired_in s CInput None)) with (layers s ++ [mkLayer CInput None [] ∅]).
      by rewrite lookup_app_l.
Qed.

(** X9: [Input(weights, bias)] with [weights] an array of two axes or
    more.  The new layer has no predecessor and no successor; [X] is
    [None]; [num_images], [num_features] and [num_neurons] are the first,
    the second and the last extent of [weights]; [W_gradients],
    [b_gradients], [gradients] and [value] are bound to four new arrays, of
    the shapes [(num_images, num_features)], [(num_images,)],
    [(num_images, num_features)] and [(num_images, num_neurons)]; no older
    layer and no older array is changed.  [bias] is bound as it is, not
    looked at. *)
Theorem Input_init_returns junk s w bias W n f k :
  arrays s !! w = Some W ->
  np.shape W !! 0 = Some n -> np.shape W !! 1 = Some f -> last (np.shape W) = Some k ->
  exists s',
    (self ← new CInput; Input.__init__ junk self (VArr w) bias) s = Returns tt s' /\
    class_of s' (length (layers s)) CInput /\
    input_of s' (length (layers s)) = None /\
    succs s' (length (layers s)) = [] /\
    attr_of s' (length (layers s)) "X" = Some VNone /\
    attr_of s' (length (layers s)) "W" = Some (VArr w) /\
    attr_of s' (length (layers s)) "biases" = Some bias /\
    attr_of s' (length (layers s)) "num_images" = Some (VInt n) /\
    attr_of s' (length (layers s)) "num_features" = Some (VInt f) /\
    attr_of s' (length (layers s)) "num_neurons" = Some (VInt k) /\
    attr_of s' (length (layers s)) "W_gradients" = Some (VArr (length (arrays s))) /\
    attr_of s' (length (layers s)) "b_gradients" = Some (VArr (length (arrays s) + 1)) /\
    attr_of s' (length (layers s)) "gradients" = Some (VArr (length (arrays s) + 2)) /\
    attr_of s' (length (layers s)) "value" = Some (VArr (length (arrays s) + 3)) /\
    arrays s' = arrays s ++ [np.empty junk [n; f]; np.empty junk [n];
                             np.empty junk [n; f]; np.empty junk [n; k]] /\
    (forall m, m < length (layers s) -> layers s' !! m = layers s !! m).
Proof. apply Input_init_spec. Qed.

Lemma Input_init_returns_witness :
  exists s',
    (self ← new CInput; Input.__init__ 0 self (VArr 1) (VArr 2)) ex_user = Returns tt s' /\
    class_of s' (length (layers ex_user)) CInput /\
    input_of s' (length (layers ex_user)) = None /\
    succs s' (length (layers ex_user)) = [] /\
    attr_of s' (length (layers ex_user)) "X" = Some VNone /\
    attr_of s' (length (layers ex_user)) "W" = Some (VArr 1) /\
    attr_of s' (length (layers ex_user)) "biases" = Some (VArr 2) /\
    attr_of s' (length (layers ex_user)) "num_images" = Some (VInt 1) /\
    attr_of s' (length (layers ex_user)) "num_features" = Some (VInt 2) /\
    attr_of s' (length (layers ex_user)) "num_neurons" = Some (VInt 2) /\
    attr_of s' (length (layers ex_user)) "W_gradients"
      = Some (VArr (length (arrays ex_user))) /\
    attr_of s' (length (layers ex_user)) "b_gradients"
      = Some (VArr (length (arrays ex_user) + 1)) /\
    attr_of s' (length (layers ex_user)) "gradients"
      = Some (VArr (length (arrays ex_user) + 2)) /\
    attr_of s' (length (layers ex_user)) "value"
      = Some (VArr (length (arrays ex_user) + 3)) /\
    arrays s' = arrays ex_user ++ [np.empty 0 [1; 2]; np.empty 0 [1];
                                   np.empty 0 [1; 2]; np.empty 0 [1; 2]] /\
    (forall m, m < length (layers ex_user) -> layers s' !! m = layers ex_user !! m).
Proof.
  apply (Input_init_returns 0%R ex_user 1 (VArr 2) (ex_at ex_user 1) 1 2 2).
  - reflexivity.
  - reflexivity.
  - reflexivity.
  - reflexivity.
Defined.

(** X10: [Input(weights, bias)] stops with an [IndexError] when [weights]
    is an array of fewer than two axes (at [W.shape[-1]] for none, at
    [W.shape[1]] for one), and with an [AttributeError] when [weights] is
    no array, [None] say. *)
Theorem Input_init_errors junk s bias :
  (forall w W, arrays s !! w = Some W -> length (np.shape W) < 2 ->
     exists s',
       (self ← new CInput; Input.__init__ junk self (VArr w) bias) s
         = Raises IndexError s') /\
  (forall weights, (forall w, weights ≠ VArr w) ->
     exists s',
       (self ← new CInput; Input.__init__ junk self weights bias) s
         = Raises AttributeError s').
Proof.
  assert (forall q, @None nat = Some q -> q < length (layers s)) as Hq by done.
  split.
  - intros w W HW Hsh.
    destruct (np.shape W) as [|d [|d' sh]] eqn:E; [| |simpl in Hsh; lia].
    + eexists. unfold Input.__init__. rewrite new_init_eq by done.
      rewrite setattr_step by sizes.
      rewrite setattr_step by sizes.
      rewrite setattr_step by sizes.
      rewrite bind_assoc; erewrite getattr_step by attribute.
      rewrite shape_of_step with (W := W) by found_array HW. rewrite E.
      reflexivity.
    + eexists. unfold Input.__init__. rewrite new_init_eq by done.
      rewrite setattr_step by sizes.
      rewrite setattr_step by sizes.
      rewrite setattr_step by sizes.
      rewrite bind_assoc; erewrite getattr_step by attribute.
      rewrite shape_of_step with (W := W) by found_array HW. rewrite E.
      rewrite item_last_step with (x := d) by done.
      rewrite setattr_step by sizes.
      rewrite bind_assoc; erewrite getattr_step by attribute.
      rewrite shape_of_step with (W := W) by found_array HW. rewrite E.
      rewrite item_step with (x := d) by done.
      rewrite setattr_step by sizes.
      rewrite bind_assoc; erewrite getattr_step by attribute.
      rewrite shape_of_step with (W := W) by found_array HW. rewrite E.
      reflexivity.
  - intros weights Hw.
    destruct weights as [|i|w]; [| |by destruct (Hw w)].
    + eexists. unfold Input.__init__. rewrite new_init_eq by done.
      rewrite setattr_step by sizes.
      rewrite setattr_step by sizes.
      rewrite setattr_step by sizes.
      rewrite bind_assoc; erewrite getattr_step by attribute.
      reflexivity.
    + eexists. unfold Input.__init__. rewrite new_init_eq by done.
      rewrite setattr_step by sizes.
      rewrite setattr_step by sizes.
      rewrite setattr_step by sizes.
      rewrite bind_assoc; erewrite getattr_step by attribute.
      reflexivity.
Qed.

Lemma edge_with_array st a p m : edge st p m -> edge (with_array st a) p m.
Proof. done. Qed.

(** X11: a [Hidden] layer cannot be built on a layer that has no attribute
    [num_neurons] (only [Input] layers have one; a [Hidden] layer has
    [num_classes]): once [value] is allocated the constructor stops at
    [self.input_layer.num_neurons] with an [AttributeError], and the layer
    that could not be built stays the last entry of the [outbound_layers]
    of its predecessor. *)
Theorem Hidden_needs_num_neurons junk s p w bias W k n :
  p < length (layers s) ->
  arrays s !! w = Some W -> last (np.shape W) = Some k ->
  attr_of s p "num_images" = Some (VInt n) ->
  attr_of s p "num_neurons" = None ->
  exists s',
    (self ← new CHidden; Hidden.__init__ junk self (Some p) (VArr w) bias) s
      = Raises AttributeError s' /\
    edge s' p (length (layers s)).
Proof.
  intros Hp HW Hlast Hn Hnn.
  assert (forall q, Some p = Some q -> q < length (layers s)) as Hq by (by intros q [= <-]).
  eexists. split.
  - unfold Hidden.__init__. rewrite new_init_eq by done.
    rewrite setattr_step by sizes.
    rewrite setattr_step by sizes.
    rewrite setattr_step by sizes.
    rewrite bind_assoc; erewrite getattr_step by attribute.
    rewrite shape_of_step with (W := W) by found_array HW.
    rewrite item_last_step with (x := k) by done.
    rewrite setattr_step by sizes.
    rewrite getattr_input_step with (p := p) (v := VInt n).
    2:{ rewrite !input_of_set_attr_eq. by apply input_of_wired_in. }
    2:{ rewrite !attr_of_set_attr_ne by done. by rewrite wired_in_attr. }
    rewrite setattr_step by sizes.
    rewrite get_int_step with (k := n) by attribute.
    rewrite get_int_step with (k := k) by attribute.
    rewrite np_empty_step, setattr_step by sizes.
    rewrite get_int_step with (k := n) by attribute.
    apply bind_raises. apply bind_raises.
    apply (getattr_input_missing _ _ p).
    + repeat first [rewrite input_of_set_attr_eq | rewrite input_of_with_array].
      by apply input_of_wired_in.
    + sizes.
    + repeat first [rewrite attr_of_with_array | rewrite attr_of_set_attr_ne by done].
      by rewrite wired_in_attr.
  - repeat match goal with
           | |- edge (set_attr _ _ _ _) _ _ => apply edge_set_attr
           | |- edge (with_array _ _) _ _ => apply edge_with_array
           end.
    by apply wired_in_edge.
Qed.

(** The [Hidden] layer of the example has no [num_neurons]: a second
    [Hidden] layer cannot follow it. *)
Lemma Hidden_needs_num_neurons_witness :
  exists s',
    (self ← new CHidden; Hidden.__init__ 0 self (Some 1) (VArr 3) (VArr 4)) ex_net
      = Raises AttributeError s' /\
    edge s' 1 (length (layers ex_net)).
Proof.
  apply (Hidden_needs_num_neurons 0%R ex_net 1 3 (VArr 4) (ex_at ex_net 3) 2 1).
  - vm_compute. lia.
  - evaluate.
  - evaluate.
  - evaluate.
  - evaluate.
Defined.

(** X12: the gradients of an [Input] layer never fit its parameters.  For
    weights of shape [(n, f, k)] and biases of shape [(n, k)] the
    constructor allocates [W_gradients] of shape [(n, f)] and [b_gradients]
    of shape [(n,)], so the turns of the update loop that pair [W] with
    [W_gradients] and [biases] with [b_gradients] find different shapes and
    leave both arrays as they are. *)
Theorem Input_gradients_never_applied junk s w b W B n f k learning_rate :
  arrays s !! w = Some W -> np.shape W = [n; f; k] ->
  arrays s !! b = Some B -> np.shape B = [n; k] ->
  exists s' wg bg,
    (self ← new CInput; Input.__init__ junk self (VArr w) (VArr b)) s = Returns tt s' /\
    attr_of s' (length (layers s)) "W_gradients" = Some wg /\
    attr_of s' (length (layers s)) "b_gradients" = Some bg /\
    update [VArr w; VArr b] [wg; bg] learning_rate 0 s' = Returns tt s' /\
    update [VArr w; VArr b] [wg; bg] learning_rate 1 s' = Returns tt s'.
Proof.
  intros HW HWs HB HBs.
  destruct (Input_init_spec junk s w (VArr b) W n f k HW) as
    (s' & Hrun & _ & _ & _ & _ & _ & _ & _ & _ & _ & Hwg & Hbg & _ & _ & Harr & _);
    [by rewrite HWs..|].
  exists s', (VArr (length (arrays s))), (VArr (length (arrays s) + 1)).
  split_and!; [done..| |].
  - apply (update_skip s' _ _ _ 0 w (length (arrays s)) W (np.empty junk [n; f]));
      [done|done| | |].
    + rewrite Harr. rewrite lookup_app_l by (by apply lookup_lt_Some in HW). done.
    + rewrite Harr. by rewrite lookup_app_r, Nat.sub_diag by lia.
    + rewrite HWs. done.
  - apply (update_skip s' _ _ _ 1 b (length (arrays s) + 1) B (np.empty junk [n]));
      [done|done| | |].
    + rewrite Harr. rewrite lookup_app_l by (by apply lookup_lt_Some in HB). done.
    + rewrite Harr. rewrite lookup_app_r by lia.
      by replace (length (arrays s) + 1 - length (arrays s)) with 1 by lia.
    + rewrite HBs. done.
Qed.

Lemma Input_gradients_never_applied_witness :
  exists s' wg bg,
    (self ← new CInput; Input.__init__ 0 self (VArr 1) (VArr 2)) ex_user = Returns tt s' /\
    attr_of s' (length (layers ex_user)) "W_gradients" = Some wg /\
    attr_of s' (length (layers ex_user)) "b_gradients" = Some bg /\
    update [VArr 1; VArr 2] [wg; bg] (1 / 10) 0 s' = Returns tt s' /\
    update [VArr 1; VArr 2] [wg; bg] (1 / 10) 1 s' = Returns tt s'.
Proof.
  apply (Input_gradients_never_applied 0%R ex_user 1 2 (ex_at ex_user 1) (ex_at ex_user 2)
           1 2 2 (1 / 10)%R).
  - reflexivity.
  - reflexivity.
  - reflexivity.
  - reflexivity.
Defined.

(** *** The constructors that take a predecessor *)

Lemma succs_wired_in s c p :
  p < length (layers s) ->
  succs (wired_in s c (Some p)) p = succs s p ++ [length (layers s)].
Proof.
  intros Hp. unfold wired_in, succs. cbn [layers].
  destruct (lookup_lt_is_Some_2 (layers s) p Hp) as [lp Hlp].
  rewrite lookup_app_l, Hlp by done.
  by rewrite list_lookup_insert_eq by (rewrite length_app; lia).
Qed.

Lemma succs_wired_in_self s c pred :
  (forall p, pred = Some p -> p < length (layers s)) ->
  succs (wired_in s c pred) (length (layers s)) = [].
Proof. intros Hp. unfold succs. by rewrite wired_in_self. Qed.

Lemma class_of_wired_in s c pred :
  (forall p, pred = Some p -> p < length (layers s)) ->
  class_of (wired_in s c pred) (length (layers s)) c.
Proof. intros Hp. eexists. split; [by apply wired_in_self|done]. Qed.

Lemma as_int_step {B} k (f : nat -> M B) st : (as_int (VInt k) ≫= f) st = f k st.
Proof. reflexivity. Qed.

Ltac last_setattr s :=
  match goal with |- setattr _ _ _ ?st = _ =>
    let l := fresh "l" in let Hl := fresh "Hl" in
    destruct (lookup_lt_is_Some_2 (layers st) (length (layers s))) as [l Hl];
      [sizes|exact (setattr_eq _ _ _ _ _ Hl)] end.

Ltac class_kept :=
  repeat match goal with
         | |- class_of (set_attr _ _ _ _) _ _ => apply class_of_set_attr
         | |- class_of (with_array _ _) _ _ => apply class_of_with_array
         end.

Ltac wiring_kept :=
  repeat first [ rewrite input_of_set_attr_eq | rewrite input_of_with_array
               | rewrite succs_set_attr | rewrite succs_with_array ].

Ltac arrays_listed :=
  repeat first [rewrite set_attr_arrays | rewrite with_array_arrays
               | rewrite wired_in_arrays ];
  rewrite <- ?app_assoc; reflexivity.

Ltac located := attribute; do 2 f_equal; sizes.

(** [Hidden(input_layer, weights, bias)] on a layer that has [num_images]
    and [num_neurons]. *)
Lemma Hidden_init_spec junk s p w bias W k n m :
  p < length (layers s) ->
  arrays s !! w = Some W -> last (np.shape W) = Some k ->
  attr_of s p "num_images" = Some (VInt n) ->
  attr_of s p "num_neurons" = Some (VInt m) ->
  exists s',
    (self ← new CHidden; Hidden.__init__ junk self (Some p) (VArr w) bias) s
      = Returns tt s' /\
    class_of s' (length (layers s)) CHidden /\
    input_of s' (length (layers s)) = Some p /\
    succs s' (length (layers s)) = [] /\
    succs s' p = succs s p ++ [length (layers s)] /\
    attr_of s' (length (layers s)) "X" = Some VNone /\
    attr_of s' (length (layers s)) "W" = Some (VArr w) /\
    attr_of s' (length (layers s)) "biases" = Some bias /\
    attr_of s' (length (layers s)) "num_classes" = Some (VInt k) /\
    attr_of s' (length (layers s)) "num_images" = Some (VInt n) /\
    attr_of s' (length (layers s)) "value" = Some (VArr (length (arrays s))) /\
    attr_of s' (length (layers s)) "W_gradients" = Some (VArr (length (arrays s) + 1)) /\
    attr_of s' (length (layers s)) "b_gradients" = Some (VArr (length (arrays s) + 2)) /\
    attr_of s' (length (layers s)) "gradients" = Some (VArr (length (arrays s) + 3)) /\
    arrays s' = arrays s ++ [np.empty junk [n; k]; np.empty junk [n; m];
                             np.empty junk [n]; np.empty junk [n; m]].
Proof.
  intros Hp HW Hlast Hn Hm.
  assert (forall q, Some p = Some q -> q < length (layers s)) as Hq by (by intros q [= <-]).
  eexists. split.
  - unfold Hidden.__init__. rewrite new_init_eq by done.
    rewrite setattr_step by sizes.
    rewrite setattr_step by sizes.
    rewrite setattr_step by sizes.
    rewrite bind_assoc; erewrite getattr_step by attribute.
    rewrite shape_of_step with (W := W) by found_array HW.
    rewrite item_last_step with (x := k) by done.
    rewrite setattr_step by sizes.
    rewrite getattr_input_step with (p := p) (v := VInt n).
    2:{ wiring_kept. by apply input_of_wired_in. }
    2:{ rewrite !attr_of_set_attr_ne by done. by rewrite wired_in_attr. }
    rewrite setattr_step by sizes.
    rewrite get_int_step with (k := n) by attribute.
    rewrite get_int_step with (k := k) by attribute.
    rewrite np_empty_step, setattr_step by sizes.
    rewrite get_int_step with (k := n) by attribute.
    rewrite bind_assoc, getattr_input_step with (p := p) (v := VInt m).
    2:{ wiring_kept. by apply input_of_wired_in. }
    2:{ repeat first [rewrite attr_of_with_array | rewrite attr_of_set_attr_ne by done].
        by rewrite wired_in_attr. }
    rewrite as_int_step.
    rewrite np_empty_step, setattr_step by sizes.
    rewrite get_int_step with (k := n) by attribute.
    rewrite np_empty_step, setattr_step by sizes.
    rewrite get_int_step with (k := n) by attribute.
    rewrite bind_assoc, getattr_input_step with (p := p) (v := VInt m).
    2:{ wiring_kept. by apply input_of_wired_in. }
    2:{ repeat first [rewrite attr_of_with_array | rewrite attr_of_set_attr_ne by done].
        by rewrite wired_in_attr. }
    rewrite as_int_step.
    rewrite np_empty_step.
    last_setattr s.
  - split_and!.
    + class_kept. by apply class_of_wired_in.
    + wiring_kept. by apply input_of_wired_in.
    + wiring_kept. by apply succs_wired_in_self.
    + wiring_kept. by apply succs_wired_in.
    + attribute.
    + attribute.
    + attribute.
    + attribute.
    + attribute.
    + located.
    + located.
    + located.
    + located.
    + arrays_listed.
Qed.

(** X13: [Hidden(input_layer, weights, bias)] on a layer that has
    [num_images] and [num_neurons].  The new layer has [input_layer] as its
    predecessor and is the last of its [outbound_layers]; [num_classes] is
    the last extent of [weights] and [num_images] is taken from the
    predecessor; [value], [W_gradients], [b_gradients] and [gradients] are
    bound to four new arrays of the shapes [(num_images, num_classes)],
    [(num_images, m)], [(num_images,)] and [(num_images, m)], with [m] the
    [num_neurons] of the predecessor, whatever the shape of [weights]. *)
Theorem Hidden_init_returns junk s p w bias W k n m :
  p < length (layers s) ->
  arrays s !! w = Some W -> last (np.shape W) = Some k ->
  attr_of s p "num_images" = Some (VInt n) ->
  attr_of s p "num_neurons" = Some (VInt m) ->
  exists s',
    (self ← new CHidden; Hidden.__init__ junk self (Some p) (VArr w) bias) s
      = Returns tt s' /\
    class_of s' (length (layers s)) CHidden /\
    input_of s' (length (layers s)) = Some p /\
    succs s' (length (layers s)) = [] /\
    succs s' p = succs s p ++ [length (layers s)] /\
    attr_of s' (length (layers s)) "X" = Some VNone /\
    attr_of s' (length (layers s)) "W" = Some (VArr w) /\
    attr_of s' (length (layers s)) "biases" = Some bias /\
    attr_of s' (length (layers s)) "num_classes" = Some (VInt k) /\
    attr_of s' (length (layers s)) "num_images" = Some (VInt n) /\
    attr_of s' (length (layers s)) "value" = Some (VArr (length (arrays s))) /\
    attr_of s' (length (layers s)) "W_gradients" = Some (VArr (length (arrays s) + 1)) /\
    attr_of s' (length (layers s)) "b_gradients" = Some (VArr (length (arrays s) + 2)) /\
    attr_of s' (length (layers s)) "gradients" = Some (VArr (length (arrays s) + 3)) /\
    arrays s' = arrays s ++ [np.empty junk [n; k]; np.empty junk [n; m];
                             np.empty junk [n]; np.empty junk [n; m]].
Proof. apply Hidden_init_spec. Qed.

Lemma Hidden_init_returns_witness :
  exists s',
    (self ← new CHidden; Hidden.__init__ 0 self (Some 0) (VArr 3) (VArr 4)) ex_input
      = Returns tt s' /\
    class_of s' (length (layers ex_input)) CHidden /\
    input_of s' (length (layers ex_input)) = Some 0 /\
    succs s' (length (layers ex_input)) = [] /\
    succs s' 0 = succs ex_input 0 ++ [length (layers ex_input)] /\
    attr_of s' (length (layers ex_input)) "X" = Some VNone /\
    attr_of s' (length (layers ex_input)) "W" = Some (VArr 3) /\
    attr_of s' (length (layers ex_input)) "biases" = Some (VArr 4) /\
    attr_of s' (length (layers ex_input)) "num_classes" = Some (VInt 2) /\
    attr_of s' (length (layers ex_input)) "num_images" = Some (VInt 1) /\
    attr_of s' (length (layers ex_input)) "value" = Some (VArr (length (arrays ex_input))) /\
    attr_of s' (length (layers ex_input)) "W_gradients"
      = Some (VArr (length (arrays ex_input) + 1)) /\
    attr_of s' (length (layers ex_input)) "b_gradients"
      = Some (VArr (length (arrays ex_input) + 2)) /\
    attr_of s' (length (layers ex_input)) "gradients"
      = Some (VArr (length (arrays ex_input) + 3)) /\
    arrays s' = arrays ex_input ++ [np.empty 0 [1; 2]; np.empty 0 [1; 2];
                                    np.empty 0 [1]; np.empty 0 [1; 2]].
Proof.
  apply (Hidden_init_returns 0%R ex_input 0 3 (VArr 4) (ex_at ex_input 3) 2 1 2).
  - vm_compute. lia.
  - evaluate.
  - evaluate.
  - evaluate.
  - evaluate.
Defined.

(** X14: [Softmax(input_layer)] and [CrossEntropy(input_layer)] on a
    layer that has [num_classes] and [num_images].  Both take the two
    numbers from the predecessor and become the last of its
    [outbound_layers].  [Softmax] binds [value] and [gradients] to two new
    arrays of shape [(num_images, num_classes)]; [CrossEntropy] binds
    [ideal_output] to [None] and [tmp_value] to a new array of shape
    [(num_images,)], and has no [value] before its [forward] runs. *)
Theorem activation_init_returns junk s p k n :
  p < length (layers s) ->
  attr_of s p "num_classes" = Some (VInt k) ->
  attr_of s p "num_images" = Some (VInt n) ->
  (exists s',
     (self ← new CSoftmax; Softmax.__init__ junk self (Some p)) s = Returns tt s' /\
     class_of s' (length (layers s)) CSoftmax /\
     input_of s' (length (layers s)) = Some p /\
     succs s' p = succs s p ++ [length (layers s)] /\
     attr_of s' (length (layers s)) "num_classes" = Some (VInt k) /\
     attr_of s' (length (layers s)) "num_images" = Some (VInt n) /\
     attr_of s' (length (layers s)) "value" = Some (VArr (length (arrays s))) /\
     attr_of s' (length (layers s)) "gradients" = Some (VArr (length (arrays s) + 1)) /\
     arrays s' = arrays s ++ [np.empty junk [n; k]; np.empty junk [n; k]]) /\
  (exists s',
     (self ← new CCrossEntropy; CrossEntropy.__init__ junk self (Some p)) s
       = Returns tt s' /\
     class_of s' (length (layers s)) CCrossEntropy /\
     input_of s' (length (layers s)) = Some p /\
     succs s' p = succs s p ++ [length (layers s)] /\
     attr_of s' (length (layers s)) "ideal_output" = Some VNone /\
     attr_of s' (length (layers s)) "num_classes" = Some (VInt k) /\
     attr_of s' (length (layers s)) "num_images" = Some (VInt n) /\
     attr_of s' (length (layers s)) "tmp_value" = Some (VArr (length (arrays s))) /\
     attr_of s' (length (layers s)) "value" = None /\
     arrays s' = arrays s ++ [np.empty junk [n]]).
Proof.
  intros Hp Hk Hn.
  assert (forall q, Some p = Some q -> q < length (layers s)) as Hq by (by intros q [= <-]).
  split.
  - eexists. split.
    + unfold Softmax.__init__. rewrite new_init_eq by done.
      rewrite getattr_input_step with (p := p) (v := VInt k).
      2:{ by apply input_of_wired_in. }
      2:{ by rewrite wired_in_attr. }
      rewrite setattr_step by sizes.
      rewrite getattr_input_step with (p := p) (v := VInt n).
      2:{ wiring_kept. by apply input_of_wired_in. }
      2:{ rewrite !attr_of_set_attr_ne by done. by rewrite wired_in_attr. }
      rewrite setattr_step by sizes.
      rewrite get_int_step with (k := n) by attribute.
      rewrite get_int_step with (k := k) by attribute.
      rewrite np_empty_step, setattr_step by sizes.
      rewrite get_int_step with (k := n) by attribute.
      rewrite get_int_step with (k := k) by attribute.
      rewrite np_empty_step.
      last_setattr s.
    + split_and!.
      * class_kept. by apply class_of_wired_in.
      * wiring_kept. by apply input_of_wired_in.
      * wiring_kept. by apply succs_wired_in.
      * attribute.
      * attribute.
      * located.
      * located.
      * arrays_listed.
  - eexists. split.
    + unfold CrossEntropy.__init__. rewrite new_init_eq by done.
      rewrite setattr_step by sizes.
      rewrite getattr_input_step with (p := p) (v := VInt k).
      2:{ wiring_kept. by apply input_of_wired_in. }
      2:{ rewrite !attr_of_set_attr_ne by done. by rewrite wired_in_attr. }
      rewrite setattr_step by sizes.
      rewrite getattr_input_step with (p := p) (v := VInt n).
      2:{ wiring_kept. by apply input_of_wired_in. }
      2:{ rewrite !attr_of_set_attr_ne by done. by rewrite wired_in_attr. }
      rewrite setattr_step by sizes.
      rewrite get_int_step with (k := n) by attribute.
      rewrite np_empty_step.
      last_setattr s.
    + split_and!.
      * class_kept. by apply class_of_wired_in.
      * wiring_kept. by apply input_of_wired_in.
      * wiring_kept. by apply succs_wired_in.
      * attribute.
      * attribute.
      * attribute.
      * located.
      * repeat first [rewrite attr_of_with_array | rewrite attr_of_set_attr_ne by done].
        unfold attr_of. by rewrite wired_in_self.
      * arrays_listed.
Qed.

Lemma activation_init_returns_witness :
  (exists s',
     (self ← new CSoftmax; Softmax.__init__ 0 self (Some 1)) ex_hidden = Returns tt s' /\
     class_of s' (length (layers ex_hidden)) CSoftmax /\
     input_of s' (length (layers ex_hidden)) = Some 1 /\
     succs s' 1 = succs ex_hidden 1 ++ [length (layers ex_hidden)] /\
     attr_of s' (length (layers ex_hidden)) "num_classes" = Some (VInt 2) /\
     attr_of s' (length (layers ex_hidden)) "num_images" = Some (VInt 1) /\
     attr_of s' (length (layers ex_hidden)) "value"
       = Some (VArr (length (arrays ex_hidden))) /\
     attr_of s' (length (layers ex_hidden)) "gradients"
       = Some (VArr (length (arrays ex_hidden) + 1)) /\
     arrays s' = arrays ex_hidden ++ [np.empty 0 [1; 2]; np.empty 0 [1; 2]]) /\
  (exists s',
     (self ← new CCrossEntropy; CrossEntropy.__init__ 0 self (Some 1)) ex_hidden
       = Returns tt s' /\
     class_of s' (length (layers ex_hidden)) CCrossEntropy /\
     input_of s' (length (layers ex_hidden)) = Some 1 /\
     succs s' 1 = succs ex_hidden 1 ++ [length (layers ex_hidden)] /\
     attr_of s' (length (layers ex_hidden)) "ideal_output" = Some VNone /\
     attr_of s' (length (layers ex_hidden)) "num_classes" = Some (VInt 2) /\
     attr_of s' (length (layers ex_hidden)) "num_images" = Some (VInt 1) /\
     attr_of s' (length (layers ex_hidden)) "tmp_value"
       = Some (VArr (length (arrays ex_hidden))) /\
     attr_of s' (length (layers ex_hidden)) "value" = None /\
     arrays s' = arrays ex_hidden ++ [np.empty 0 [1]]).
Proof.
  apply (activation_init_returns 0%R ex_hidden 1 2 1).
  - vm_compute. lia.
  - evaluate.
  - evaluate.
Defined.

(** ** What the scheduler writes *)

Section kept.
Context {T : Type} (part : state -> T).

Lemma kept_ret {A} (a : A) s : kept_at part (mret a) s.
Proof. by intros s' [= <-]. Qed.

Lemma kept_raise {A} e s : kept_at part (@raise A e) s.
Proof. by intros s' [= <-]. Qed.

Lemma kept_diverge {A} s : kept_at part (@diverge A) s.
Proof. by intros s' [=]. Qed.

Lemma kept_lift {A} (r : res A) s : kept_at part (lift r) s.
Proof. destruct r; [apply kept_ret|apply kept_raise]. Qed.

Lemma kept_bind {A B} (m : M A) (f : A -> M B) s :
  kept_at part m s ->
  (forall a s1, m s = Returns a s1 -> kept_at part (f a) s1) ->
  kept_at part (m ≫= f) s.
Proof.
  intros Hm Hf s'. unfold mbind, M_bind. unfold kept_at in Hm.
  destruct (m s) as [a s1|e s1|] eqn:E; simpl in *.
  - intros H. rewrite (Hf a s1 eq_refl s' H). by apply Hm.
  - intros [= <-]. by apply Hm.
  - done.
Qed.

Lemma kept_for_fold {A B} (l : list A) (acc : B) body s :
  (forall b x s1, kept_at part (body b x) s1) -> kept_at part (for_fold l acc body) s.
Proof.
  intros Hb. revert acc s. induction l as [|x l IH]; intros acc s; simpl.
  - apply kept_ret.
  - apply kept_bind; [apply Hb|]. intros b s1 _. apply IH.
Qed.

Lemma kept_get_layer n s : kept_at part (get_layer n) s.
Proof. intros s'. unfold get_layer. by destruct (layers s !! n); intros [= <-]. Qed.

Lemma kept_build_graph fuel q G s : kept_at part (build_graph fuel q G) s.
Proof.
  revert q G s. induction fuel as [|fuel IH]; intros [|n q] G s; simpl;
    try apply kept_ret; try apply kept_diverge.
  apply kept_bind; [apply kept_get_layer|]. intros l s1 _.
  apply kept_bind.
  - apply kept_for_fold. intros [G1 q1] m s2.
    apply kept_bind; [apply kept_lift|]. intros G2 s3 _.
    apply kept_bind; [apply kept_lift|]. intros G3 s4 _. apply kept_ret.
  - intros [G1 q1] s2 _. apply IH.
Qed.
End kept.

Lemma get_layer_inv n s l s1 :
  get_layer n s = Returns l s1 -> s1 = s /\ layers s !! n = Some l.
Proof. unfold get_layer. destruct (layers s !! n); intros [= <- <-]; done. Qed.

Lemma lift_inv {A} (r : res A) s a s1 : lift r s = Returns a s1 -> s1 = s.
Proof. destruct r; intros [= _ <-]; done. Qed.

(** Binding an attribute that [scrub] drops. *)
Lemma outside_injection_set_attr s n l name v :
  layers s !! n = Some l ->
  (cls l = CInput /\ name = "X" \/
   cls l = CCrossEntropy /\ (name = "ideal_output" \/ name = "n_inputs")) ->
  outside_injection (set_attr s n name v) = outside_injection s.
Proof.
  intros Hl Hok. unfold outside_injection, set_attr. rewrite Hl. cbn [layers arrays].
  f_equal. rewrite list_fmap_insert. apply list_insert_id.
  rewrite list_lookup_fmap, Hl. cbn [fmap option_fmap option_map]. f_equal.
  unfold with_attr, skeleton, scrub. cbn [cls input_layer outbound_layers attrs].
  f_equal. symmetry.
  destruct Hok as [[-> ->]|[-> [-> | ->]]].
  - apply delete_insert_eq.
  - rewrite delete_insert_eq. done.
  - rewrite (delete_insert_ne _ "ideal_output" "n_inputs") by done.
    by rewrite delete_insert_eq.
Qed.

Lemma set_attr_layer s n l name v :
  layers s !! n = Some l ->
  layers (set_attr s n name v) !! n = Some (with_attr l name v).
Proof.
  intros Hl. unfold set_attr. rewrite Hl. cbn [layers].
  apply list_lookup_insert_eq. by apply lookup_lt_Some in Hl.
Qed.

Lemma setattr_inv n name v s l s1 :
  layers s !! n = Some l -> setattr n name v s = Returns tt s1 ->
  s1 = set_attr s n name v.
Proof. intros Hl. rewrite (setattr_eq _ _ _ _ _ Hl). by intros [= <-]. Qed.

Lemma kept_setattr_injection s n l name v :
  layers s !! n = Some l ->
  (cls l = CInput /\ name = "X" \/
   cls l = CCrossEntropy /\ (name = "ideal_output" \/ name = "n_inputs")) ->
  kept_at outside_injection (setattr n name v) s.
Proof.
  intros Hl Hok s'. rewrite (setattr_eq _ _ _ _ _ Hl). intros [= <-].
  by apply (outside_injection_set_attr s n l).
Qed.

Lemma kept_order choose fuel feed_dict ideal_output S L G s :
  kept_at outside_injection (order choose fuel feed_dict ideal_output S L G) s.
Proof.
  revert S L G s. induction fuel as [|fuel IH]; intros S L G s; simpl.
  - destruct (decide (size S = 0)); [apply kept_ret|apply kept_diverge].
  - destruct (decide (size S = 0)) as [|Hne]; [apply kept_ret|].
    apply kept_bind; [apply kept_lift|]. intros [n S1] s1 ->%lift_inv.
    apply kept_bind; [apply kept_get_layer|]. intros l s2 [-> Hl]%get_layer_inv.
    apply kept_bind.
    { destruct (decide (cls l = CInput)) as [Hc|Hc]; [|apply kept_ret].
      apply kept_bind; [apply kept_lift|]. intros v s3 ->%lift_inv.
      apply (kept_setattr_injection s n l); [done|by left]. }
    intros [] s3 Hs3.
    assert (exists l3, layers s3 !! n = Some l3 /\ cls l3 = cls l) as (l3 & Hl3 & Hc3).
    { destruct (decide (cls l = CInput)) as [Hc|Hc].
      - unfold mbind at 1, M_bind at 1 in Hs3.
        destruct (lift (dict_get feed_dict n) s) as [v s4|e s4|] eqn:E; [|done..].
        apply lift_inv in E as ->.
        apply (setattr_inv _ _ _ _ l) in Hs3 as ->; [|done].
        eexists. split; [by apply set_attr_layer|done].
      - injection Hs3 as <-. by exists l. }
    apply kept_bind.
    { destruct (decide (cls l = CCrossEntropy)) as [Hc|Hc]; [|apply kept_ret].
      apply kept_bind.
      - apply (kept_setattr_injection s3 n l3); [done|]. right. split; [congruence|by left].
      - intros [] s4 ->%(setattr_inv _ _ _ _ l3); [|done].
        apply (kept_setattr_injection _ n (with_attr l3 "ideal_output" ideal_output)).
        + by apply set_attr_layer.
        + right. split; [simpl; congruence|by right]. }
    intros [] s4 _.
    apply kept_bind; [apply kept_get_layer|]. intros l4 s5 _.
    apply kept_bind.
    + apply kept_for_fold. intros [S2 G2] m s6.
      apply kept_bind; [apply kept_lift|]. intros G3 s7 _.
      apply kept_bind; [apply kept_lift|]. intros G4 s8 _.
      apply kept_bind; [apply kept_lift|]. intros i s9 _.
      destruct (decide (size i = 0)); apply kept_ret.
    + intros [S2 G2] s6 _. apply IH.
Qed.

Lemma kept_topological_sort choose fuel feed_dict ideal_output s :
  kept_at outside_injection (topological_sort choose fuel feed_dict ideal_output) s.
Proof.
  unfold topological_sort. apply kept_bind; [apply kept_build_graph|].
  intros G s1 _. apply kept_order.
Qed.

(** Two stores that agree outside the injected attributes. *)
Lemma outside_injection_attr s s' n name :
  outside_injection s' = outside_injection s ->
  attr_of s' n name = attr_of s n name \/
  (class_of s n CInput /\ name = "X") \/
  (class_of s n CCrossEntropy /\ (name = "ideal_output" \/ name = "n_inputs")).
Proof.
  intros [= _ E]. apply (f_equal (fun x => x !! n)) in E.
  rewrite !list_lookup_fmap in E. unfold attr_of, class_of.
  destruct (layers s' !! n) as [l'|], (layers s !! n) as [l|]; try done; [|by left].
  cbn [fmap option_fmap option_map] in E. injection E as Ec _ _ Esc.
  unfold scrub in Esc. rewrite Ec in Esc. cbn [mbind option_bind].
  destruct (cls l) eqn:Hc.
  - left. by rewrite Esc.
  - destruct (decide (name = "X")) as [->|Hne]; [right; left; eauto|left].
    rewrite <- (lookup_delete_ne (attrs l') "X" name) by done.
    rewrite Esc. by rewrite lookup_delete_ne.
  - left. by rewrite Esc.
  - left. by rewrite Esc.
  - destruct (decide (name = "ideal_output")) as [->|Hne]; [right; right; eauto|].
    destruct (decide (name = "n_inputs")) as [->|Hne']; [right; right; eauto|left].
    rewrite <- (lookup_delete_ne (attrs l') "ideal_output" name) by done.
    rewrite <- (lookup_delete_ne (delete "ideal_output" (attrs l')) "n_inputs" name) by done.
    rewrite Esc. by rewrite !lookup_delete_ne.
Qed.

Lemma outside_injection_wiring s s' :
  outside_injection s' = outside_injection s -> wiring s' = wiring s.
Proof.
  intros [= _ E]. apply (f_equal (fmap fst)) in E.
  rewrite <- !list_fmap_compose in E. exact E.
Qed.

(** X15: whatever [topological_sort] leaves behind, by returning or by
    raising, it has written no array and rewired no layer, and the only
    attributes it may have bound are [X] of [Input] layers and
    [ideal_output] and [n_inputs] of [CrossEntropy] layers: weights,
    biases, values and gradients are as they were. *)
Theorem topological_sort_writes choose fuel feed_dict ideal_output s s' :
  final (topological_sort choose fuel feed_dict ideal_output s) = Some s' ->
  arrays s' = arrays s /\
  wiring s' = wiring s /\
  forall n name,
    attr_of s' n name = attr_of s n name \/
    (class_of s n CInput /\ name = "X") \/
    (class_of s n CCrossEntropy /\ (name = "ideal_output" \/ name = "n_inputs")).
Proof.
  intros H. apply kept_topological_sort in H. split_and!.
  - by injection H.
  - by apply outside_injection_wiring.
  - intros n name. by apply outside_injection_attr.
Qed.

Lemma topological_sort_writes_witness :
  arrays ex_sorted = arrays ex_net /\
  wiring ex_sorted = wiring ex_net /\
  forall n name,
    attr_of ex_sorted n name = attr_of ex_net n name \/
    (class_of ex_net n CInput /\ name = "X") \/
    (class_of ex_net n CCrossEntropy /\ (name = "ideal_output" \/ name = "n_inputs")).
Proof.
  apply (topological_sort_writes ex_choose 4 ex_feed (VArr 5) ex_net ex_sorted).
  evaluate.
Defined.

(** ** Layers that were not set up *)

(** X16: [Softmax] and [CrossEntropy] cannot be built without a
    predecessor, nor can [Hidden] on weights that are an array with an axis:
    the constructor stops with the [AttributeError] of an attribute read of
    [None], at [self.input_layer.num_classes] for the first two, at
    [self.input_layer.num_images] for [Hidden]. *)
Theorem needs_predecessor junk s bias :
  (exists s',
     (self ← new CSoftmax; Softmax.__init__ junk self None) s = Raises AttributeError s') /\
  (exists s',
     (self ← new CCrossEntropy; CrossEntropy.__init__ junk self None) s
       = Raises AttributeError s') /\
  (forall w W k, arrays s !! w = Some W -> last (np.shape W) = Some k ->
     exists s',
       (self ← new CHidden; Hidden.__init__ junk self None (VArr w) bias) s
         = Raises AttributeError s').
Proof.
  assert (forall q, @None nat = Some q -> q < length (layers s)) as Hq by done.
  split_and!.
  - eexists. unfold Softmax.__init__. rewrite new_init_eq by done.
    apply bind_raises. unfold getattr_input.
    erewrite bind_returns by (apply get_layer_returns; by apply wired_in_self).
    reflexivity.
  - eexists. unfold CrossEntropy.__init__. rewrite new_init_eq by done.
    rewrite setattr_step by sizes.
    apply bind_raises. unfold getattr_input.
    erewrite bind_returns
      by (apply get_layer_returns; apply set_attr_layer; by apply wired_in_self).
    reflexivity.
  - intros w W k HW Hlast. eexists.
    unfold Hidden.__init__. rewrite new_init_eq by done.
    rewrite setattr_step by sizes.
    rewrite setattr_step by sizes.
    rewrite setattr_step by sizes.
    rewrite bind_assoc; erewrite getattr_step by attribute.
    rewrite shape_of_step with (W := W) by found_array HW.
    rewrite item_last_step with (x := k) by done.
    rewrite setattr_step by sizes.
    apply bind_raises. unfold getattr_input.
    erewrite bind_returns
      by (apply get_layer_returns; repeat apply set_attr_layer; by apply wired_in_self).
    reflexivity.
Qed.

(** X17: [forward] before the scheduler has run.  An [Input] layer whose
    [X] is still [None], and a [CrossEntropy] layer whose [ideal_output] is
    still [None], stop in the first turn of their loop with the [TypeError]
    of subscripting [None], when [num_images] is not 0.  The [Input] layer
    leaves the store as it was; the [CrossEntropy] layer has bound
    [softmax] to the [value] of its predecessor. *)
Theorem forward_before_injection st self n :
  0 < n ->
  attr_of st self "num_images" = Some (VInt n) ->
  (class_of st self CInput -> attr_of st self "X" = Some VNone ->
   forward self st = Raises TypeError st) /\
  (forall p v, class_of st self CCrossEntropy ->
     input_of st self = Some p -> attr_of st p "value" = Some v ->
     attr_of st self "ideal_output" = Some VNone ->
     forward self st = Raises TypeError (set_attr st self "softmax" v)).
Proof.
  intros Hn Hni. split.
  - intros (l & Hl & Hc) HX. unfold forward.
    rewrite (bind_returns _ _ _ _ _ (get_layer_returns _ _ _ Hl)), Hc.
    unfold Input.forward. rewrite get_int_step with (k := n) by done.
    destruct n as [|n']; [lia|]. unfold for_range. cbn [seq for_each].
    apply bind_raises. unfold Input.forward_body. apply bind_raises.
    unfold Input.row. apply bind_raises. by erewrite getattr_step by exact HX.
  - intros p v (l & Hl & Hc) Hp Hv Hy. unfold forward.
    rewrite (bind_returns _ _ _ _ _ (get_layer_returns _ _ _ Hl)), Hc.
    unfold CrossEntropy.forward.
    rewrite getattr_input_step with (p := p) (v := v) by done.
    assert (self < length (layers st)) as Hlt by (by apply lookup_lt_Some in Hl).
    rewrite setattr_step by done.
    rewrite get_int_step with (k := n) by (by rewrite attr_of_set_attr_ne).
    destruct n as [|n']; [lia|]. unfold for_range. cbn [seq for_each].
    apply bind_raises. apply bind_raises.
    unfold CrossEntropy.forward_body. apply bind_raises.
    unfold CrossEntropy.row. apply bind_raises.
    erewrite getattr_step by (by rewrite attr_of_set_attr_ne). reflexivity.
Qed.

(** The example before [topological_sort] has run. *)
Lemma forward_before_injection_witness :
  (class_of ex_net 0 CInput -> attr_of ex_net 0 "X" = Some VNone ->
   forward 0 ex_net = Raises TypeError ex_net) /\
  (forall p v, class_of ex_net 0 CCrossEntropy ->
     input_of ex_net 0 = Some p -> attr_of ex_net p "value" = Some v ->
     attr_of ex_net 0 "ideal_output" = Some VNone ->
     forward 0 ex_net = Raises TypeError (set_attr ex_net 0 "softmax" v)).
Proof.
  apply (forward_before_injection ex_net 0 1).
  - lia.
  - evaluate.
Defined.

Lemma ex_net_uninjected :
  class_of ex_net 0 CInput /\ attr_of ex_net 0 "X" = Some VNone /\
  class_of ex_net 3 CCrossEntropy /\ attr_of ex_net 3 "ideal_output" = Some VNone.
Proof. split_and!; try evaluate; eexists; split; evaluate. Qed.

(** ** What the scheduler injects *)

Lemma bind_inv {A B} (m : M A) (f : A -> M B) s b s' :
  (m ≫= f) s = Returns b s' ->
  exists a s1, m s = Returns a s1 /\ f a s1 = Returns b s'.
Proof.
  unfold mbind, M_bind. destruct (m s) as [a s1|e s1|]; [|done..].
  intros H. by exists a, s1.
Qed.

Lemma same_store {A} (m : M A) s a s' :
  kept_at (fun st => st) m s -> m s = Returns a s' -> s' = s.
Proof. intros Hk H. apply Hk. by rewrite H. Qed.

Lemma dict_get_elem (feed_dict : list (nat * pyval)) e v :
  NoDup feed_dict.*1 -> (e, v) ∈ feed_dict -> dict_get feed_dict e = Ok v.
Proof.
  intros Hnd He. unfold dict_get.
  destruct (list_find (fun kv : nat * pyval => kv.1 = e) feed_dict)
    as [[i [k' v']]|] eqn:Hf.
  - apply list_find_Some in Hf as (Hi & Hk & _). simpl in Hk. subst k'.
    apply list_elem_of_lookup in He as [j Hj].
    assert (i = j) as ->; [|congruence].
    apply (NoDup_lookup _ i j e Hnd); rewrite list_lookup_fmap.
    + by rewrite Hi.
    + by rewrite Hj.
  - exfalso. eapply list_find_None in Hf.
    rewrite Forall_forall in Hf. by apply (Hf _ He).
Qed.

Section injection.
Context (choose : nat -> nat) (feed_dict : list (nat * pyval)) (ideal_output : pyval).

(** One turn of the second loop leaves the layer it has taken injected,
    and changes no other layer. *)
Lemma inject_turn n l st st' :
  layers st !! n = Some l ->
  ((if decide (cls l = CInput)
    then v ← lift (dict_get feed_dict n); Input._set n v
    else mret tt) ≫= fun _ =>
   if decide (cls l = CCrossEntropy)
   then _ ← setattr n "ideal_output" ideal_output; setattr n "n_inputs" (VInt 1)
   else mret tt) st = Returns tt st' ->
  injected feed_dict ideal_output st' n /\
  forall m, m ≠ n -> layers st' !! m = layers st !! m.
Proof.
  intros Hl Hrun.
  assert (n < length (layers st)) as Hn by (by apply lookup_lt_Some in Hl).
  apply bind_inv in Hrun as ([] & s1 & H1 & H2).
  destruct (decide (cls l = CInput)) as [Hc|Hc].
  - rewrite decide_False in H2 by congruence. injection H2 as <-.
    apply bind_inv in H1 as (v & s0 & Hv & Hset).
    destruct (dict_get feed_dict n) as [v'|] eqn:Hd; [|done].
    injection Hv as <- <-.
    apply (setattr_inv _ _ _ _ l) in Hset as ->; [|done]. split.
    + intros l1 Hl1. rewrite (set_attr_layer st n l) in Hl1 by done.
      injection Hl1 as <-. split.
      * intros _. exists v'. split; [done|]. simpl. by rewrite lookup_insert_eq.
      * simpl. congruence.
    + intros m Hm. by apply older_set_attr.
  - injection H1 as <-.
    destruct (decide (cls l = CCrossEntropy)) as [Hc'|Hc'].
    + apply bind_inv in H2 as ([] & s2 & Hs2 & Hs3).
      apply (setattr_inv _ _ _ _ l) in Hs2 as ->; [|done].
      apply (setattr_inv _ _ _ _ (with_attr l "ideal_output" ideal_output)) in Hs3 as ->;
        [|by apply set_attr_layer].
      split.
      * intros l1 Hl1.
        rewrite (set_attr_layer _ n (with_attr l "ideal_output" ideal_output)) in Hl1
          by (by apply set_attr_layer).
        injection Hl1 as <-. simpl. split; [congruence|]. intros _.
        rewrite lookup_insert_eq. by rewrite lookup_insert_ne, lookup_insert_eq.
      * intros m Hm. by rewrite !older_set_attr.
    + injection H2 as <-. split; [|done].
      intros l1 Hl1. assert (l1 = l) as -> by congruence. done.
Qed.

Lemma order_injects fuel S L G st L' st' :
  order choose fuel feed_dict ideal_output S L G st = Returns L' st' ->
  (forall n, n ∈ L -> injected feed_dict ideal_output st n) ->
  forall n, n ∈ L' -> injected feed_dict ideal_output st' n.
Proof.
  revert S L G st. induction fuel as [|fuel IH]; intros S L G st; simpl.
  - destruct (decide (size S = 0)); [|done]. by intros [= <- <-].
  - destruct (decide (size S = 0)) as [|Hne]; [by intros [= <- <-]|].
    intros Hrun HL.
    apply bind_inv in Hrun as ([n S1] & s1 & Hpop & Hrun).
    apply lift_inv in Hpop as ->.
    apply bind_inv in Hrun as (l & s1 & [-> Hl]%get_layer_inv & Hrun).
    rewrite <- bind_assoc in Hrun.
    apply bind_inv in Hrun as ([] & s2 & Hinj & Hrun).
    destruct (inject_turn n l st s2 Hl Hinj) as [Hn Hother].
    apply bind_inv in Hrun as (l2 & s3 & [-> Hl2]%get_layer_inv & Hrun).
    apply bind_inv in Hrun as ([S2 G2] & s3 & Hfold & Hrun).
    apply same_store in Hfold as ->.
    2:{ apply kept_for_fold. intros [S3 G3] m s4.
        apply kept_bind; [apply kept_lift|]. intros G4 s5 _.
        apply kept_bind; [apply kept_lift|]. intros G5 s6 _.
        apply kept_bind; [apply kept_lift|]. intros i s7 _.
        destruct (decide (size i = 0)); apply kept_ret. }
    apply (IH _ _ _ _ Hrun). intros m [Hm | ->%list_elem_of_singleton]%elem_of_app; [|done].
    destruct (decide (m = n)) as [->|Hmn]; [done|].
    intros lm Hlm. rewrite Hother in Hlm by done. by apply (HL m).
Qed.
End injection.

(** X18: on a store wired as the constructors wire it, with the keys of
    [feed_dict] distinct [Input] layers, [topological_sort] returns, given
    turns enough, with every key's [X] bound to the batch [feed_dict] gives
    for it, and with [ideal_output] bound to the ideal output and
    [n_inputs] to 1 in every [CrossEntropy] layer the keys lead to. *)
Theorem topological_sort_injects choose s feed_dict ideal_output :
  wired s ->
  (forall e, e ∈ feed_dict.*1 -> class_of s e CInput) ->
  NoDup feed_dict.*1 ->
  exists fuel0, forall fuel, fuel0 <= fuel ->
    exists L s',
      topological_sort choose fuel feed_dict ideal_output s = Returns L s' /\
      (forall e v, (e, v) ∈ feed_dict -> attr_of s' e "X" = Some v) /\
      (forall n, reachable s feed_dict.*1 n -> class_of s n CCrossEntropy ->
         attr_of s' n "ideal_output" = Some ideal_output /\
         attr_of s' n "n_inputs" = Some (VInt 1)).
Proof.
  intros Hw Hin Hnd.
  exists (weight (length (layers s)) feed_dict.*1 `max` length (layers s)).
  intros fuel Hfuel.
  destruct (topological_sort_spec choose s feed_dict ideal_output Hw Hin fuel Hnd)
    as (L & s' & Hrun & Hwir & _ & HL & _); [lia..|].
  exists L, s'. split; [done|].
  assert (forall n, n ∈ L -> injected feed_dict ideal_output s' n) as Hinj.
  { unfold topological_sort in Hrun. cbv zeta in Hrun.
    apply bind_inv in Hrun as (G & s1 & HG & Hord).
    apply (order_injects _ _ _ _ _ _ _ _ _ _ Hord). by intros n ?%elem_of_nil. }
  assert (forall n c, class_of s n c ->
            exists l', layers s' !! n = Some l' /\ cls l' = c) as Hcls.
  { intros n c (l & Hl & Hc). destruct (wiring_layer s' s n l Hwir Hl) as (l' & Hl' & Hsk).
    exists l'. split; [done|]. unfold skeleton in Hsk. congruence. }
  split.
  - intros e v He.
    assert (e ∈ feed_dict.*1) as Hk.
    { apply list_elem_of_fmap. by exists (e, v). }
    destruct (Hcls e CInput (Hin e Hk)) as (l' & Hl' & Hc').
    destruct (Hinj e) with (l := l') as [HX _]; [apply HL; by constructor|done|].
    destruct (HX Hc') as (v' & Hd & Hv').
    rewrite (dict_get_elem feed_dict e v Hnd He) in Hd. injection Hd as <-.
    unfold attr_of. by rewrite Hl'.
  - intros n Hr Hc.
    destruct (Hcls n CCrossEntropy Hc) as (l' & Hl' & Hc').
    destruct (Hinj n) with (l := l') as [_ HY]; [by apply HL|done|].
    destruct (HY Hc') as [H1 H2]. unfold attr_of. rewrite Hl'. done.
Qed.

Lemma topological_sort_injects_witness :
  exists fuel0, forall fuel, fuel0 <= fuel ->
    exists L s',
      topological_sort ex_choose fuel ex_feed (VArr 5) ex_net = Returns L s' /\
      (forall e v, (e, v) ∈ ex_feed -> attr_of s' e "X" = Some v) /\
      (forall n, reachable ex_net ex_feed.*1 n -> class_of ex_net n CCrossEntropy ->
         attr_of s' n "ideal_output" = Some (VArr 5) /\
         attr_of s' n "n_inputs" = Some (VInt 1)).
Proof.
  apply (topological_sort_injects ex_choose ex_net ex_feed (VArr 5)).
  - apply constructed_wired, ex_net_constructed.
  - apply ex_feed_inputs.
  - apply ex_feed_nodup.
Defined.
